(** * Weather / PDF assistant: the routing pipeline and its helpers

    A shallow embedding of [src/weather.py], [src/rag.py] and [src/graph.py].

    - Python [str] values are lists of Unicode code points.
    - The interpreter's string methods ([lower], [upper], [strip], [title],
      [capitalize], [join], [in]) and the part of [re] used by the two
      patterns of [extract_city_name] are written out.
    - Outbound calls (language model, HTTP, vector store) are oracles of a
      [World]; every call and every write to the graph state is recorded in
      an event log threaded through an error monad.
    - The graph itself is a small state machine run with the recursion limit
      of the graph library. *)

From Stdlib Require Import List NArith ZArith Bool Ascii String Lia.
From Stdlib Require Import DecimalString.
From Stdlib Require Import Floats.SpecFloat.
Import ListNotations.

Set Implicit Arguments.

(* ================================================================== *)
(** ** Python strings *)

Module PyStr.

Local Open Scope N_scope.

(** A [str] is a sequence of code points. *)
Definition str := list N.

(** ASCII literals of the source text. *)
Definition lit (s : string) : str := map N_of_ascii (list_ascii_of_string s).

Fixpoint str_eqb (a b : str) : bool :=
  match a, b with
  | [], [] => true
  | x :: a', y :: b' => (x =? y) && str_eqb a' b'
  | _, _ => false
  end.

Definition between (lo hi c : N) : bool := (lo <=? c) && (c <=? hi).

(** [str.isspace] on one code point; the same predicate drives [str.strip]
    and the class [\s] of a [str] pattern. *)
Definition isspace (c : N) : bool :=
  between 9 13 c || between 28 32 c || (c =? 133) || (c =? 160)
  || (c =? 5760) || between 8192 8202 c || (c =? 8232) || (c =? 8233)
  || (c =? 8239) || (c =? 8287) || (c =? 12288).

Fixpoint lstrip (s : str) : str :=
  match s with
  | c :: t => if isspace c then lstrip t else s
  | [] => []
  end.

Definition rstrip (s : str) : str := rev (lstrip (rev s)).

(** [s.strip()] *)
Definition strip (s : str) : str := rstrip (lstrip s).

(** Case mappings.  The tables are those of Basic Latin and the Latin-1
    Supplement (U+0000 to U+00FF); code points beyond that range are passed
    through unchanged. *)
Definition is_upper_latin (c : N) : bool :=
  between 65 90 c || (between 192 222 c && negb (c =? 215)).

Definition is_lower_latin (c : N) : bool :=
  between 97 122 c || (between 224 254 c && negb (c =? 247)).

Definition lower_cp (c : N) : str :=
  if is_upper_latin c then [c + 32] else [c].

Definition upper_cp (c : N) : str :=
  if is_lower_latin c then [c - 32]
  else if c =? 223 then [83; 83]            (* sharp s -> SS *)
  else if c =? 181 then [924]               (* micro sign -> capital mu *)
  else if c =? 255 then [376]               (* y diaeresis *)
  else [c].

Definition title_cp (c : N) : str :=
  if c =? 223 then [83; 115] else upper_cp c.

Definition is_cased (c : N) : bool :=
  is_upper_latin c || is_lower_latin c
  || (c =? 170) || (c =? 181) || (c =? 186) || (c =? 223) || (c =? 255).

(** The lowercase mapping never changes the number of code points. *)
Definition lower1 (c : N) : N := if is_upper_latin c then c + 32 else c.

(** [s.lower()] and [s.upper()] *)
Definition lower (s : str) : str := flat_map lower_cp s.
Definition upper (s : str) : str := flat_map upper_cp s.

(** [s.title()]: a character that follows a cased character is lowercased,
    any other character is titlecased. *)
Fixpoint title_from (previous_is_cased : bool) (s : str) : str :=
  match s with
  | [] => []
  | c :: t =>
      (if previous_is_cased then lower_cp c else title_cp c)
        ++ title_from (is_cased c) t
  end.

Definition title (s : str) : str := title_from false s.

(** [s.capitalize()] *)
Definition capitalize (s : str) : str :=
  match s with
  | [] => []
  | c :: t => title_cp c ++ lower t
  end.

Fixpoint startswith (p s : str) : bool :=
  match p, s with
  | [], _ => true
  | a :: p', b :: s' => (a =? b) && startswith p' s'
  | _ :: _, [] => false
  end.

(** [needle in hay] *)
Fixpoint contains (needle hay : str) : bool :=
  startswith needle hay
  || match hay with
     | [] => false
     | _ :: t => contains needle t
     end.

(** [sep.join(parts)] *)
Fixpoint join (sep : str) (parts : list str) : str :=
  match parts with
  | [] => []
  | [p] => p
  | p :: rest => p ++ sep ++ join sep rest
  end.

(** [x or ""] for an optional string. *)
Definition or_empty (x : option str) : str :=
  match x with
  | Some s => s
  | None => []
  end.

(** Truth value of a string. *)
Definition truthy (s : str) : bool :=
  match s with
  | [] => false
  | _ => true
  end.

End PyStr.

Import PyStr.

Notation "'u' s" := (lit s%string) (at level 9, s at level 0, only parsing).

(* ================================================================== *)
(** ** The fragment of [re] used by [extract_city_name] *)

Module Re.

Local Open Scope N_scope.

(** Patterns.  Quantifiers are applied to character classes only, as in the
    source; there is one capture group. *)
Inductive regex : Type :=
| Chr (c : N)                              (* a literal character *)
| Cat (r1 r2 : regex)                      (* r1 r2 *)
| Alt (r1 r2 : regex)                      (* r1|r2 *)
| Opt (r : regex)                          (* (?:r)? *)
| Rep (greedy : bool) (least : nat) (cls : N -> bool)
                                           (* cls+ cls* cls+? cls*? *)
| Grp (r : regex)                          (* (r), group 1 *)
| Eos.                                     (* $ *)

(** Greedy repetition of a class: take as many characters as possible and
    give back one at a time. *)
Fixpoint rep_greedy (A : Type) (cls : N -> bool) (least : nat) (s : str)
    (k : str -> option A) : option A :=
  match s with
  | c :: t =>
      if cls c then
        match rep_greedy cls (pred least) t k with
        | Some x => Some x
        | None => match least with O => k s | S _ => None end
        end
      else match least with O => k s | S _ => None end
  | [] => match least with O => k s | S _ => None end
  end.

(** Lazy repetition of a class: take as few characters as possible and add
    one at a time. *)
Fixpoint rep_lazy (A : Type) (cls : N -> bool) (least : nat) (s : str)
    (k : str -> option A) : option A :=
  match least with
  | O =>
      match k s with
      | Some x => Some x
      | None =>
          match s with
          | c :: t => if cls c then rep_lazy cls O t k else None
          | [] => None
          end
      end
  | S n =>
      match s with
      | c :: t => if cls c then rep_lazy cls n t k else None
      | [] => None
      end
  end.

(** Backtracking matcher.  [s] is the text still to read, [g] the text of
    group 1 so far, [k] what has to match after [r]. *)
Fixpoint rmatch (A : Type) (r : regex) (s : str) (g : option str)
    (k : str -> option str -> option A) : option A :=
  match r with
  | Chr c =>
      match s with
      | x :: t => if x =? c then k t g else None
      | [] => None
      end
  | Cat r1 r2 => rmatch r1 s g (fun s' g' => rmatch r2 s' g' k)
  | Alt r1 r2 =>
      match rmatch r1 s g k with
      | Some x => Some x
      | None => rmatch r2 s g k
      end
  | Opt r1 =>
      match rmatch r1 s g k with
      | Some x => Some x
      | None => k s g
      end
  | Rep true least cls => rep_greedy cls least s (fun s' => k s' g)
  | Rep false least cls => rep_lazy cls least s (fun s' => k s' g)
  | Grp r1 =>
      rmatch r1 s g
        (fun s' _ => k s' (Some (firstn (List.length s - List.length s') s)))
  | Eos =>
      match s with
      | [] => k s g
      | [10] => k s g                        (* before a final newline *)
      | _ => None
      end
  end.

(** A match object; only group 1 is read by the source. *)
Record Match : Type := { group1 : option str }.

Definition match_here (r : regex) (s : str) : option Match :=
  rmatch r s None (fun _ g => Some {| group1 := g |}).

(** [re.search(r, s)]: the leftmost position at which [r] matches. *)
Fixpoint search (r : regex) (s : str) : option Match :=
  match match_here r s with
  | Some m => Some m
  | None =>
      match s with
      | [] => None
      | _ :: t => search r t
      end
  end.

(** Patterns all of whose matches go through group 1. *)
Fixpoint sets_group (r : regex) : bool :=
  match r with
  | Grp _ => true
  | Cat r1 r2 => sets_group r1 || sets_group r2
  | Alt r1 r2 => sets_group r1 && sets_group r2
  | _ => false
  end.

(** Helpers to write patterns. *)
Fixpoint word (s : str) : regex :=
  match s with
  | [] => Opt Eos                            (* never used on the empty word *)
  | [c] => Chr c
  | c :: t => Cat (Chr c) (word t)
  end.

Fixpoint cat (rs : list regex) (last : regex) : regex :=
  match rs with
  | [] => last
  | r :: rest => Cat r (cat rest last)
  end.

Fixpoint alt (rs : list regex) (last : regex) : regex :=
  match rs with
  | [] => last
  | r :: rest => Alt r (alt rest last)
  end.

(** Character classes of the two patterns. *)
Definition cls_letter_or_space (c : N) : bool :=   (* [a-zA-Z\s] *)
  between 97 122 c || between 65 90 c || isspace c.

Definition cls_space (c : N) : bool := isspace c.  (* \s *)

Definition cls_trailing (c : N) : bool :=          (* [\s\?\,\.] *)
  isspace c || (c =? 63) || (c =? 44) || (c =? 46).

End Re.

Import Re.

(* ================================================================== *)
(** ** [src/weather.py]: city extraction *)

(** [r"in ([a-zA-Z\s]+?)(?:\s+(?:today|now|tomorrow|weather|forecast))?[\s\?\,\.]*$"] *)
Definition city_pattern_in : regex :=
  cat [ word (u"in ");
        Grp (Rep false 1 cls_letter_or_space);
        Opt (Cat (Rep true 1 cls_space)
                 (alt [ word (u"today"); word (u"now"); word (u"tomorrow");
                        word (u"weather") ]
                      (word (u"forecast"))));
        Rep true 0 cls_trailing ]
      Eos.

(** [r"([a-zA-Z\s]+?)\s+weather"] *)
Definition city_pattern_before_weather : regex :=
  cat [ Grp (Rep false 1 cls_letter_or_space);
        Rep true 1 cls_space ]
      (word (u"weather")).

(** [m.group(1).strip().title()]; group 1 takes part in every match of the
    two patterns (lemma [search_sets_group1] below). *)
Definition city_of_match (m : Match) : str :=
  title (strip (or_empty (group1 m))).

(** [extract_city_name(user_query, default_city)] *)
Definition extract_city_name (user_query default_city : str) : str :=
  let text := lower user_query in
  match search city_pattern_in text with
  | Some m => city_of_match m
  | None =>
      match search city_pattern_before_weather text with
      | Some m => city_of_match m
      | None => default_city
      end
  end.

(* ================================================================== *)
(** ** Runtime values, exceptions and effects *)

Module Py.

(** Values that cross the boundary with the outside world: decoded JSON, and
    the tuples a stubbed geocoder returns. *)
#[warnings="-register-all"]
Inductive pyval : Type :=
| PNone
| PBool (b : bool)
| PInt (z : Z)
| PFloat (f : spec_float)
| PStr (s : str)
| PList (items : list pyval)
| PTuple (items : list pyval)
| PDict (entries : list (str * pyval)).       (* keys as in JSON objects *)

Inductive exn_kind : Type :=
| KeyError | IndexError | TypeError | AttributeError | ValueError
| OtherError (name : str).                     (* raised by a collaborator *)

(** An instance of [Exception]; [exn_str] is [str(ex)]. *)
Record exn : Type := Exn { exn_kind_of : exn_kind; exn_str : str }.

Definition result (A : Type) : Type := (exn + A)%type.

Definition type_name (v : pyval) : str :=
  match v with
  | PNone => u"NoneType"
  | PBool _ => u"bool"
  | PInt _ => u"int"
  | PFloat _ => u"float"
  | PStr _ => u"str"
  | PList _ => u"list"
  | PTuple _ => u"tuple"
  | PDict _ => u"dict"
  end.

(** [bool(v)] *)
Definition truth (v : pyval) : bool :=
  match v with
  | PNone => false
  | PBool b => b
  | PInt z => negb (z =? 0)%Z
  | PFloat (S754_zero _) => false
  | PFloat _ => true
  | PStr s => truthy s
  | PList [] | PTuple [] | PDict [] => false
  | PList _ | PTuple _ | PDict _ => true
  end.

(** [len(v)]; message wording of CPython 3.11. *)
Definition len (v : pyval) : result nat :=
  match v with
  | PStr s => inr (List.length s)
  | PList l | PTuple l => inr (List.length l)
  | PDict d => inr (List.length d)
  | _ => inl (Exn TypeError
                (u"object of type '" ++ type_name v ++ u"' has no len()"))
  end.

Fixpoint lookup (key : str) (entries : list (str * pyval)) : option pyval :=
  match entries with
  | [] => None
  | (k, v) :: rest => if str_eqb k key then Some v else lookup key rest
  end.

(** [d.get(key)] *)
Definition dict_get (entries : list (str * pyval)) (key : str) : pyval :=
  match lookup key entries with
  | Some v => v
  | None => PNone
  end.

Definition not_subscriptable (v : pyval) : exn :=
  Exn TypeError (u"'" ++ type_name v ++ u"' object is not subscriptable").

End Py.

Import Py.

(** A chat message: its role and its text. *)
Inductive message : Type :=
| SystemMessage (content : str)
| HumanMessage (content : str).

(** A retrieved passage; only [page_content] is read. *)
Record Document : Type := { page_content : str }.

(** The outside world of one process: how the interpreter renders values,
    the environment, and the three collaborators.  A collaborator answers
    equal requests equally. *)
Record World : Type := {
  py_repr : pyval -> str;                        (* repr(v) *)
  py_str : pyval -> str;                         (* str(v), format(v, "") *)
  fmt1_int : Z -> str;                           (* format(z, ".1f") *)
  fmt1_float : spec_float -> str;                (* format(f, ".1f") *)
  openweather_api_key : option str;              (* os.getenv(...) *)
  http_get_json : str -> result pyval;           (* requests.get(url).json() *)
  llm_invoke : list message -> result (option str);   (* llm.invoke(..).content *)
  similarity_search : str -> Z -> result (list Document)
}.

(** The nodes of the graph and the fields of its state. *)
Inductive node : Type := Decision | Weather | Rag | Answer.
Inductive field : Type := FQuestion | FRoute | FContext | FAnswer.

Inductive event : Type :=
| EvLlm (messages : list message)
| EvHttpGet (url : str)
| EvSearch (query : str) (k : Z)
| EvWrite (n : node) (f : field) (v : str).

(** Computations that may raise and that append to the event log. *)
Definition M (A : Type) : Type := list event -> result A * list event.

Definition ret {A} (a : A) : M A := fun log => (inr a, log).

Definition raise {A} (e : exn) : M A := fun log => (inl e, log).

Definition bind {A B} (m : M A) (f : A -> M B) : M B :=
  fun log =>
    match m log with
    | (inr a, log') => f a log'
    | (inl e, log') => (inl e, log')
    end.

Definition emit (ev : event) : M unit := fun log => (inr tt, log ++ [ev]).

Definition lift {A} (r : result A) : M A := fun log => (r, log).

(** [try: body  except Exception as ex: handler(ex)] *)
Definition try_except {A} (body : M A) (handler : exn -> M A) : M A :=
  fun log =>
    match body log with
    | (inr a, log') => (inr a, log')
    | (inl e, log') => handler e log'
    end.

Declare Scope py_scope.
Delimit Scope py_scope with py.
Notation "x <- m ;; k" := (bind m (fun x => k))
  (at level 100, m at next level, right associativity) : py_scope.
Notation "m ;;; k" := (bind m (fun _ => k))
  (at level 100, right associativity) : py_scope.

(** The same two operations on pure results. *)
Definition rbind {A B} (r : result A) (f : A -> result B) : result B :=
  match r with
  | inr a => f a
  | inl e => inl e
  end.

Notation "x <~ r ;; k" := (rbind r (fun x => k))
  (at level 100, r at next level, right associativity) : py_scope.

Local Open Scope py_scope.

Section Program.

Variable W : World.

(* ------------------------------------------------------------------ *)
(** *** Interpreter operations used by the summary *)

(** [v[key]] for a string key; message wording of CPython 3.11. *)
Definition subscript_key (v : pyval) (key : str) : result pyval :=
  match v with
  | PDict d =>
      match lookup key d with
      | Some x => inr x
      | None => inl (Exn KeyError (py_repr W (PStr key)))
      end
  | PList _ =>
      inl (Exn TypeError (u"list indices must be integers or slices, not str"))
  | PTuple _ =>
      inl (Exn TypeError (u"tuple indices must be integers or slices, not str"))
  | PStr _ =>
      inl (Exn TypeError (u"string indices must be integers, not 'str'"))
  | _ => inl (not_subscriptable v)
  end.

(** [v[0]] *)
Definition subscript_zero (v : pyval) : result pyval :=
  match v with
  | PList (x :: _) | PTuple (x :: _) => inr x
  | PList [] => inl (Exn IndexError (u"list index out of range"))
  | PTuple [] => inl (Exn IndexError (u"tuple index out of range"))
  | PStr (c :: _) => inr (PStr [c])
  | PStr [] => inl (Exn IndexError (u"string index out of range"))
  | PDict _ => inl (Exn KeyError (py_repr W (PInt 0)))
  | _ => inl (not_subscriptable v)
  end.

(** [v.capitalize()] *)
Definition call_capitalize (v : pyval) : result str :=
  match v with
  | PStr s => inr (capitalize s)
  | _ => inl (Exn AttributeError
                (u"'" ++ type_name v ++ u"' object has no attribute 'capitalize'"))
  end.

(** [format(v, ".1f")]; an integer is converted to a float first, which
    overflows from [2^1024 - 2^970] on. *)
Definition format_1f (v : pyval) : result str :=
  match v with
  | PInt z =>
      if (Z.abs z <? 2 ^ 1024 - 2 ^ 970)%Z then inr (fmt1_int W z)
      else inl (Exn (OtherError (u"OverflowError"))
                  (u"int too large to convert to float"))
  | PBool b => inr (fmt1_int W (if b then 1 else 0)%Z)
  | PFloat f => inr (fmt1_float W f)
  | PStr _ =>
      inl (Exn ValueError (u"Unknown format code 'f' for object of type 'str'"))
  | _ => inl (Exn TypeError
                (u"unsupported format string passed to " ++ type_name v
                   ++ u".__format__"))
  end.

(* ------------------------------------------------------------------ *)
(** *** [src/weather.py] *)

Definition degrees_c : str := [176%N] ++ u"C".          (* the degree sign, C *)
Definition couldnt : str := u"couldn" ++ [8217%N] ++ u"t".   (* typographic apostrophe *)

Definition render_api_key : str :=
  match openweather_api_key W with
  | Some key => key
  | None => u"None"
  end.

(** [geocode_city(city_name, country_hint)] *)
Definition geocode_url (city_name country_hint : str) : str :=
  u"https://api.openweathermap.org/geo/1.0/direct?q=" ++ city_name ++ u","
    ++ country_hint ++ u"&limit=1&appid=" ++ render_api_key.

Definition geocode_city (city_name country_hint : str) : M pyval :=
  let url := geocode_url city_name country_hint in
  emit (EvHttpGet url) ;;;
  lift (http_get_json W url).

(** [fetch_weather_onecall(lat, lon)] *)
Definition onecall_url (lat lon : pyval) : str :=
  u"https://api.openweathermap.org/data/3.0/onecall?" ++ u"lat=" ++ py_str W lat
    ++ u"&lon=" ++ py_str W lon
    ++ u"&exclude=minutely,hourly,daily,alerts&units=metric&appid="
    ++ render_api_key.

Definition fetch_weather_onecall (lat lon : pyval) : M pyval :=
  let url := onecall_url lat lon in
  emit (EvHttpGet url) ;;;
  lift (http_get_json W url).

(** The body of the [try] of [summarise_onecall]. *)
Definition summarise_body (weather_json : pyval) (city_name : str) : result str :=
  current <~ subscript_key weather_json (u"current") ;;
  weather <~ subscript_key current (u"weather") ;;
  first <~ subscript_zero weather ;;
  description <~ subscript_key first (u"description") ;;
  desc <~ call_capitalize description ;;
  temp <~ subscript_key current (u"temp") ;;
  feels <~ subscript_key current (u"feels_like") ;;
  hum <~ subscript_key current (u"humidity") ;;
  wind <~ subscript_key current (u"wind_speed") ;;
  temp_text <~ format_1f temp ;;
  feels_text <~ format_1f feels ;;
  inr (u"Current weather in " ++ city_name ++ u": " ++ temp_text ++ degrees_c
         ++ u" (feels like " ++ feels_text ++ degrees_c ++ u"), "
         ++ u"humidity " ++ py_str W hum ++ u"%, " ++ desc ++ u", wind "
         ++ py_str W wind ++ u" m/s.").

Definition parse_apology (e : exn) : str :=
  u"Sorry, I " ++ couldnt ++ u" parse the weather data correctly: " ++ exn_str e.

(** [summarise_onecall(weather_json, city_name)] *)
Definition summarise_onecall (weather_json : pyval) (city_name : str) : result str :=
  match summarise_body weather_json city_name with
  | inr text => inr text
  | inl e => inr (parse_apology e)
  end.

(** Lines 85 to 95 of [fetch_weather_for_city]: from the geocoding response
    to the coordinates. *)
Definition geocode_coordinates (city country_hint : str) (data : pyval)
    : result (pyval * pyval) :=
  empty <~ (if negb (truth data) then inr true
            else n <~ len data ;; inr (Nat.eqb n 0)) ;;
  if empty : bool then
    inl (Exn ValueError
           (u"Could not geocode city: " ++ city ++ u"," ++ country_hint))
  else
    match data with
    | PTuple [lat; lon] => inr (lat, lon)
    | PList (PDict d :: _) => inr (dict_get d (u"lat"), dict_get d (u"lon"))
    | _ => inl (Exn ValueError
                  (u"Unexpected geocode response format: " ++ py_str W data))
    end.

(** [fetch_weather_for_city(user_query, default_city, country_hint)] *)
Definition fetch_weather_for_city (user_query default_city country_hint : str)
    : M str :=
  let city := extract_city_name user_query default_city in
  data <- geocode_city city country_hint ;;
  coords <- lift (geocode_coordinates city country_hint data) ;;
  weather <- fetch_weather_onecall (fst coords) (snd coords) ;;
  lift (summarise_onecall weather city).

(* ------------------------------------------------------------------ *)
(** *** [src/rag.py] *)

Definition blank_line : str := [10%N; 10%N].            (* "\n\n" *)

(** [retrieve_context(vector_store, query, k)] *)
Definition retrieve_context (query : str) (k : Z) : M str :=
  emit (EvSearch query k) ;;;
  docs <- lift (similarity_search W query k) ;;
  let contents :=
    fold_left (fun contents doc => contents ++ [page_content doc]) docs [] in
  ret (join blank_line contents).

(* ------------------------------------------------------------------ *)
(** *** [src/graph.py] *)

Record GraphState : Type := {
  question : str;
  route : option str;
  context : option str;
  answer : option str
}.

(** What a node returns: the keys it writes, in order. *)
Definition update : Type := list (field * str).

Definition classifier_prompt : str :=
  u"You are a classifier. If the user is asking about the weather, "
    ++ u"output 'weather'. Otherwise output 'pdf'. Return only that word.".

Definition call_llm (messages : list message) : M (option str) :=
  emit (EvLlm messages) ;;;
  lift (llm_invoke W messages).

Definition decision_messages (st : GraphState) : list message :=
  [SystemMessage classifier_prompt; HumanMessage (question st)].

Definition decision_node (st : GraphState) : M update :=
  content <- call_llm (decision_messages st) ;;
  let route := lower (strip (or_empty content)) in
  let route := if contains (u"weather") route then u"weather" else u"pdf" in
  ret [(FRoute, route)].

Definition fetch_apology (ex : exn) : str :=
  u"Sorry, I " ++ couldnt ++ u" fetch the weather right now: " ++ exn_str ex.

Definition weather_node (st : GraphState) : M update :=
  summary <- try_except
               (fetch_weather_for_city (question st) (u"Hyderabad") (u"IN"))
               (fun ex => ret (fetch_apology ex)) ;;
  ret [(FContext, summary); (FRoute, u"weather")].

Definition rag_node (st : GraphState) : M update :=
  found <- retrieve_context (question st) 5 ;;
  let context := if truthy found then found else [] in
  ret [(FContext, context); (FRoute, u"pdf")].

Definition context_prompt (context : str) : str :=
  u"You are a helpful assistant. "
    ++ u"The following context contains the exact answer to the user's question. "
    ++ u"Use the context directly and DO NOT reply with 'I don't know'. "
    ++ u"Respond concisely." ++ blank_line
    ++ u"Context:" ++ [10%N] ++ context ++ blank_line.

Definition plain_prompt : str :=
  u"You are a helpful assistant. Answer the question to the best of your ability.".

Definition system_prompt (context : str) : str :=
  if truthy (strip context) then context_prompt context else plain_prompt.

Definition answer_messages (st : GraphState) : list message :=
  [SystemMessage (system_prompt (or_empty (context st)));
   HumanMessage (question st)].

Definition answer_node (st : GraphState) : M update :=
  content <- call_llm (answer_messages st) ;;
  let answer := strip (or_empty content) in
  ret [(FAnswer, answer)].

(** Graph wiring.  A node's returned keys are merged into the state one by
    one; every merge is logged. *)
Definition set_field (st : GraphState) (w : field * str) : GraphState :=
  match fst w with
  | FQuestion => {| question := snd w; route := route st;
                    context := context st; answer := answer st |}
  | FRoute => {| question := question st; route := Some (snd w);
                 context := context st; answer := answer st |}
  | FContext => {| question := question st; route := route st;
                   context := Some (snd w); answer := answer st |}
  | FAnswer => {| question := question st; route := route st;
                  context := context st; answer := Some (snd w) |}
  end.

Definition merge (st : GraphState) (upd : update) : GraphState :=
  fold_left set_field upd st.

Fixpoint log_writes (n : node) (upd : update) : M unit :=
  match upd with
  | [] => ret tt
  | (f, v) :: rest => emit (EvWrite n f v) ;;; log_writes n rest
  end.

Definition node_function (n : node) : GraphState -> M update :=
  match n with
  | Decision => decision_node
  | Weather => weather_node
  | Rag => rag_node
  | Answer => answer_node
  end.

Definition run_node (n : node) (st : GraphState) : M GraphState :=
  upd <- node_function n st ;;
  log_writes n upd ;;;
  ret (merge st upd).

(** [route_edge(state)]: [state["route"]] *)
Definition route_edge (st : GraphState) : result str :=
  match route st with
  | Some r => inr r
  | None => inl (Exn KeyError (py_repr W (PStr (u"route"))))
  end.

(** The mapping [{"weather": "weather", "pdf": "rag"}] of the conditional
    edge. *)
Definition edge_target (label : str) : result node :=
  if str_eqb label (u"weather") then inr Weather
  else if str_eqb label (u"pdf") then inr Rag
  else inl (Exn KeyError (py_repr W (PStr label))).

(** Edges: [None] is END. *)
Definition successor (n : node) (st : GraphState) : result (option node) :=
  match n with
  | Decision =>
      label <~ route_edge st ;;
      target <~ edge_target label ;;
      inr (Some target)
  | Weather | Rag => inr (Some Answer)
  | Answer => inr None
  end.

Definition recursion_limit : nat := 25.

Fixpoint run_from (steps : nat) (n : node) (st : GraphState) : M GraphState :=
  match steps with
  | O => raise (Exn (OtherError (u"GraphRecursionError"))
                    (u"Recursion limit reached"))
  | S steps' =>
      st' <- run_node n st ;;
      next <- lift (successor n st') ;;
      match next with
      | Some n' => run_from steps' n' st'
      | None => ret st'
      end
  end.

Definition initial_state (q : str) : GraphState :=
  {| question := q; route := None; context := None; answer := None |}.

(** [pipeline.invoke({"question": q})] *)
Definition invoke (q : str) : M GraphState :=
  run_from recursion_limit Decision (initial_state q).

End Program.

(* ================================================================== *)
(** ** Reading the event log *)

Definition is_write (ev : event) : bool :=
  match ev with
  | EvWrite _ _ _ => true
  | _ => false
  end.

Definition is_llm_call (ev : event) : bool :=
  match ev with
  | EvLlm _ => true
  | _ => false
  end.

(** The state writes of a run, in order. *)
Definition writes (log : list event) : list event := filter is_write log.

Definition field_eqb (a b : field) : bool :=
  match a, b with
  | FQuestion, FQuestion | FRoute, FRoute
  | FContext, FContext | FAnswer, FAnswer => true
  | _, _ => false
  end.

(** The writes to one field: who wrote what. *)
Fixpoint writes_to (f : field) (log : list event) : list (node * str) :=
  match log with
  | [] => []
  | EvWrite n f' v :: rest =>
      if field_eqb f f' then (n, v) :: writes_to f rest else writes_to f rest
  | _ :: rest => writes_to f rest
  end.

(* ================================================================== *)
(** ** Test doubles *)

Definition decimal (z : Z) : str := lit (NilZero.string_of_int (Z.to_int z)).

Definition message_content (m : message) : str :=
  match m with
  | SystemMessage c | HumanMessage c => c
  end.

(** [FakeModel.invoke] of [tests/test_graph.py]: the reply depends on the
    last message only. *)
Definition FakeModel_invoke (messages : list message) : result (option str) :=
  match rev messages with
  | [] => inl (Exn IndexError (u"list index out of range"))
  | m :: _ =>
      if contains (u"weather") (lower (message_content m))
      then inr (Some (u"weather"))
      else inr (Some (u"Paris is the capital of France."))
  end.

(** A provider stub: the geocoder answers every place with one entry, the
    conditions endpoint with a fixed report. *)
Definition stub_report : pyval :=
  PDict [ (u"current",
           PDict [ (u"temp", PInt 25);
                   (u"feels_like", PInt 26);
                   (u"humidity", PInt 70);
                   (u"wind_speed", PInt 4);
                   (u"weather", PList [PDict [(u"description", PStr (u"clear sky"))]]) ]) ].

Definition stub_http (url : str) : result pyval :=
  if startswith (u"https://api.openweathermap.org/geo/") url
  then inr (PList [PDict [(u"lat", PInt 17); (u"lon", PInt 78)]])
  else inr stub_report.

(** Rendering of the values that occur in the stubbed responses. *)
Definition stub_render (v : pyval) : str :=
  match v with
  | PInt z => decimal z
  | PStr s => u"'" ++ s ++ u"'"
  | PNone => u"None"
  | _ => u"..."
  end.

Definition stub_search (query : str) (k : Z) : result (list Document) :=
  inr (firstn (Z.to_nat k) [ {| page_content := u"Paris is the capital of France." |} ]).

Definition test_world : World :=
  {| py_repr := stub_render;
     py_str := stub_render;
     fmt1_int := fun z => decimal z ++ u".0";
     fmt1_float := fun _ => u"...";
     openweather_api_key := None;
     http_get_json := stub_http;
     llm_invoke := FakeModel_invoke;
     similarity_search := stub_search |}.

(** A provider whose geocoder cannot be reached, and one whose geocoder
    answers with a bare JSON number. *)
Definition unreachable_http (url : str) : result pyval :=
  inl (Exn (OtherError (u"ConnectionError")) (u"Max retries exceeded")).

Definition with_http (http : str -> result pyval) (w : World) : World :=
  {| py_repr := py_repr w;
     py_str := py_str w;
     fmt1_int := fmt1_int w;
     fmt1_float := fmt1_float w;
     openweather_api_key := openweather_api_key w;
     http_get_json := http;
     llm_invoke := llm_invoke w;
     similarity_search := similarity_search w |}.

Definition offline_world : World := with_http unreachable_http test_world.

Definition number_world : World := with_http (fun _ => inr (PInt 5)) test_world.

(** A provider whose geocoder knows the place but gives no coordinates. *)
Definition nameless_http (url : str) : result pyval :=
  if startswith (u"https://api.openweathermap.org/geo/") url
  then inr (PList [PDict [(u"name", PStr (u"Paris"))]])
  else inr stub_report.

Definition nameless_world : World := with_http nameless_http test_world.

(** A vector store that cannot be reached. *)
Definition storeless_world : World :=
  {| py_repr := stub_render;
     py_str := stub_render;
     fmt1_int := fun z => decimal z ++ u".0";
     fmt1_float := fun _ => u"...";
     openweather_api_key := None;
     http_get_json := stub_http;
     llm_invoke := FakeModel_invoke;
     similarity_search :=
       fun _ _ => inl (Exn (OtherError (u"ResponseHandlingException"))
                         (u"Connection refused")) |}.

(** A vector store with no passage, and a weather question the model sends
    to the retrieval route all the same. *)
Definition empty_store_world : World :=
  {| py_repr := stub_render;
     py_str := stub_render;
     fmt1_int := fun z => decimal z ++ u".0";
     fmt1_float := fun _ => u"...";
     openweather_api_key := None;
     http_get_json := stub_http;
     llm_invoke := FakeModel_invoke;
     similarity_search := fun _ _ => inr [] |}.

(** A question with a letter outside ASCII: "weather in stra(sharp s)e". *)
Definition strasse_question : str := u"weather in stra" ++ [223%N] ++ u"e".

(* ================================================================== *)
(** ** [src/ui_app.py]: one run of the chat script *)

(** [result.get("answer") or result.get("context") or ""] *)
Definition display_text (result : GraphState) : str :=
  let shown := or_empty (answer result) in
  if truthy shown then shown
  else
    let shown := or_empty (context result) in
    if truthy shown then shown else [].

(** An entry of [st.session_state.history]: role and content. *)
Definition chat_entry : Type := (str * str)%type.

(** What one run of [main] leaves behind: the stored history, the messages
    drawn on the page, how the run ended and the calls it made. *)
Record ScriptRun : Type := {
  stored_history : list chat_entry;
  drawn : list chat_entry;
  outcome : result unit;
  calls : list event
}.

(** [main()], with the pipeline of [init_resources] at hand.  [stored] is the
    history kept by the session, absent on the first run; [prompt] is what
    [st.chat_input] returns. *)
Definition main (W : World) (stored : option (list chat_entry))
    (prompt : option str) : ScriptRun :=
  let history := match stored with Some h => h | None => [] end in
  let page := history in
  if truthy (or_empty prompt) then
    let question := or_empty prompt in
    let history := history ++ [(u"human", question)] in
    let page := page ++ [(u"human", question)] in
    match invoke W question [] with
    | (inr result, log) =>
        let shown := display_text result in
        {| stored_history := history ++ [(u"ai", shown)];
           drawn := page ++ [(u"ai", shown)];
           outcome := inr tt;
           calls := log |}
    | (inl e, log) =>
        {| stored_history := history; drawn := page;
           outcome := inl e; calls := log |}
    end
  else
    {| stored_history := history; drawn := page;
       outcome := inr tt; calls := [] |}.

(* ================================================================== *)
(** ** [src/rag.py]: loading the PDF and building the store *)

Section Ingest.

(** What [page.extract_text()] does on one page. *)
Definition pdf_page : Type := result (option str).

(** [PdfReader(pdf_path).pages] *)
Variable pdf_reader : str -> result (list pdf_page).

(** A document and the page number of its metadata. *)
Definition page_document : Type := (Document * nat)%type.

(** The loop over [enumerate(reader.pages)], from page [i] on. *)
Fixpoint load_pages (i : nat) (pages : list pdf_page)
    (docs : list page_document) : list page_document :=
  match pages with
  | [] => docs
  | page :: rest =>
      let text :=
        match page with
        | inr extracted => or_empty extracted
        | inl _ => []
        end in
      load_pages (S i) rest (docs ++ [({| page_content := text |}, i)])
  end.

(** [load_pdf_documents(pdf_path)] *)
Definition load_pdf_documents (pdf_path : str) : result (list page_document) :=
  match pdf_reader pdf_path with
  | inr pages => inr (load_pages 0 pages [])
  | inl e => inl e
  end.

(** Where [QdrantVectorStore.from_documents] puts the collection. *)
Inductive store_target : Type :=
| RemoteStore (url : str) (api_key : option str)
| LocalStore (path : str).

Inductive setup_event : Type :=
| EvMakedirs (path : str)
| EvFromDocuments (target : store_target) (collection_name : str)
    (documents : list Document).

Variable vector_store : Type.
Variable makedirs : str -> result unit.      (* os.makedirs(path, exist_ok=True) *)
Variable from_documents :
  list Document -> store_target -> str -> result vector_store.

(** [x or None] for an optional string. *)
Definition or_none (x : option str) : option str :=
  if truthy (or_empty x) then x else None.

(** [create_qdrant_vector_store(splits, embeddings, collection_name=...,
    persist_path=..., qdrant_url=..., qdrant_api_key=...)]; the result and
    what was done, in order.  The embedding function is handed on to
    [from_documents] as it is and is left out. *)
Definition create_qdrant_vector_store (splits : list Document)
    (collection_name : str) (persist_path qdrant_url qdrant_api_key : option str)
    : result vector_store * list setup_event :=
  if truthy (or_empty qdrant_url) then
    let target := RemoteStore (or_empty qdrant_url) (or_none qdrant_api_key) in
    (from_documents splits target collection_name,
     [EvFromDocuments target collection_name splits])
  else if negb (truthy (or_empty persist_path)) then
    (inl (Exn ValueError (u"persist_path is required for local Qdrant mode")),
     [])
  else
    let path := or_empty persist_path in
    match makedirs path with
    | inl e => (inl e, [EvMakedirs path])
    | inr _ =>
        let target := LocalStore path in
        (from_documents splits target collection_name,
         [EvMakedirs path; EvFromDocuments target collection_name splits])
    end.

End Ingest.

(** A PDF of three pages: one with text, one whose extraction raises, one
    without text. *)
Definition three_pages (path : str) : result (list pdf_page) :=
  inr [ inr (Some (u"The Eiffel Tower is in Paris."));
        inl (Exn (OtherError (u"PdfReadError")) (u"broken stream"));
        inr None ].

(* ================================================================== *)
(** ** More ways to read patterns and logs *)

(** Patterns without a capture group. *)
Fixpoint no_group (r : regex) : bool :=
  match r with
  | Grp _ => false
  | Cat r1 r2 | Alt r1 r2 => no_group r1 && no_group r2
  | Opt r1 => no_group r1
  | _ => true
  end.

(** What follows the group in pattern 1. *)
Definition after_city : regex :=
  Cat (Opt (Cat (Rep true 1 cls_space)
                (alt [ word (u"today"); word (u"now"); word (u"tomorrow");
                       word (u"weather") ]
                     (word (u"forecast")))))
      (Cat (Rep true 0 cls_trailing) Eos).

Definition is_http_call (ev : event) : bool :=
  match ev with
  | EvHttpGet _ => true
  | _ => false
  end.

Definition is_search_call (ev : event) : bool :=
  match ev with
  | EvSearch _ _ => true
  | _ => false
  end.

(** A lowercase ASCII letter. *)
Definition is_az (c : N) : bool := between 97 122 c.

(* ================================================================== *)
(** ** Facts about strings *)

Section StringFacts.

Local Open Scope N_scope.

Ltac bools :=
  unfold is_upper_latin, is_lower_latin, is_cased, cls_letter_or_space,
    cls_space, cls_trailing, isspace, between in *;
  repeat (rewrite ?Bool.orb_true_iff, ?Bool.andb_true_iff,
            ?Bool.negb_true_iff, ?Bool.orb_false_iff, ?Bool.andb_false_iff,
            ?Bool.negb_false_iff, ?N.leb_le, ?N.leb_gt, ?N.eqb_eq,
            ?N.eqb_neq in *).

Lemma startswith_app (p s : str) : startswith p (p ++ s) = true.
Proof.
  induction p as [|c p IH]; simpl.
  - reflexivity.
  - rewrite N.eqb_refl. exact IH.
Qed.

Lemma contains_unfold (needle hay : str) :
  contains needle hay =
  startswith needle hay
  || match hay with [] => false | _ :: t => contains needle t end.
Proof. destruct hay; reflexivity. Qed.

(** A string that is written inside another one is found by [in]. *)
Lemma contains_infix (before x after : str) :
  contains x (before ++ x ++ after) = true.
Proof.
  induction before as [|c before IH].
  - simpl. rewrite contains_unfold, startswith_app. reflexivity.
  - simpl. rewrite IH. apply Bool.orb_true_r.
Qed.

Lemma startswith_app_l (x a b : str) :
  startswith x a = true -> startswith x (a ++ b) = true.
Proof.
  revert a. induction x as [|c x IH]; intros a H; [reflexivity|].
  destruct a as [|c' a]; [discriminate|]. simpl in *.
  apply Bool.andb_true_iff in H. destruct H as [Hc H].
  rewrite Hc. simpl. apply IH. exact H.
Qed.

Lemma contains_app_l (x a b : str) :
  contains x a = true -> contains x (a ++ b) = true.
Proof.
  induction a as [|c a IH]; intros H.
  - simpl in H. rewrite Bool.orb_false_r in H.
    destruct x; [|discriminate]. destruct b; reflexivity.
  - rewrite contains_unfold in H. apply Bool.orb_true_iff in H.
    rewrite contains_unfold. apply Bool.orb_true_iff.
    destruct H as [H|H].
    + left. apply startswith_app_l. exact H.
    + right. simpl. apply IH. exact H.
Qed.

Lemma contains_app_r (x a b : str) :
  contains x b = true -> contains x (a ++ b) = true.
Proof.
  intros H. induction a as [|c a IH]; [exact H|].
  simpl. rewrite IH. apply Bool.orb_true_r.
Qed.

Lemma contains_suffix (before x : str) : contains x (before ++ x) = true.
Proof.
  rewrite <- (app_nil_r x) at 2. apply contains_infix.
Qed.

(** [lower] maps code points one to one. *)
Lemma lower_map (s : str) : lower s = map lower1 s.
Proof.
  unfold lower. induction s as [|c s IH]; simpl.
  - reflexivity.
  - rewrite IH. unfold lower_cp, lower1.
    destruct (is_upper_latin c); reflexivity.
Qed.

Lemma lower1_not_upper (c : N) : is_upper_latin (lower1 c) = false.
Proof.
  unfold lower1. destruct (is_upper_latin c) eqn:E; [|exact E].
  bools. lia.
Qed.

Lemma lower1_isspace (c : N) : isspace (lower1 c) = isspace c.
Proof.
  unfold lower1. destruct (is_upper_latin c) eqn:E; [|reflexivity].
  assert (Hc : isspace c = false) by (bools; lia).
  rewrite Hc. bools. lia.
Qed.

Lemma lower1_idem (c : N) : lower1 (lower1 c) = lower1 c.
Proof.
  unfold lower1 at 1. rewrite lower1_not_upper. reflexivity.
Qed.

(** Lowercasing twice is lowercasing once. *)
Lemma lower_idem (s : str) : lower (lower s) = lower s.
Proof.
  rewrite !lower_map, map_map. apply map_ext. exact lower1_idem.
Qed.

Lemma lstrip_map (f : N -> N) (s : str) :
  (forall c, isspace (f c) = isspace c) ->
  lstrip (map f s) = map f (lstrip s).
Proof.
  intros Hf. induction s as [|c s IH]; simpl.
  - reflexivity.
  - rewrite Hf. destruct (isspace c); [exact IH | reflexivity].
Qed.

Lemma strip_map (f : N -> N) (s : str) :
  (forall c, isspace (f c) = isspace c) ->
  strip (map f s) = map f (strip s).
Proof.
  intros Hf. unfold strip, rstrip.
  rewrite (lstrip_map _ _ Hf), <- map_rev, (lstrip_map _ _ Hf), map_rev.
  reflexivity.
Qed.

(** Stripping and lowercasing commute. *)
Lemma lower_strip (s : str) : lower (strip s) = strip (lower s).
Proof.
  rewrite !lower_map. symmetry. apply strip_map. exact lower1_isspace.
Qed.

Lemma lower_upper_cp_ascii (c : N) :
  c < 128 -> lower (upper_cp c) = lower_cp c.
Proof.
  intros Hc. unfold upper_cp, lower, lower_cp.
  destruct (is_lower_latin c) eqn:El.
  - assert (Hu : is_upper_latin (c - 32) = true) by (bools; lia).
    assert (Hn : is_upper_latin c = false) by (bools; lia).
    simpl. unfold lower_cp. rewrite Hu, Hn. simpl. f_equal.
    clear Hu Hn. bools. lia.
  - assert (H1 : (c =? 223) = false) by (apply N.eqb_neq; lia).
    assert (H2 : (c =? 181) = false) by (apply N.eqb_neq; lia).
    assert (H3 : (c =? 255) = false) by (apply N.eqb_neq; lia).
    rewrite H1, H2, H3. simpl. rewrite app_nil_r. reflexivity.
Qed.

(** On ASCII text, uppercasing is undone by lowercasing. *)
Lemma lower_upper_ascii (s : str) :
  Forall (fun c => c < 128) s -> lower (upper s) = lower s.
Proof.
  induction 1 as [|c s Hc _ IH]; [reflexivity|].
  unfold lower, upper in *. simpl. rewrite flat_map_app, IH. f_equal.
  apply lower_upper_cp_ascii. exact Hc.
Qed.

End StringFacts.

(* ================================================================== *)
(** ** Facts about the matcher *)

Section MatcherFacts.

Lemma rep_greedy_some (A : Type) cls least s (k : str -> option A) x :
  rep_greedy cls least s k = Some x -> exists s', k s' = Some x.
Proof.
  revert least. induction s as [|c t IH]; intros least H; simpl in H.
  - destruct least; [eauto | discriminate].
  - destruct (cls c).
    + destruct (rep_greedy cls (pred least) t k) eqn:E.
      * inversion H; subst. eapply IH; eauto.
      * destruct least; [eauto | discriminate].
    + destruct least; [eauto | discriminate].
Qed.

Lemma rep_lazy_some (A : Type) cls least s (k : str -> option A) x :
  rep_lazy cls least s k = Some x -> exists s', k s' = Some x.
Proof.
  revert least. induction s as [|c t IH]; intros least H.
  - destruct least; simpl in H; [|discriminate].
    destruct (k []) eqn:E; [|discriminate]. inversion H; subst; eauto.
  - destruct least; simpl in H.
    + destruct (k (c :: t)) eqn:E.
      * inversion H; subst; eauto.
      * destruct (cls c); [eapply IH; eauto | discriminate].
    + destruct (cls c); [eapply IH; eauto | discriminate].
Qed.

Lemma eos_some (A : Type) s g (k : str -> option str -> option A) x :
  rmatch Eos s g k = Some x -> k s g = Some x.
Proof.
  simpl. intros H.
  repeat match type of H with
         | context [match ?v with _ => _ end] => destruct v
         end; solve [discriminate | exact H].
Qed.

(** A match never forgets group 1. *)
Lemma rmatch_keeps_group (A : Type) r :
  forall s g (k : str -> option str -> option A) x,
    rmatch r s g k = Some x ->
    exists s' g', k s' g' = Some x /\ (g <> None -> g' <> None).
Proof.
  induction r as [c|r1 IH1 r2 IH2|r1 IH1 r2 IH2|r1 IH1|greedy least cls|r1 IH1|];
    intros s g k x H.
  - simpl in H. destruct s as [|c0 t]; [discriminate|].
    destruct (N.eqb c0 c); [eauto | discriminate].
  - simpl in H. apply IH1 in H. destruct H as (s1 & g1 & H & Hg1).
    apply IH2 in H. destruct H as (s2 & g2 & H & Hg2). eauto 6.
  - simpl in H. destruct (rmatch r1 s g k) eqn:E.
    + inversion H; subst. eauto.
    + eauto.
  - simpl in H. destruct (rmatch r1 s g k) eqn:E.
    + inversion H; subst. eauto.
    + eauto.
  - simpl in H. destruct greedy.
    + apply rep_greedy_some in H. destruct H as (s' & H). eauto.
    + apply rep_lazy_some in H. destruct H as (s' & H). eauto.
  - simpl in H. apply IH1 in H. destruct H as (s' & g' & H & _).
    do 2 eexists. split; [exact H | discriminate].
  - apply eos_some in H. eauto.
Qed.

(** A pattern that goes through group 1 leaves it set. *)
Lemma rmatch_sets_group (A : Type) r :
  sets_group r = true ->
  forall s g (k : str -> option str -> option A) x,
    rmatch r s g k = Some x ->
    exists s' g', k s' g' = Some x /\ g' <> None.
Proof.
  induction r as [c|r1 IH1 r2 IH2|r1 IH1 r2 IH2|r1 IH1|greedy least cls|r1 IH1|];
    simpl; intros Hs s g k x H; try discriminate.
  - apply Bool.orb_true_iff in Hs. destruct Hs as [Hs|Hs].
    + apply (IH1 Hs) in H. destruct H as (s1 & g1 & H & Hg1).
      apply rmatch_keeps_group in H. destruct H as (s2 & g2 & H & Hg2).
      eauto.
    + apply rmatch_keeps_group in H. destruct H as (s1 & g1 & H & _).
      apply (IH2 Hs) in H. exact H.
  - apply Bool.andb_true_iff in Hs. destruct Hs as [Hs1 Hs2].
    destruct (rmatch r1 s g k) eqn:E.
    + inversion H; subst. eapply IH1; eauto.
    + eapply IH2; eauto.
  - apply rmatch_keeps_group in H. destruct H as (s' & g' & H & _).
    do 2 eexists. split; [exact H | discriminate].
Qed.

Lemma search_here r s m :
  search r s = Some m -> exists s', match_here r s' = Some m.
Proof.
  induction s as [|c t IH]; simpl; intros H.
  - destruct (match_here r []) eqn:E; [|discriminate].
    inversion H; subst; eauto.
  - destruct (match_here r (c :: t)) eqn:E.
    + inversion H; subst; eauto.
    + auto.
Qed.

(** [m.group(1)] is a string, never [None], for such a pattern. *)
Lemma search_sets_group1 r s m :
  sets_group r = true -> search r s = Some m ->
  exists g, group1 m = Some g.
Proof.
  intros Hs H. apply search_here in H. destruct H as (s' & H).
  unfold match_here in H.
  apply (rmatch_sets_group _ Hs) in H. destruct H as (s1 & g1 & H & Hg).
  inversion H; subst. simpl. destruct g1; [eauto | contradiction].
Qed.

End MatcherFacts.

(* ================================================================== *)
(** ** How each step runs *)

Section Runs.

Variable W : World.

Lemma call_llm_run messages log :
  call_llm W messages log = (llm_invoke W messages, log ++ [EvLlm messages]).
Proof. reflexivity. Qed.

Lemma decision_node_run st log :
  decision_node W st log =
  (match llm_invoke W (decision_messages st) with
   | inr reply =>
       inr [(FRoute,
             if contains (u"weather") (lower (strip (or_empty reply)))
             then u"weather" else u"pdf")]
   | inl e => inl e
   end,
   log ++ [EvLlm (decision_messages st)]).
Proof.
  unfold decision_node, bind. rewrite call_llm_run.
  destruct (llm_invoke W (decision_messages st)); reflexivity.
Qed.

Lemma answer_node_run st log :
  answer_node W st log =
  (match llm_invoke W (answer_messages st) with
   | inr reply => inr [(FAnswer, strip (or_empty reply))]
   | inl e => inl e
   end,
   log ++ [EvLlm (answer_messages st)]).
Proof.
  unfold answer_node, bind. rewrite call_llm_run.
  destruct (llm_invoke W (answer_messages st)); reflexivity.
Qed.

(** The loop of [retrieve_context] collects the passages in order. *)
Lemma collect_contents (docs : list Document) (acc : list str) :
  fold_left (fun contents doc => contents ++ [page_content doc]) docs acc
  = acc ++ map page_content docs.
Proof.
  revert acc. induction docs as [|doc docs IH]; intros acc; simpl.
  - rewrite app_nil_r. reflexivity.
  - rewrite IH, <- app_assoc. reflexivity.
Qed.

Lemma retrieve_context_run query k log :
  retrieve_context W query k log =
  (match similarity_search W query k with
   | inr docs => inr (join blank_line (map page_content docs))
   | inl e => inl e
   end,
   log ++ [EvSearch query k]).
Proof.
  unfold retrieve_context, bind, emit, lift, ret.
  destruct (similarity_search W query k) as [e|docs]; [reflexivity|].
  rewrite collect_contents. reflexivity.
Qed.

Lemma or_empty_string (s : str) : (if truthy s then s else []) = s.
Proof. destruct s; reflexivity. Qed.

Lemma rag_node_run st log :
  rag_node W st log =
  (match similarity_search W (question st) 5 with
   | inr docs =>
       inr [(FContext, join blank_line (map page_content docs));
            (FRoute, u"pdf")]
   | inl e => inl e
   end,
   log ++ [EvSearch (question st) 5]).
Proof.
  unfold rag_node, bind. rewrite retrieve_context_run.
  destruct (similarity_search W (question st) 5) as [e|docs]; [reflexivity|].
  unfold ret. rewrite or_empty_string. reflexivity.
Qed.

(** The weather path only talks to the provider, and the geocoder first. *)
Lemma fetch_weather_for_city_log q d h log :
  exists rest,
    snd (fetch_weather_for_city W q d h log)
    = log ++ EvHttpGet (geocode_url W (extract_city_name q d) h) :: rest
    /\ writes rest = [].
Proof.
  unfold fetch_weather_for_city, geocode_city, fetch_weather_onecall,
    bind, emit, lift.
  generalize (extract_city_name q d) as city. intros city.
  destruct (http_get_json W (geocode_url W city h)) as [e|data].
  { exists []. split; reflexivity. }
  destruct (geocode_coordinates W city h data) as [e|coords].
  { exists []. split; reflexivity. }
  exists [EvHttpGet (onecall_url W (fst coords) (snd coords))].
  destruct (http_get_json W (onecall_url W (fst coords) (snd coords)))
    as [e|weather]; simpl; rewrite <- app_assoc; split; reflexivity.
Qed.

Lemma weather_node_run st log :
  weather_node W st log =
  (inr [(FContext,
         match fst (fetch_weather_for_city W (question st) (u"Hyderabad")
                      (u"IN") log) with
         | inr summary => summary
         | inl ex => fetch_apology ex
         end);
        (FRoute, u"weather")],
   snd (fetch_weather_for_city W (question st) (u"Hyderabad") (u"IN") log)).
Proof.
  unfold weather_node, bind, try_except, ret.
  destruct (fetch_weather_for_city W (question st) (u"Hyderabad") (u"IN") log)
    as [[ex|summary] log']; reflexivity.
Qed.

Lemma summarise_onecall_run weather_json city :
  summarise_onecall W weather_json city =
  inr match summarise_body W weather_json city with
      | inr text => text
      | inl e => parse_apology e
      end.
Proof.
  unfold summarise_onecall.
  destruct (summarise_body W weather_json city); reflexivity.
Qed.

Lemma run_from_step steps n st :
  run_from W (S steps) n st =
  (st' <- run_node W n st ;;
   next <- lift (successor W n st') ;;
   match next with
   | Some n' => run_from W steps n' st'
   | None => ret st'
   end)%py.
Proof. reflexivity. Qed.

Lemma log_writes_run n upd log :
  log_writes n upd log
  = (inr tt, log ++ map (fun w => EvWrite n (fst w) (snd w)) upd).
Proof.
  revert log. induction upd as [|[f v] upd IH]; intros log; simpl.
  - rewrite app_nil_r. reflexivity.
  - unfold bind, emit. rewrite IH, <- app_assoc. reflexivity.
Qed.

Lemma run_node_run n st log :
  run_node W n st log =
  match node_function W n st log with
  | (inr upd, log') =>
      (inr (merge st upd),
       log' ++ map (fun w => EvWrite n (fst w) (snd w)) upd)
  | (inl e, log') => (inl e, log')
  end.
Proof.
  unfold run_node, bind.
  destruct (node_function W n st log) as [[e|upd] log']; [reflexivity|].
  rewrite log_writes_run. reflexivity.
Qed.

(** The four transitions of the graph. *)
Lemma run_decision steps st log :
  run_from W (S steps) Decision st log =
  match llm_invoke W (decision_messages st) with
  | inl e => (inl e, log ++ [EvLlm (decision_messages st)])
  | inr reply =>
      if contains (u"weather") (lower (strip (or_empty reply)))
      then run_from W steps Weather (merge st [(FRoute, u"weather")])
             (log ++ [EvLlm (decision_messages st);
                      EvWrite Decision FRoute (u"weather")])
      else run_from W steps Rag (merge st [(FRoute, u"pdf")])
             (log ++ [EvLlm (decision_messages st);
                      EvWrite Decision FRoute (u"pdf")])
  end.
Proof.
  rewrite run_from_step. unfold bind at 1.
  rewrite run_node_run. cbn [node_function]. rewrite decision_node_run.
  destruct (llm_invoke W (decision_messages st)) as [e|reply]; [reflexivity|].
  destruct (contains (u"weather") (lower (strip (or_empty reply))));
    rewrite <- app_assoc; reflexivity.
Qed.

Lemma run_weather steps st log :
  run_from W (S steps) Weather st log =
  let path :=
    fetch_weather_for_city W (question st) (u"Hyderabad") (u"IN") log in
  let ctx :=
    match fst path with
    | inr summary => summary
    | inl ex => fetch_apology ex
    end in
  run_from W steps Answer (merge st [(FContext, ctx); (FRoute, u"weather")])
    (snd path ++ [EvWrite Weather FContext ctx;
                  EvWrite Weather FRoute (u"weather")]).
Proof.
  rewrite run_from_step. unfold bind at 1.
  rewrite run_node_run. cbn [node_function]. rewrite weather_node_run.
  reflexivity.
Qed.

Lemma run_rag steps st log :
  run_from W (S steps) Rag st log =
  match similarity_search W (question st) 5 with
  | inl e => (inl e, log ++ [EvSearch (question st) 5])
  | inr docs =>
      let ctx := join blank_line (map page_content docs) in
      run_from W steps Answer (merge st [(FContext, ctx); (FRoute, u"pdf")])
        (log ++ [EvSearch (question st) 5;
                 EvWrite Rag FContext ctx; EvWrite Rag FRoute (u"pdf")])
  end.
Proof.
  rewrite run_from_step. unfold bind at 1.
  rewrite run_node_run. cbn [node_function]. rewrite rag_node_run.
  destruct (similarity_search W (question st) 5) as [e|docs]; [reflexivity|].
  cbv zeta. rewrite <- app_assoc. reflexivity.
Qed.

Lemma run_answer steps st log :
  run_from W (S steps) Answer st log =
  match llm_invoke W (answer_messages st) with
  | inl e => (inl e, log ++ [EvLlm (answer_messages st)])
  | inr reply =>
      (inr (merge st [(FAnswer, strip (or_empty reply))]),
       log ++ [EvLlm (answer_messages st);
               EvWrite Answer FAnswer (strip (or_empty reply))])
  end.
Proof.
  rewrite run_from_step. unfold bind at 1.
  rewrite run_node_run. cbn [node_function]. rewrite answer_node_run.
  destruct (llm_invoke W (answer_messages st)) as [e|reply]; [reflexivity|].
  rewrite <- app_assoc. reflexivity.
Qed.

(** Three steps are all a run takes: more of them change nothing, and the
    recursion limit is never reached. *)
Lemma run_from_enough extra st log :
  run_from W (3 + extra) Decision st log = run_from W 3 Decision st log.
Proof.
  change (3 + extra)%nat with (S (S (S extra))).
  rewrite !run_decision.
  destruct (llm_invoke W (decision_messages st)) as [e|reply]; [reflexivity|].
  destruct (contains (u"weather") (lower (strip (or_empty reply)))).
  - rewrite !run_weather. cbv zeta. rewrite !run_answer. reflexivity.
  - rewrite !run_rag.
    destruct (similarity_search W (question (merge st [(FRoute, u"pdf")])) 5)
      as [e|docs]; [reflexivity|].
    cbv zeta. rewrite !run_answer. reflexivity.
Qed.

Lemma invoke_three_steps q log :
  invoke W q log = run_from W 3 Decision (initial_state q) log.
Proof. apply (run_from_enough 22). Qed.

End Runs.

Lemma writes_app (a b : list event) : writes (a ++ b) = writes a ++ writes b.
Proof. apply filter_app. Qed.

Lemma writes_to_writes (f : field) (log : list event) :
  writes_to f (writes log) = writes_to f log.
Proof.
  induction log as [|ev log IH]; [reflexivity|].
  destruct ev; simpl; try exact IH.
  rewrite IH. reflexivity.
Qed.

(* ================================================================== *)
(** ** The repository's tests, replayed *)

(** [tests/test_api.py], summary of a report. *)
Example summarise_stub_report :
  summarise_onecall test_world stub_report (u"Hyderabad")
  = inr (u"Current weather in Hyderabad: 25.0" ++ degrees_c
           ++ u" (feels like 26.0" ++ degrees_c
           ++ u"), humidity 70%, Clear sky, wind 4 m/s.").
Proof. vm_compute. reflexivity. Qed.

Example fetch_weather_hyderabad :
  fst (fetch_weather_for_city test_world (u"what is the weather in hyderabad?")
         (u"Hyderabad") (u"IN") [])
  = inr (u"Current weather in Hyderabad: 25.0" ++ degrees_c
           ++ u" (feels like 26.0" ++ degrees_c
           ++ u"), humidity 70%, Clear sky, wind 4 m/s.").
Proof. vm_compute. reflexivity. Qed.

(** [tests/test_graph.py]: a weather question and a question for the PDF. *)
Example pipeline_weather_question :
  exists st log,
    invoke test_world (u"What is the weather in Paris?") [] = (inr st, log)
    /\ route st = Some (u"weather")
    /\ answer st = Some (u"weather").
Proof. do 2 eexists. vm_compute. repeat split. Qed.

Example pipeline_pdf_question :
  exists st log,
    invoke test_world (u"What is the capital of France?") [] = (inr st, log)
    /\ route st = Some (u"pdf")
    /\ context st = Some (u"Paris is the capital of France.")
    /\ answer st = Some (u"Paris is the capital of France.")
    /\ contains (u"Paris") (or_empty (answer st)) = true.
Proof. do 2 eexists. vm_compute. repeat split. Qed.

(** With the geocoder out of reach the run still ends with an answer. *)
Example pipeline_offline :
  exists st log,
    invoke offline_world (u"What is the weather in Paris?") [] = (inr st, log)
    /\ context st
       = Some (fetch_apology
                 (Exn (OtherError (u"ConnectionError"))
                    (u"Max retries exceeded")))
    /\ answer st = Some (u"weather").
Proof. do 2 eexists. vm_compute. repeat split. Qed.

(* ================================================================== *)
(** ** The decision step *)

(** C1.  Whatever reply the language model gives to the decision step, the
    route is "weather" when the stripped, lowercased reply contains
    "weather" and "pdf" otherwise, in particular for an empty or missing
    reply; it is always one of these two labels, so the conditional edge
    always finds its target.  Stripping and lowercasing may be done in
    either order. *)
Theorem decision_node_route (W : World) (st : GraphState) (log : list event)
    (reply : option str) :
  llm_invoke W (decision_messages st) = inr reply ->
  exists r,
    decision_node W st log
    = (inr [(FRoute, r)], log ++ [EvLlm (decision_messages st)])
    /\ (contains (u"weather") (lower (strip (or_empty reply))) = true ->
        r = u"weather")
    /\ (contains (u"weather") (lower (strip (or_empty reply))) = false ->
        r = u"pdf")
    /\ (r = u"weather" \/ r = u"pdf")
    /\ (reply = None \/ reply = Some [] -> r = u"pdf")
    /\ (exists n, edge_target W r = inr n)
    /\ lower (strip (or_empty reply)) = strip (lower (or_empty reply)).
Proof.
  intros Hreply. rewrite decision_node_run, Hreply.
  eexists. split; [reflexivity|].
  split; [intros ->; reflexivity|].
  split; [intros ->; reflexivity|].
  split; [destruct (contains _ _); [left|right]; reflexivity|].
  split; [intros [->| ->]; reflexivity|].
  split; [destruct (contains _ _); eexists; reflexivity|].
  apply lower_strip.
Qed.

Lemma decision_node_route_witness :
  llm_invoke test_world
    (decision_messages (initial_state (u"What is the weather in Paris?")))
  = inr (Some (u"weather"))
  /\ exists r,
       decision_node test_world
         (initial_state (u"What is the weather in Paris?")) []
       = (inr [(FRoute, r)],
          [] ++ [EvLlm (decision_messages
                          (initial_state (u"What is the weather in Paris?")))])
       /\ r = u"weather".
Proof.
  split; [vm_compute; reflexivity|].
  destruct (decision_node_route test_world
              (initial_state (u"What is the weather in Paris?")) []
              (reply := Some (u"weather")))
    as (r & Hrun & Hweather & _).
  - vm_compute; reflexivity.
  - exists r. split; [exact Hrun|]. apply Hweather. vm_compute; reflexivity.
Defined.

(* ================================================================== *)
(** ** City extraction *)

(** C10, as the code has it.  The result depends on the question only
    through its lowercase form: lowercasing the question never changes the
    result, and uppercasing it does not either whenever the uppercased
    question lowercases back to the same text, which is so for every ASCII
    question. *)
Theorem extract_city_name_case (q d : str) :
  extract_city_name (lower q) d = extract_city_name q d
  /\ (lower (upper q) = lower q ->
      extract_city_name (upper q) d = extract_city_name q d)
  /\ (Forall (fun c => (c < 128)%N) q ->
      extract_city_name (upper q) d = extract_city_name q d).
Proof.
  split; [unfold extract_city_name; rewrite lower_idem; reflexivity|].
  split.
  - intros H. unfold extract_city_name. rewrite H. reflexivity.
  - intros H. unfold extract_city_name.
    rewrite (lower_upper_ascii H). reflexivity.
Qed.

Lemma extract_city_name_case_witness :
  Forall (fun c => (c < 128)%N) (u"What is the weather in Paris today?")
  /\ extract_city_name (upper (u"What is the weather in Paris today?"))
       (u"Hyderabad")
     = extract_city_name (u"What is the weather in Paris today?") (u"Hyderabad").
Proof.
  assert (H : Forall (fun c => (c < 128)%N)
                (u"What is the weather in Paris today?"))
    by (repeat constructor).
  split; [exact H|].
  apply (proj2 (proj2 (extract_city_name_case
                         (u"What is the weather in Paris today?")
                         (u"Hyderabad")))).
  exact H.
Defined.

(** C10, as stated, fails: uppercasing "weather in stra(sharp s)e" turns the
    sharp s into "SS", and the uppercased question names a city where the
    original names none. *)
Lemma extract_city_name_upper_differs :
  extract_city_name strasse_question (u"Hyderabad") = u"Hyderabad"
  /\ extract_city_name (upper strasse_question) (u"Hyderabad") = u"Strasse"
  /\ extract_city_name (upper strasse_question) (u"Hyderabad")
     <> extract_city_name strasse_question (u"Hyderabad").
Proof.
  split; [vm_compute; reflexivity|].
  split; [vm_compute; reflexivity|].
  vm_compute. discriminate.
Qed.

(* ================================================================== *)
(** ** The weather path *)

Lemma fetch_apology_embeds (ex : exn) :
  contains (exn_str ex) (fetch_apology ex) = true.
Proof.
  unfold fetch_apology. rewrite !app_assoc. apply contains_suffix.
Qed.

Lemma parse_apology_embeds (e : exn) :
  contains (exn_str e) (parse_apology e) = true.
Proof.
  unfold parse_apology. rewrite !app_assoc. apply contains_suffix.
Qed.

(** C3.  The weather node returns normally whatever happens in the weather
    path.  If the path raises, in the city extraction, the geocoding, the
    conditions request or the summary, the context is the sentence
    "Sorry, I couldn't fetch the weather right now: " (its apostrophe is
    the typographic one, U+2019) followed by the exception's message;
    otherwise it is the summary.  Either way the pipeline goes on to the
    answer step with that context, and the run from the weather node ends
    with an answer as soon as the language model replies. *)
Theorem weather_node_never_raises (W : World) (st : GraphState)
    (log : list event) :
  exists ctx log',
    weather_node W st log
    = (inr [(FContext, ctx); (FRoute, u"weather")], log')
    /\ (forall ex log1,
          fetch_weather_for_city W (question st) (u"Hyderabad") (u"IN") log
          = (inl ex, log1) ->
          ctx = u"Sorry, I couldn" ++ [8217%N]
                  ++ u"t fetch the weather right now: " ++ exn_str ex
          /\ startswith (u"Sorry, I ") ctx = true
          /\ contains (exn_str ex) ctx = true
          /\ log' = log1)
    /\ (forall summary log1,
          fetch_weather_for_city W (question st) (u"Hyderabad") (u"IN") log
          = (inr summary, log1) ->
          ctx = summary /\ log' = log1)
    /\ (forall steps,
          run_from W (S steps) Weather st log
          = run_from W steps Answer
              (merge st [(FContext, ctx); (FRoute, u"weather")])
              (log' ++ [EvWrite Weather FContext ctx;
                        EvWrite Weather FRoute (u"weather")]))
    /\ (forall steps reply,
          llm_invoke W
            (answer_messages
               (merge st [(FContext, ctx); (FRoute, u"weather")]))
          = inr reply ->
          exists final log'',
            run_from W (S (S steps)) Weather st log = (inr final, log'')
            /\ context final = Some ctx
            /\ answer final = Some (strip (or_empty reply))).
Proof.
  do 2 eexists. split; [apply weather_node_run|].
  split.
  { intros ex log1 H. rewrite H. cbn [fst snd].
    split; [reflexivity|]. split; [reflexivity|].
    split; [apply fetch_apology_embeds | reflexivity]. }
  split.
  { intros summary log1 H. rewrite H. cbn [fst snd]. split; reflexivity. }
  split.
  { intros steps. rewrite run_from_step. unfold bind at 1.
    rewrite run_node_run. cbn [node_function]. rewrite weather_node_run.
    reflexivity. }
  intros steps reply H. rewrite run_weather. cbv zeta.
  rewrite run_answer, H. do 2 eexists.
  split; [reflexivity|]. split; reflexivity.
Qed.

Lemma weather_node_never_raises_witness :
  fetch_weather_for_city offline_world (u"What is the weather in Paris?")
    (u"Hyderabad") (u"IN") []
  = (inl (Exn (OtherError (u"ConnectionError")) (u"Max retries exceeded")),
     [EvHttpGet (geocode_url offline_world (u"Paris") (u"IN"))])
  /\ weather_node offline_world
       (initial_state (u"What is the weather in Paris?")) []
     = (inr [(FContext,
              u"Sorry, I couldn" ++ [8217%N]
                ++ u"t fetch the weather right now: Max retries exceeded");
             (FRoute, u"weather")],
        [EvHttpGet (geocode_url offline_world (u"Paris") (u"IN"))]).
Proof.
  assert (H : fetch_weather_for_city offline_world
                (question (initial_state (u"What is the weather in Paris?")))
                (u"Hyderabad") (u"IN") []
              = (inl (Exn (OtherError (u"ConnectionError"))
                        (u"Max retries exceeded")),
                 [EvHttpGet (geocode_url offline_world (u"Paris") (u"IN"))]))
    by (vm_compute; reflexivity).
  split; [exact H|].
  destruct (weather_node_never_raises offline_world
              (initial_state (u"What is the weather in Paris?")) [])
    as (ctx & log' & Hrun & Hraise & _).
  destruct (Hraise _ _ H) as (Hctx & _ & _ & Hlog).
  rewrite Hrun, Hctx, Hlog. reflexivity.
Defined.

(** C6.  [summarise_onecall] returns a string for every input.  When
    reading or formatting the report fails, the failure is caught and the
    result is the sentence "Sorry, I couldn't parse the weather data
    correctly: " (its apostrophe is the typographic one, U+2019) followed by
    the error's message: the missing key for a report without "current",
    "'int' object is not subscriptable" and the like for a report or a
    "current" entry of the wrong type.  When nothing fails the result is
    the summary. *)
Theorem summarise_onecall_never_raises (W : World) (weather_json : pyval)
    (city_name : str) :
  exists text,
    summarise_onecall W weather_json city_name = inr text
    /\ (forall e, summarise_body W weather_json city_name = inl e ->
          text = u"Sorry, I couldn" ++ [8217%N]
                   ++ u"t parse the weather data correctly: " ++ exn_str e
          /\ startswith (u"Sorry, I ") text = true
          /\ contains (exn_str e) text = true)
    /\ (forall ok, summarise_body W weather_json city_name = inr ok ->
          text = ok)
    /\ (forall entries,
          weather_json = PDict entries ->
          lookup (u"current") entries = None ->
          text = u"Sorry, I couldn" ++ [8217%N]
                   ++ u"t parse the weather data correctly: "
                   ++ py_repr W (PStr (u"current")))
    /\ (weather_json = PNone \/ (exists b, weather_json = PBool b)
        \/ (exists z, weather_json = PInt z)
        \/ (exists f, weather_json = PFloat f) ->
        text = u"Sorry, I couldn" ++ [8217%N]
                 ++ u"t parse the weather data correctly: '"
                 ++ type_name weather_json
                 ++ u"' object is not subscriptable")
    /\ (forall entries current,
          weather_json = PDict entries ->
          lookup (u"current") entries = Some current ->
          (current = PNone \/ (exists b, current = PBool b)
           \/ (exists z, current = PInt z)
           \/ (exists f, current = PFloat f)) ->
          text = u"Sorry, I couldn" ++ [8217%N]
                   ++ u"t parse the weather data correctly: '"
                   ++ type_name current
                   ++ u"' object is not subscriptable").
Proof.
  eexists. split; [apply summarise_onecall_run|].
  split.
  { intros e H. rewrite H. split; [reflexivity|]. split; [reflexivity|].
    apply parse_apology_embeds. }
  split.
  { intros ok H. rewrite H. reflexivity. }
  split.
  { intros entries -> H. unfold summarise_body.
    cbv beta iota delta [subscript_key rbind]. rewrite H. reflexivity. }
  split.
  { intros [-> | [(b & ->) | [(z & ->) | (f & ->)]]]; reflexivity. }
  intros entries current -> H Hcur. unfold summarise_body.
  cbv beta iota delta [subscript_key rbind]. rewrite H.
  destruct Hcur as [-> | [(b & ->) | [(z & ->) | (f & ->)]]]; reflexivity.
Qed.

Lemma summarise_onecall_never_raises_witness :
  summarise_body test_world
    (PDict [(u"cod", PInt 401); (u"message", PStr (u"Invalid API key"))])
    (u"Hyderabad")
  = inl (Exn KeyError (u"'current'"))
  /\ summarise_onecall test_world
       (PDict [(u"cod", PInt 401); (u"message", PStr (u"Invalid API key"))])
       (u"Hyderabad")
     = inr (u"Sorry, I couldn" ++ [8217%N]
              ++ u"t parse the weather data correctly: 'current'").
Proof.
  assert (H : summarise_body test_world
                (PDict [(u"cod", PInt 401);
                        (u"message", PStr (u"Invalid API key"))])
                (u"Hyderabad")
              = inl (Exn KeyError (u"'current'")))
    by (vm_compute; reflexivity).
  split; [exact H|].
  destruct (summarise_onecall_never_raises test_world
              (PDict [(u"cod", PInt 401);
                      (u"message", PStr (u"Invalid API key"))])
              (u"Hyderabad"))
    as (text & Hrun & Hraise & _).
  destruct (Hraise _ H) as (Htext & _).
  rewrite Hrun, Htext. reflexivity.
Defined.

(* ================================================================== *)
(** ** The retrieval path *)



(* ================================================================== *)
(** ** The answer step *)

Lemma context_prompt_quotes (context : str) :
  contains context (context_prompt context) = true.
Proof.
  unfold context_prompt. do 7 apply contains_app_r.
  apply (contains_infix [] context blank_line).
Qed.

Lemma context_prompt_forbids (context : str) :
  contains (u"DO NOT reply with 'I don't know'") (context_prompt context) = true.
Proof.
  unfold context_prompt. do 2 apply contains_app_r. apply contains_app_l.
  vm_compute. reflexivity.
Qed.

(** C8.  The answer step sends one request to the language model: a system
    instruction followed by the raw question.  With a context that is not
    blank the instruction quotes the context and forbids "I don't know";
    otherwise it asks for an answer to the best of the model's ability.  The
    answer is the reply, stripped. *)
Theorem answer_node_spec (W : World) (st : GraphState) (log : list event) :
  answer_messages st
  = [SystemMessage (system_prompt (or_empty (context st)));
     HumanMessage (question st)]
  /\ (strip (or_empty (context st)) <> [] ->
      system_prompt (or_empty (context st))
      = context_prompt (or_empty (context st))
      /\ contains (or_empty (context st))
           (system_prompt (or_empty (context st))) = true
      /\ contains (u"DO NOT reply with 'I don't know'")
           (system_prompt (or_empty (context st))) = true)
  /\ (strip (or_empty (context st)) = [] ->
      system_prompt (or_empty (context st)) = plain_prompt
      /\ contains (u"Answer the question to the best of your ability")
           (system_prompt (or_empty (context st))) = true)
  /\ snd (answer_node W st log) = log ++ [EvLlm (answer_messages st)]
  /\ List.length (filter is_llm_call (snd (answer_node W st log)))
     = S (List.length (filter is_llm_call log))
  /\ (forall reply, llm_invoke W (answer_messages st) = inr reply ->
        fst (answer_node W st log) = inr [(FAnswer, strip (or_empty reply))])
  /\ (forall e, llm_invoke W (answer_messages st) = inl e ->
        fst (answer_node W st log) = inl e).
Proof.
  split; [reflexivity|].
  split.
  { intros Hctx.
    assert (Hp : system_prompt (or_empty (context st))
                 = context_prompt (or_empty (context st))).
    { unfold system_prompt.
      destruct (strip (or_empty (context st))); [contradiction | reflexivity]. }
    rewrite Hp. split; [reflexivity|]. split.
    - apply context_prompt_quotes.
    - apply context_prompt_forbids. }
  split.
  { intros Hctx. unfold system_prompt. rewrite Hctx. simpl.
    split; [reflexivity | vm_compute; reflexivity]. }
  rewrite answer_node_run.
  split; [reflexivity|].
  split.
  { cbn [snd]. rewrite filter_app, length_app. simpl. lia. }
  split; intros r Hr; rewrite Hr; reflexivity.
Qed.

Lemma answer_node_spec_witness :
  (strip (or_empty (context
      {| question := u"What is the capital of France?";
         route := Some (u"pdf");
         context := Some (u"Paris is the capital of France.");
         answer := None |})) <> []
   /\ llm_invoke test_world
        (answer_messages
           {| question := u"What is the capital of France?";
              route := Some (u"pdf");
              context := Some (u"Paris is the capital of France.");
              answer := None |})
      = inr (Some (u"Paris is the capital of France."))
   /\ fst (answer_node test_world
             {| question := u"What is the capital of France?";
                route := Some (u"pdf");
                context := Some (u"Paris is the capital of France.");
                answer := None |} [])
      = inr [(FAnswer, strip (or_empty (Some (u"Paris is the capital of France."))))])
  /\ (strip (or_empty (context (initial_state (u"Hello")))) = []
      /\ system_prompt (or_empty (context (initial_state (u"Hello"))))
         = plain_prompt).
Proof.
  split.
  - split; [vm_compute; discriminate|].
    assert (H : llm_invoke test_world
                  (answer_messages
                     {| question := u"What is the capital of France?";
                        route := Some (u"pdf");
                        context := Some (u"Paris is the capital of France.");
                        answer := None |})
                = inr (Some (u"Paris is the capital of France.")))
      by (vm_compute; reflexivity).
    split; [exact H|].
    apply (answer_node_spec test_world
             {| question := u"What is the capital of France?";
                route := Some (u"pdf");
                context := Some (u"Paris is the capital of France.");
                answer := None |} []).
    exact H.
  - split; [reflexivity|].
    apply (answer_node_spec test_world (initial_state (u"Hello")) []).
    reflexivity.
Defined.

(* ================================================================== *)
(** ** The default city *)

Lemma startswith_skip (a b c : str) :
  startswith (a ++ b) (a ++ c) = startswith b c.
Proof.
  induction a as [|x a IH]; [reflexivity|].
  simpl. rewrite N.eqb_refl. exact IH.
Qed.

Lemma result_ok_inj (A : Type) (a b : A) : @inr exn A a = inr b -> a = b.
Proof. intros H. injection H as H. exact H. Qed.

(** A summary that could be written opens with the city's name. *)
Lemma summarise_body_names_city (W : World) weather_json city text :
  summarise_body W weather_json city = inr text ->
  startswith (u"Current weather in " ++ city ++ u": ") text = true.
Proof.
  unfold summarise_body, rbind. intros H.
  repeat match type of H with
         | context [match ?x with inl _ => _ | inr _ => _ end] =>
             destruct x; [discriminate|]
         end.
  apply result_ok_inj in H. rewrite <- H.
  rewrite startswith_skip, startswith_skip. apply startswith_app.
Qed.

(** C9.  The weather node runs the weather path with default city
    "Hyderabad" and country hint "IN": its first call asks the geocoder for
    the extracted city with hint "IN".  For a question that matches neither
    pattern the city is "Hyderabad": the geocoder is asked for
    "Hyderabad,IN", and when the provider answers, the context is the
    summary written for "Hyderabad". *)
Theorem weather_node_default_city (W : World) (st : GraphState)
    (log : list event) :
  (exists rest,
     snd (weather_node W st log)
     = log ++ EvHttpGet (geocode_url W
                           (extract_city_name (question st) (u"Hyderabad"))
                           (u"IN")) :: rest)
  /\ (search city_pattern_in (lower (question st)) = None ->
      search city_pattern_before_weather (lower (question st)) = None ->
      extract_city_name (question st) (u"Hyderabad") = u"Hyderabad"
      /\ (exists rest,
            snd (weather_node W st log)
            = log ++ EvHttpGet (geocode_url W (u"Hyderabad") (u"IN")) :: rest)
      /\ contains (u"q=Hyderabad,IN&") (geocode_url W (u"Hyderabad") (u"IN"))
         = true
      /\ (forall data coords weather,
            http_get_json W (geocode_url W (u"Hyderabad") (u"IN")) = inr data ->
            geocode_coordinates W (u"Hyderabad") (u"IN") data = inr coords ->
            http_get_json W (onecall_url W (fst coords) (snd coords))
            = inr weather ->
            weather_node W st log
            = (inr [(FContext,
                     match summarise_body W weather (u"Hyderabad") with
                     | inr text => text
                     | inl e => parse_apology e
                     end);
                    (FRoute, u"weather")],
               log ++ [EvHttpGet (geocode_url W (u"Hyderabad") (u"IN"));
                       EvHttpGet (onecall_url W (fst coords) (snd coords))])
            /\ (forall text,
                  summarise_body W weather (u"Hyderabad") = inr text ->
                  startswith (u"Current weather in Hyderabad: ") text = true))).
Proof.
  assert (Hfirst : exists rest,
            snd (weather_node W st log)
            = log ++ EvHttpGet (geocode_url W
                                  (extract_city_name (question st) (u"Hyderabad"))
                                  (u"IN")) :: rest).
  { rewrite weather_node_run. cbn [snd].
    destruct (fetch_weather_for_city_log W (question st) (u"Hyderabad")
                (u"IN") log) as (rest & Hlog & _).
    eauto. }
  split; [exact Hfirst|].
  intros H1 H2.
  assert (Hcity : extract_city_name (question st) (u"Hyderabad") = u"Hyderabad")
    by (unfold extract_city_name; rewrite H1, H2; reflexivity).
  split; [exact Hcity|].
  split; [rewrite Hcity in Hfirst; exact Hfirst|].
  split.
  { unfold geocode_url. rewrite !app_assoc. apply contains_app_l.
    vm_compute. reflexivity. }
  intros data coords weather Hgeo Hcoords Hone.
  split.
  - rewrite weather_node_run.
    unfold fetch_weather_for_city, geocode_city, fetch_weather_onecall,
      bind, emit, lift.
    rewrite Hcity, Hgeo, Hcoords, Hone, summarise_onecall_run.
    cbn [fst snd]. rewrite <- app_assoc. reflexivity.
  - intros text Htext. apply summarise_body_names_city in Htext. exact Htext.
Qed.

Lemma weather_node_default_city_witness :
  search city_pattern_in (lower (u"What's up?")) = None
  /\ search city_pattern_before_weather (lower (u"What's up?")) = None
  /\ extract_city_name (u"What's up?") (u"Hyderabad") = u"Hyderabad"
  /\ exists rest,
       snd (weather_node test_world (initial_state (u"What's up?")) [])
       = [] ++ EvHttpGet (geocode_url test_world (u"Hyderabad") (u"IN")) :: rest.
Proof.
  assert (H1 : search city_pattern_in
                 (lower (question (initial_state (u"What's up?")))) = None)
    by (vm_compute; reflexivity).
  assert (H2 : search city_pattern_before_weather
                 (lower (question (initial_state (u"What's up?")))) = None)
    by (vm_compute; reflexivity).
  split; [exact H1|]. split; [exact H2|].
  destruct (proj2 (weather_node_default_city test_world
                     (initial_state (u"What's up?")) []) H1 H2)
    as (Hcity & Hfirst & _).
  split; [exact Hcity | exact Hfirst].
Defined.

(* ================================================================== *)
(** ** Geocoding responses *)

(** What holds of the shape checks: a response that is empty, or that has a
    length and neither accepted shape, raises [ValueError]; a pair and a
    list that starts with an object give coordinates. *)
Lemma geocode_coordinates_shapes (W : World) (city hint : str) (data : pyval) :
  (truth data = false ->
     geocode_coordinates W city hint data
     = inl (Exn ValueError (u"Could not geocode city: " ++ city ++ u"," ++ hint)))
  /\ (forall lat lon, data = PTuple [lat; lon] ->
        geocode_coordinates W city hint data = inr (lat, lon))
  /\ (forall d rest, data = PList (PDict d :: rest) ->
        geocode_coordinates W city hint data
        = inr (dict_get d (u"lat"), dict_get d (u"lon")))
  /\ (truth data = true ->
      (exists n, len data = inr n) ->
      (forall lat lon, data <> PTuple [lat; lon]) ->
      (forall d rest, data <> PList (PDict d :: rest)) ->
      geocode_coordinates W city hint data
      = inl (Exn ValueError
               (u"Unexpected geocode response format: " ++ py_str W data))).
Proof.
  split.
  { intros Hfalse. unfold geocode_coordinates. rewrite Hfalse. reflexivity. }
  split; [intros lat lon ->; reflexivity|].
  split; [intros d rest ->; reflexivity|].
  intros Htrue (n & Hlen) Hpair Hlist.
  unfold geocode_coordinates. rewrite Htrue, Hlen. simpl.
  assert (Hn : Nat.eqb n 0 = false).
  { destruct data as [| | | |s|l|l|d]; simpl in Hlen; try discriminate;
      inversion Hlen; subst; clear Hlen;
      first [ destruct s | destruct l | destruct d ];
      solve [discriminate | reflexivity]. }
  rewrite Hn.
  destruct data as [| | | |s|l|l|d]; try reflexivity.
  - destruct l as [|[| | | | | | |d] rest]; try reflexivity.
    exfalso. eapply Hlist. reflexivity.
  - destruct l as [|lat [|lon [|x rest]]]; try reflexivity.
    exfalso. eapply Hpair. reflexivity.
Qed.

(** C5 at a bare number.  A geocoding response that is a JSON number is
    neither empty nor of an accepted shape; the length test that comes
    before the shape tests raises [TypeError] on it, so the [ValueError] for
    an unexpected format is never reached. *)
Theorem geocode_number_raises_type_error (W : World) (city hint : str) :
  truth (PInt 5) = true
  /\ geocode_coordinates W city hint (PInt 5)
     = inl (Exn TypeError (u"object of type 'int' has no len()"))
  /\ fetch_weather_for_city number_world (u"What is the weather in Paris?")
       (u"Hyderabad") (u"IN") []
     = (inl (Exn TypeError (u"object of type 'int' has no len()")),
        [EvHttpGet (geocode_url number_world (u"Paris") (u"IN"))]).
Proof.
  split; [reflexivity|].
  split; [reflexivity|].
  vm_compute. reflexivity.
Qed.

(* ================================================================== *)
(** ** Writes to the state *)

(** C2, as stated, fails: on the retrieval route the field Route is written
    by the decision step and again by the retrieval node. *)
Lemma route_written_twice :
  (exists st,
     fst (invoke test_world (u"What is the capital of France?") []) = inr st)
  /\ writes_to FRoute
       (snd (invoke test_world (u"What is the capital of France?") []))
     = [(Decision, u"pdf"); (Rag, u"pdf")]
  /\ List.length
       (writes_to FRoute
          (snd (invoke test_world (u"What is the capital of France?") [])))
     <> 1%nat.
Proof.
  split; [eexists; vm_compute; reflexivity|].
  split; [vm_compute; reflexivity|].
  vm_compute. discriminate.
Qed.

(** C2, as the code has it.  In every run that completes, the state is
    written four times, in this order: Route by the decision step, Context
    and then Route again, with the same label, by the branch node that runs,
    and Answer by the answer step.  So Route is written twice and never
    changes value, Context and Answer are written once, and Question is
    never written. *)
Theorem pipeline_writes (W : World) (q : str) (log : list event)
    (st' : GraphState) (log' : list event) :
  invoke W q log = (inr st', log') ->
  exists r branch c a evs,
    log' = log ++ evs
    /\ writes evs = [EvWrite Decision FRoute r; EvWrite branch FContext c;
                     EvWrite branch FRoute r; EvWrite Answer FAnswer a]
    /\ (branch = Weather /\ r = u"weather" \/ branch = Rag /\ r = u"pdf")
    /\ st' = {| question := q; route := Some r; context := Some c;
                answer := Some a |}
    /\ writes_to FRoute evs = [(Decision, r); (branch, r)]
    /\ writes_to FContext evs = [(branch, c)]
    /\ writes_to FAnswer evs = [(Answer, a)]
    /\ writes_to FQuestion evs = [].
Proof.
  intros H.
  assert (Hmain : exists r branch c a evs,
    log' = log ++ evs
    /\ writes evs = [EvWrite Decision FRoute r; EvWrite branch FContext c;
                     EvWrite branch FRoute r; EvWrite Answer FAnswer a]
    /\ (branch = Weather /\ r = u"weather" \/ branch = Rag /\ r = u"pdf")
    /\ st' = {| question := q; route := Some r; context := Some c;
                answer := Some a |}).
  { unfold invoke, recursion_limit in H.
    rewrite run_decision in H.
    destruct (llm_invoke W (decision_messages (initial_state q)))
      as [e|reply]; [discriminate|].
    destruct (contains (u"weather") (lower (strip (or_empty reply)))).
    - rewrite run_weather in H. cbv zeta in H.
      destruct (fetch_weather_for_city_log W
                  (question (merge (initial_state q) [(FRoute, u"weather")]))
                  (u"Hyderabad") (u"IN")
                  (log ++ [EvLlm (decision_messages (initial_state q));
                           EvWrite Decision FRoute (u"weather")]))
        as (rest & Hlog & Hrest).
      rewrite Hlog in H. rewrite run_answer in H.
      match type of H with
      | context [llm_invoke W ?m] => destruct (llm_invoke W m) as [e|answer]
      end; [discriminate|].
      inversion H; subst; clear H.
      do 5 eexists. split; [rewrite <- !app_assoc; reflexivity|].
      split.
      { rewrite !writes_app. cbn [app]. unfold writes at 1. cbn [filter is_write].
        unfold writes at 1. cbn [filter is_write]. fold (writes rest).
        rewrite Hrest. reflexivity. }
      split; [left; split; reflexivity | reflexivity].
    - rewrite run_rag in H.
      match type of H with
      | context [similarity_search W ?x ?k] =>
          destruct (similarity_search W x k) as [e|docs]
      end; [discriminate|].
      cbv zeta in H. rewrite run_answer in H.
      match type of H with
      | context [llm_invoke W ?m] => destruct (llm_invoke W m) as [e|answer]
      end; [discriminate|].
      inversion H; subst; clear H.
      do 5 eexists. split; [rewrite <- !app_assoc; reflexivity|].
      split; [reflexivity|].
      split; [right; split; reflexivity | reflexivity]. }
  destruct Hmain as (r & branch & c & a & evs & Hlog & Hw & Hb & Hst).
  exists r, branch, c, a, evs.
  repeat (split; [assumption|]).
  rewrite <- !(writes_to_writes _ evs), Hw.
  repeat split; reflexivity.
Qed.

Lemma pipeline_writes_witness :
  exists st log,
    invoke test_world (u"What is the capital of France?") [] = (inr st, log)
    /\ exists r branch,
         writes_to FRoute log = [(Decision, r); (branch, r)].
Proof.
  destruct (invoke test_world (u"What is the capital of France?") [])
    as [[e|st] log] eqn:H.
  - exfalso. vm_compute in H. discriminate.
  - exists st, log. split; [reflexivity|].
    destruct (pipeline_writes test_world (u"What is the capital of France?")
                [] H)
      as (r & branch & c & a & evs & Hlog & _ & _ & _ & Hroute & _).
    exists r, branch. rewrite Hlog. exact Hroute.
Defined.

(* ================================================================== *)
(** * Further properties of the code *)

(* ================================================================== *)
(** ** Stripped text *)

Section StripFacts.

Lemma lstrip_head (s : str) c t : lstrip s = c :: t -> isspace c = false.
Proof.
  induction s as [|x s IH]; simpl; [discriminate|].
  destruct (isspace x) eqn:E; [exact IH|].
  intros H. injection H as -> _. exact E.
Qed.

Lemma lstrip_fixed c t : isspace c = false -> lstrip (c :: t) = c :: t.
Proof. intros H. simpl. rewrite H. reflexivity. Qed.

Lemma lstrip_idem (s : str) : lstrip (lstrip s) = lstrip s.
Proof.
  destruct (lstrip s) as [|c t] eqn:E; [reflexivity|].
  apply lstrip_fixed. exact (@lstrip_head s c t E).
Qed.

Lemma rstrip_idem (s : str) : rstrip (rstrip s) = rstrip s.
Proof.
  unfold rstrip. rewrite rev_involutive, lstrip_idem. reflexivity.
Qed.

Lemma lstrip_keeps_last (l : str) c :
  isspace c = false -> exists m, lstrip (l ++ [c]) = m ++ [c].
Proof.
  intros Hc. induction l as [|a l IH]; simpl.
  - rewrite Hc. exists []. reflexivity.
  - destruct (isspace a); [exact IH|]. exists (a :: l). reflexivity.
Qed.

Lemma rstrip_keeps_head c t :
  isspace c = false -> exists t', rstrip (c :: t) = c :: t'.
Proof.
  intros Hc. unfold rstrip. simpl.
  destruct (@lstrip_keeps_last (rev t) c Hc) as (m & Hm).
  rewrite Hm, rev_app_distr. simpl. eauto.
Qed.

Lemma lstrip_strip (s : str) : lstrip (strip s) = strip s.
Proof.
  unfold strip. destruct (lstrip s) as [|c t] eqn:E; [reflexivity|].
  pose proof (@lstrip_head s c t E) as Hc.
  destruct (@rstrip_keeps_head c t Hc) as (t' & Ht).
  rewrite Ht. apply lstrip_fixed. exact Hc.
Qed.

Lemma rstrip_strip (s : str) : rstrip (strip s) = strip s.
Proof. unfold strip. apply rstrip_idem. Qed.

(** Stripping once is enough. *)
Lemma strip_idem (s : str) : strip (strip s) = strip s.
Proof.
  unfold strip at 1. rewrite lstrip_strip. apply rstrip_strip.
Qed.

(** A text that stripping leaves alone neither starts nor ends with
    whitespace. *)
Lemma stripped_ends (s : str) :
  strip s = s ->
  (forall c t, s = c :: t -> isspace c = false)
  /\ (forall c t, s = t ++ [c] -> isspace c = false).
Proof.
  intros Hs. split; intros c t E.
  - rewrite <- Hs, <- lstrip_strip, Hs in E. exact (@lstrip_head _ _ _ E).
  - assert (H : lstrip (rev s) = rev s).
    { rewrite <- Hs at 2. rewrite <- rstrip_strip, Hs. unfold rstrip.
      rewrite rev_involutive. reflexivity. }
    rewrite E, rev_app_distr in H. cbn [rev app] in H.
    exact (@lstrip_head _ _ _ H).
Qed.

End StripFacts.

(** X1.  Whatever the language model replies, the answer stored by the
    answer step neither starts nor ends with whitespace. *)
Theorem answer_node_answer_is_stripped (W : World) (st : GraphState)
    (log : list event) (upd : update) :
  fst (answer_node W st log) = inr upd ->
  exists a,
    upd = [(FAnswer, a)]
    /\ strip a = a
    /\ (forall c t, a = c :: t -> isspace c = false)
    /\ (forall c t, a = t ++ [c] -> isspace c = false).
Proof.
  rewrite answer_node_run. cbn [fst].
  destruct (llm_invoke W (answer_messages st)) as [e|reply]; [discriminate|].
  intros H. apply result_ok_inj in H. subst upd.
  exists (strip (or_empty reply)).
  split; [reflexivity|]. split; [apply strip_idem|].
  apply stripped_ends. apply strip_idem.
Qed.

Lemma answer_node_answer_is_stripped_witness :
  exists a,
    [(FAnswer, u"Paris is the capital of France.")] = [(FAnswer, a)]
    /\ strip a = a.
Proof.
  destruct (@answer_node_answer_is_stripped test_world
              {| question := u"What is the capital of France?";
                 route := Some (u"pdf");
                 context := Some (u"Paris is the capital of France.");
                 answer := None |} []
              [(FAnswer, u"Paris is the capital of France.")])
    as (a & Hupd & Hstrip & _).
  - vm_compute. reflexivity.
  - exists a. split; [exact Hupd | exact Hstrip].
Defined.

(* ================================================================== *)
(** ** What a match consumes *)

Section ConsumedText.

Lemma rep_lazy_split (A : Type) cls least s (k : str -> option A) x :
  rep_lazy cls least s k = Some x ->
  exists pre s',
    s = pre ++ s' /\ Forall (fun c => cls c = true) pre
    /\ (least <= List.length pre)%nat /\ k s' = Some x.
Proof.
  revert least. induction s as [|c t IH]; intros least H.
  - destruct least; simpl in H; [|discriminate].
    destruct (k []) eqn:E; [|discriminate]. injection H as ->.
    exists [], []. repeat split; auto.
  - destruct least; simpl in H.
    + destruct (k (c :: t)) eqn:E.
      * injection H as ->. exists [], (c :: t). repeat split; auto.
      * destruct (cls c) eqn:Ec; [|discriminate].
        apply IH in H. destruct H as (pre & s' & -> & Hpre & _ & Hk).
        exists (c :: pre), s'. repeat split; auto. simpl. lia.
    + destruct (cls c) eqn:Ec; [|discriminate].
      apply IH in H. destruct H as (pre & s' & -> & Hpre & Hlen & Hk).
      exists (c :: pre), s'. repeat split; auto. simpl. lia.
Qed.

Lemma rep_greedy_split (A : Type) cls least s (k : str -> option A) x :
  rep_greedy cls least s k = Some x ->
  exists pre s', s = pre ++ s' /\ k s' = Some x.
Proof.
  revert least. induction s as [|c t IH]; intros least H; simpl in H.
  - destruct least; [|discriminate]. exists [], []. auto.
  - destruct (cls c).
    + destruct (rep_greedy cls (pred least) t k) eqn:E.
      * injection H as ->. apply IH in E. destruct E as (pre & s' & -> & Hk).
        exists (c :: pre), s'. auto.
      * destruct least; [|discriminate]. exists [], (c :: t). auto.
    + destruct least; [|discriminate]. exists [], (c :: t). auto.
Qed.

(** A pattern without a group hands group 1 on unchanged, and what is left
    to read is a suffix of the text. *)
Lemma rmatch_no_group (A : Type) r :
  no_group r = true ->
  forall s g (k : str -> option str -> option A) x,
    rmatch r s g k = Some x ->
    exists pre s', s = pre ++ s' /\ k s' g = Some x.
Proof.
  induction r as [c|r1 IH1 r2 IH2|r1 IH1 r2 IH2|r1 IH1|greedy least cls|r1 IH1|];
    simpl; intros Hn s g k x H; try discriminate.
  - destruct s as [|c0 t]; [discriminate|].
    destruct (N.eqb c0 c); [|discriminate]. exists [c0], t. auto.
  - apply Bool.andb_true_iff in Hn. destruct Hn as [Hn1 Hn2].
    apply (IH1 Hn1) in H. destruct H as (pre1 & s1 & -> & H).
    apply (IH2 Hn2) in H. destruct H as (pre2 & s2 & -> & H).
    exists (pre1 ++ pre2), s2. rewrite <- app_assoc. auto.
  - apply Bool.andb_true_iff in Hn. destruct Hn as [Hn1 Hn2].
    destruct (rmatch r1 s g k) eqn:E.
    + injection H as ->. eapply IH1; eauto.
    + eapply IH2; eauto.
  - destruct (rmatch r1 s g k) eqn:E.
    + injection H as ->. eapply IH1; eauto.
    + exists [], s. auto.
  - destruct greedy.
    + apply rep_greedy_split in H. exact H.
    + apply rep_lazy_split in H. destruct H as (pre & s' & -> & _ & _ & H).
      eauto.
  - apply eos_some in H. exists [], s. auto.
Qed.

Lemma firstn_consumed (pre rest : str) :
  firstn (List.length (pre ++ rest) - List.length rest) (pre ++ rest) = pre.
Proof.
  rewrite length_app, Nat.add_sub, firstn_app, Nat.sub_diag, firstn_all.
  simpl. apply app_nil_r.
Qed.

(** The group of the two patterns: one or more letters or blanks. *)
Lemma rmatch_city_group (A : Type) s g (k : str -> option str -> option A) x :
  rmatch (Grp (Rep false 1 cls_letter_or_space)) s g k = Some x ->
  exists city s',
    s = city ++ s'
    /\ Forall (fun c => cls_letter_or_space c = true) city
    /\ city <> []
    /\ k s' (Some city) = Some x.
Proof.
  cbn [rmatch]. intros H. apply rep_lazy_split in H.
  destruct H as (pre & s' & -> & Hpre & Hlen & H).
  rewrite firstn_consumed in H.
  exists pre, s'. repeat split; auto.
  destruct pre; [simpl in Hlen; lia | discriminate].
Qed.

Lemma search_suffix r s m :
  search r s = Some m ->
  exists pre s', s = pre ++ s' /\ match_here r s' = Some m.
Proof.
  induction s as [|c t IH]; simpl; intros H.
  - destruct (match_here r []) eqn:E; [|discriminate].
    injection H as ->. exists [], []. auto.
  - destruct (match_here r (c :: t)) eqn:E.
    + injection H as ->. exists [], (c :: t). auto.
    + apply IH in H. destruct H as (pre & s' & -> & H).
      exists (c :: pre), s'. auto.
Qed.

Lemma rmatch_cat (A : Type) r1 r2 s g (k : str -> option str -> option A) :
  rmatch (Cat r1 r2) s g k = rmatch r1 s g (fun s' g' => rmatch r2 s' g' k).
Proof. reflexivity. Qed.

(** A word matches only where the text starts with it. *)
Lemma rmatch_word (A : Type) w s g (k : str -> option str -> option A) x :
  w <> [] -> rmatch (word w) s g k = Some x ->
  exists s', s = w ++ s' /\ k s' g = Some x.
Proof.
  revert s. induction w as [|c w IH]; intros s Hw H; [contradiction|].
  destruct w as [|c' w'].
  - simpl in H. destruct s as [|c0 t]; [discriminate|].
    destruct (N.eqb_spec c0 c); [|discriminate]. subst. exists t. auto.
  - change (word (c :: c' :: w')) with (Cat (Chr c) (word (c' :: w'))) in H.
    cbn [rmatch] in H. destruct s as [|c0 t]; [discriminate|].
    destruct (N.eqb_spec c0 c); [|discriminate]. subst.
    apply IH in H; [|discriminate]. destruct H as (s' & -> & H).
    exists s'. auto.
Qed.

Lemma startswith_contains (w s : str) :
  startswith w s = true -> contains w s = true.
Proof. intros H. rewrite contains_unfold, H. reflexivity. Qed.

(** Where pattern 1 matches, the text reads "in ", then the city. *)
Lemma match_city_pattern_in s m :
  match_here city_pattern_in s = Some m ->
  exists city rest,
    s = u"in " ++ city ++ rest
    /\ group1 m = Some city
    /\ Forall (fun c => cls_letter_or_space c = true) city
    /\ city <> [].
Proof.
  unfold match_here, city_pattern_in. cbn [cat]. intros H.
  rewrite rmatch_cat in H.
  apply rmatch_word in H; [|discriminate]. destruct H as (s1 & -> & H).
  cbv beta in H. rewrite rmatch_cat in H.
  apply rmatch_city_group in H. destruct H as (city & s2 & -> & Hc & Hne & H).
  cbv beta in H.
  apply rmatch_no_group in H; [|reflexivity].
  destruct H as (p1 & s3 & -> & H).
  injection H as <-.
  exists city, (p1 ++ s3). repeat split; auto.
Qed.

(** Where pattern 2 matches, the city is followed by "weather". *)
Lemma match_city_pattern_before_weather s m :
  match_here city_pattern_before_weather s = Some m ->
  exists city rest,
    s = city ++ rest
    /\ contains (u"weather") rest = true
    /\ group1 m = Some city
    /\ Forall (fun c => cls_letter_or_space c = true) city
    /\ city <> [].
Proof.
  unfold match_here, city_pattern_before_weather. cbn [cat]. intros H.
  rewrite rmatch_cat in H.
  apply rmatch_city_group in H. destruct H as (city & s2 & -> & Hc & Hne & H).
  cbv beta in H. rewrite rmatch_cat in H.
  apply rmatch_no_group in H; [|reflexivity].
  destruct H as (p1 & s3 & -> & H).
  cbv beta in H.
  apply rmatch_word in H; [|discriminate]. destruct H as (s4 & -> & H).
  injection H as <-.
  exists city, (p1 ++ u"weather" ++ s4). repeat split; auto.
  apply contains_infix.
Qed.

End ConsumedText.

(* ================================================================== *)
(** ** The shape of an extracted city *)

Section CityShape.

Local Open Scope N_scope.

Ltac chars :=
  unfold is_cased, cls_letter_or_space, cls_space, cls_trailing, is_az in *;
  unfold is_upper_latin, is_lower_latin, isspace, between in *;
  repeat (rewrite ?Bool.orb_true_iff, ?Bool.andb_true_iff,
            ?Bool.negb_true_iff, ?Bool.orb_false_iff, ?Bool.andb_false_iff,
            ?Bool.negb_false_iff, ?N.leb_le, ?N.leb_gt, ?N.eqb_eq,
            ?N.eqb_neq in *).

(** Title-casing a letter or a blank gives one letter or the same blank. *)
Lemma title_char (previous_is_cased : bool) (c : N) :
  cls_letter_or_space c = true ->
  exists c',
    (if previous_is_cased then lower_cp c else title_cp c) = [c']
    /\ isspace c' = isspace c
    /\ cls_letter_or_space c' = true.
Proof.
  intros Hc. unfold lower_cp, title_cp, upper_cp.
  destruct previous_is_cased.
  - destruct (is_upper_latin c) eqn:Eu.
    + exists (c + 32). split; [reflexivity|].
      assert (H1 : isspace c = false) by (clear Hc; chars; lia).
      assert (H2 : isspace (c + 32) = false) by (clear Hc H1; chars; lia).
      rewrite H1, H2. split; [reflexivity|]. clear H1 H2. chars. lia.
    + exists c. auto.
  - assert (H223 : (c =? 223) = false) by (apply N.eqb_neq; chars; lia).
    rewrite H223.
    destruct (is_lower_latin c) eqn:El.
    + exists (c - 32). split; [reflexivity|].
      assert (H1 : isspace c = false) by (clear Hc H223; chars; lia).
      assert (H2 : isspace (c - 32) = false) by (clear H1 H223; chars; lia).
      rewrite H1, H2. split; [reflexivity|]. clear H1 H2 H223. chars. lia.
    + assert (H181 : (c =? 181) = false) by (apply N.eqb_neq; chars; lia).
      assert (H255 : (c =? 255) = false) by (apply N.eqb_neq; chars; lia).
      rewrite H181, H255. exists c. auto.
Qed.

Lemma title_from_shape (previous_is_cased : bool) (s : str) :
  Forall (fun c => cls_letter_or_space c = true) s ->
  Forall2 (fun c c' => isspace c' = isspace c
                       /\ cls_letter_or_space c' = true)
    s (title_from previous_is_cased s).
Proof.
  intros H. revert previous_is_cased.
  induction H as [|c s Hc _ IH]; intros b; cbn [title_from]; [constructor|].
  destruct (@title_char b c Hc) as (c' & E & Hsp & Hcls).
  destruct b; cbv iota in *; rewrite E; cbn [app];
    (constructor; [auto | apply IH]).
Qed.

Lemma lstrip_Forall (P : N -> Prop) (s : str) :
  Forall P s -> Forall P (lstrip s).
Proof.
  induction 1 as [|c s Hc Hs IH]; simpl; [constructor|].
  destruct (isspace c); [exact IH | constructor; assumption].
Qed.

Lemma strip_Forall (P : N -> Prop) (s : str) :
  Forall P s -> Forall P (strip s).
Proof.
  intros H. unfold strip, rstrip.
  apply Forall_rev, lstrip_Forall, Forall_rev, lstrip_Forall, H.
Qed.

(** The city made of a group of letters and blanks: letters and blanks
    again, with no blank at either end. *)
Lemma city_of_group_shape (g : str) :
  Forall (fun c => cls_letter_or_space c = true) g ->
  Forall (fun c => cls_letter_or_space c = true) (title (strip g))
  /\ (forall c t, title (strip g) = c :: t -> isspace c = false)
  /\ (forall c t, title (strip g) = t ++ [c] -> isspace c = false)
  /\ List.length (title (strip g)) = List.length (strip g).
Proof.
  intros Hg.
  pose proof (@title_from_shape false (strip g) (@strip_Forall _ g Hg)) as H2.
  fold (title (strip g)) in H2.
  destruct (@stripped_ends (strip g) (strip_idem g)) as [Hfirst Hlast].
  split.
  { clear Hfirst Hlast. induction H2 as [|c c' s r [_ Hc] _ IH];
      constructor; assumption. }
  split.
  { intros c t E. rewrite E in H2. inversion H2 as [|c0 ? s0 ? [Hsp _] _ E0];
      subst. rewrite Hsp. eapply Hfirst. symmetry. eassumption. }
  split.
  { intros c t E. rewrite E in H2.
    apply Forall2_app_inv_r in H2.
    destruct H2 as (s1 & s2 & _ & H2 & E0).
    inversion H2 as [|c0 ? s0 ? [Hsp _] Hnil]; subst.
    inversion Hnil; subst.
    rewrite Hsp. eapply Hlast. eassumption. }
  symmetry. eapply Forall2_length. exact H2.
Qed.

End CityShape.

(** X2.  [extract_city_name] returns either the default, when neither
    pattern matches, or a city made of ASCII letters and whitespace only,
    with no whitespace at either end. *)
Theorem extract_city_name_shape (q d : str) :
  (search city_pattern_in (lower q) = None
   /\ search city_pattern_before_weather (lower q) = None
   /\ extract_city_name q d = d)
  \/ (Forall (fun c => cls_letter_or_space c = true) (extract_city_name q d)
      /\ (forall c t, extract_city_name q d = c :: t -> isspace c = false)
      /\ (forall c t, extract_city_name q d = t ++ [c] -> isspace c = false)).
Proof.
  unfold extract_city_name.
  destruct (search city_pattern_in (lower q)) as [m|] eqn:E1.
  - right. apply search_suffix in E1. destruct E1 as (pre & s' & _ & Hm).
    apply match_city_pattern_in in Hm.
    destruct Hm as (city & rest & _ & Hg & Hcity & _).
    unfold city_of_match. rewrite Hg. cbn [or_empty].
    destruct (@city_of_group_shape city Hcity) as (H1 & H2 & H3 & _). auto.
  - destruct (search city_pattern_before_weather (lower q)) as [m|] eqn:E2.
    + right. apply search_suffix in E2. destruct E2 as (pre & s' & _ & Hm).
      apply match_city_pattern_before_weather in Hm.
      destruct Hm as (city & rest & _ & _ & Hg & Hcity & _).
      unfold city_of_match. rewrite Hg. cbn [or_empty].
      destruct (@city_of_group_shape city Hcity) as (H1 & H2 & H3 & _). auto.
    + left. auto.
Qed.

(** X3.  Pattern 1 can only match a question whose lowercase form contains
    "in " and pattern 2 one that contains "weather": a question with
    neither gets the default city. *)
Theorem extract_city_name_needs_keyword (q d : str) :
  (contains (u"in ") (lower q) = false ->
   search city_pattern_in (lower q) = None)
  /\ (contains (u"weather") (lower q) = false ->
      search city_pattern_before_weather (lower q) = None)
  /\ (contains (u"in ") (lower q) = false ->
      contains (u"weather") (lower q) = false ->
      extract_city_name q d = d).
Proof.
  assert (H1 : contains (u"in ") (lower q) = false ->
               search city_pattern_in (lower q) = None).
  { intros Hno. destruct (search city_pattern_in (lower q)) as [m|] eqn:E;
      [|reflexivity].
    apply search_suffix in E. destruct E as (pre & s' & Hs & Hm).
    apply match_city_pattern_in in Hm.
    destruct Hm as (city & rest & -> & _).
    rewrite Hs in Hno. rewrite contains_infix in Hno. discriminate. }
  assert (H2 : contains (u"weather") (lower q) = false ->
               search city_pattern_before_weather (lower q) = None).
  { intros Hno.
    destruct (search city_pattern_before_weather (lower q)) as [m|] eqn:E;
      [|reflexivity].
    apply search_suffix in E. destruct E as (pre & s' & Hs & Hm).
    apply match_city_pattern_before_weather in Hm.
    destruct Hm as (city & rest & -> & Hw & _).
    rewrite Hs in Hno.
    rewrite (@contains_app_r _ pre _ (@contains_app_r _ city _ Hw)) in Hno.
    discriminate. }
  split; [exact H1|]. split; [exact H2|].
  intros Hin Hw. unfold extract_city_name. rewrite (H1 Hin), (H2 Hw).
  reflexivity.
Qed.

Lemma extract_city_name_needs_keyword_witness :
  contains (u"in ") (lower (u"What's up?")) = false
  /\ contains (u"weather") (lower (u"What's up?")) = false
  /\ extract_city_name (u"What's up?") (u"Hyderabad") = u"Hyderabad".
Proof.
  assert (H1 : contains (u"in ") (lower (u"What's up?")) = false)
    by (vm_compute; reflexivity).
  assert (H2 : contains (u"weather") (lower (u"What's up?")) = false)
    by (vm_compute; reflexivity).
  split; [exact H1|]. split; [exact H2|].
  exact (proj2 (proj2 (extract_city_name_needs_keyword (u"What's up?")
                         (u"Hyderabad"))) H1 H2).
Defined.

(* ================================================================== *)
(** ** Questions that end with "in" and a one-word city *)

Section OneWordCity.

Local Open Scope N_scope.

Ltac chars :=
  unfold is_cased, cls_letter_or_space, cls_space, cls_trailing, is_az in *;
  unfold is_upper_latin, is_lower_latin, isspace, between in *;
  repeat (rewrite ?Bool.orb_true_iff, ?Bool.andb_true_iff,
            ?Bool.negb_true_iff, ?Bool.orb_false_iff, ?Bool.andb_false_iff,
            ?Bool.negb_false_iff, ?N.leb_le, ?N.leb_gt, ?N.eqb_eq,
            ?N.eqb_neq in *).

Lemma rmatch_opt (A : Type) r s g (k : str -> option str -> option A) :
  rmatch (Opt r) s g k
  = match rmatch r s g k with Some x => Some x | None => k s g end.
Proof. reflexivity. Qed.

Lemma rmatch_alt (A : Type) r1 r2 s g (k : str -> option str -> option A) :
  rmatch (Alt r1 r2) s g k
  = match rmatch r1 s g k with Some x => Some x | None => rmatch r2 s g k end.
Proof. reflexivity. Qed.

Lemma rmatch_rep_greedy (A : Type) least cls s g
    (k : str -> option str -> option A) :
  rmatch (Rep true least cls) s g k = rep_greedy cls least s (fun s' => k s' g).
Proof. reflexivity. Qed.

Lemma rmatch_grp_lazy (A : Type) least cls s g
    (k : str -> option str -> option A) :
  rmatch (Grp (Rep false least cls)) s g k
  = rep_lazy cls least s
      (fun s' => k s' (Some (firstn (List.length s - List.length s') s))).
Proof. reflexivity. Qed.

Lemma rmatch_word_app (A : Type) w s g (k : str -> option str -> option A) :
  w <> [] -> rmatch (word w) (w ++ s) g k = k s g.
Proof.
  induction w as [|c w IH]; intros Hw; [contradiction|].
  destruct w as [|c' w'].
  - simpl. rewrite N.eqb_refl. reflexivity.
  - change (word (c :: c' :: w')) with (Cat (Chr c) (word (c' :: w'))).
    rewrite rmatch_cat. cbn [rmatch app]. rewrite N.eqb_refl.
    apply IH. discriminate.
Qed.

Lemma rmatch_word_none (A : Type) w s g (k : str -> option str -> option A) :
  w <> [] -> startswith w s = false -> rmatch (word w) s g k = None.
Proof.
  intros Hw Hs. destruct (rmatch (word w) s g k) as [x|] eqn:E; [|reflexivity].
  apply rmatch_word in E; [|exact Hw]. destruct E as (s' & -> & _).
  rewrite startswith_app in Hs. discriminate.
Qed.

Lemma eos_none (A : Type) c t g (k : str -> option str -> option A) :
  c <> 10 -> rmatch Eos (c :: t) g k = None.
Proof.
  intros Hc. simpl.
  repeat match goal with
         | |- context [match ?v with _ => _ end] => destruct v
         end; solve [reflexivity | exfalso; apply Hc; reflexivity].
Qed.

Lemma rep_greedy_none (A : Type) cls least s (k : str -> option A) :
  (forall pre s', s = pre ++ s' -> k s' = None) ->
  rep_greedy cls least s k = None.
Proof.
  revert least. induction s as [|c t IH]; intros least Hk; simpl.
  - destruct least; [apply (Hk [] []); reflexivity | reflexivity].
  - assert (Hhere : match least with O => k (c :: t) | S _ => None end = None).
    { destruct least; [apply (Hk [] (c :: t)); reflexivity | reflexivity]. }
    destruct (cls c); [|exact Hhere].
    rewrite IH; [exact Hhere|].
    intros pre s' E. apply (Hk (c :: pre) s'). rewrite E. reflexivity.
Qed.

Lemma rep_greedy_all (A : Type) cls s (k : str -> option A) x :
  Forall (fun c => cls c = true) s -> k [] = Some x ->
  rep_greedy cls 0 s k = Some x.
Proof.
  intros Hs Hk. induction Hs as [|c t Hc _ IH]; simpl; [exact Hk|].
  rewrite Hc, IH. reflexivity.
Qed.

Lemma rep_lazy_0 (A : Type) cls s (k : str -> option A) :
  rep_lazy cls 0 s k
  = match k s with
    | Some x => Some x
    | None =>
        match s with
        | c :: t => if cls c then rep_lazy cls 0 t k else None
        | [] => None
        end
    end.
Proof. destruct s; reflexivity. Qed.

(** A lazy repetition stops at the first place where the rest matches. *)
Lemma rep_lazy_reach (A : Type) cls w tail (k : str -> option A) x :
  Forall (fun c => cls c = true) w ->
  (forall w1 w2, w = w1 ++ w2 -> w2 <> [] -> k (w2 ++ tail) = None) ->
  k tail = Some x ->
  rep_lazy cls 0 (w ++ tail) k = Some x.
Proof.
  intros Hw. induction Hw as [|c t Hc _ IH]; intros Hnone Hk.
  - rewrite rep_lazy_0. cbn [app]. rewrite Hk. reflexivity.
  - rewrite rep_lazy_0.
    rewrite (Hnone [] (c :: t) eq_refl); [|discriminate].
    cbn [app]. rewrite Hc. apply IH; [|exact Hk].
    intros w1 w2 E Hw2. apply (Hnone (c :: w1) w2); [|exact Hw2].
    rewrite E. reflexivity.
Qed.

Lemma city_pattern_in_parts :
  city_pattern_in
  = Cat (word (u"in ")) (Cat (Grp (Rep false 1 cls_letter_or_space)) after_city).
Proof. reflexivity. Qed.

(** No keyword starts at the end of the text or at a punctuation mark or
    blank. *)
Lemma keywords_none (A : Type) s g (k : str -> option str -> option A) :
  (s = [] \/ exists c t, s = c :: t /\ cls_trailing c = true) ->
  rmatch (alt [ word (u"today"); word (u"now"); word (u"tomorrow");
                word (u"weather") ]
              (word (u"forecast"))) s g k = None.
Proof.
  intros Hs. cbn [alt].
  assert (Hw : forall w0 w, startswith (w0 :: w) s = false
                            \/ is_az w0 = false).
  { intros w0 w. destruct Hs as [-> | (c & t & -> & Hc)]; [left; reflexivity|].
    destruct (is_az w0) eqn:E; [left | right; reflexivity].
    simpl. assert (Hne : (w0 =? c) = false) by (apply N.eqb_neq; chars; lia).
    rewrite Hne. reflexivity. }
  rewrite !rmatch_alt.
  repeat (rewrite rmatch_word_none;
          [ | discriminate
            | match goal with
              | |- startswith ?w s = false =>
                  let w' := eval vm_compute in w in
                  change w with w';
                  match w' with
                  | ?w0 :: ?wt =>
                      destruct (Hw w0 wt) as [H|H];
                      [exact H | vm_compute in H; discriminate]
                  end
              end ]).
  reflexivity.
Qed.

Lemma after_city_none (A : Type) c t g (k : str -> option str -> option A) :
  is_az c = true -> rmatch after_city (c :: t) g k = None.
Proof.
  intros Hc. unfold after_city.
  rewrite rmatch_cat, rmatch_opt, rmatch_cat, rmatch_rep_greedy.
  assert (Hs : cls_space c = false) by (chars; lia).
  assert (Ht : cls_trailing c = false) by (clear Hs; chars; lia).
  cbn [rep_greedy]. rewrite Hs.
  rewrite rmatch_cat, rmatch_rep_greedy. cbn [rep_greedy]. rewrite Ht.
  apply eos_none. clear Hs Ht. chars. lia.
Qed.

Lemma Forall_suffix (P : N -> Prop) (pre s' : str) :
  Forall P (pre ++ s') -> Forall P s'.
Proof. intros H. apply Forall_app in H. tauto. Qed.

Lemma after_city_end (tail : str) (g : option str) :
  Forall (fun c => cls_trailing c = true) tail ->
  rmatch after_city tail g (fun _ g' => Some {| group1 := g' |})
  = Some {| group1 := g |}.
Proof.
  intros Htail. unfold after_city.
  rewrite rmatch_cat, rmatch_opt, rmatch_cat, rmatch_rep_greedy.
  rewrite rep_greedy_none.
  - rewrite rmatch_cat, rmatch_rep_greedy.
    apply rep_greedy_all; [exact Htail | reflexivity].
  - intros pre s' E. apply keywords_none.
    rewrite E in Htail. apply Forall_suffix in Htail.
    destruct s' as [|c t]; [left; reflexivity | right].
    exists c, t. split; [reflexivity|]. inversion Htail; assumption.
Qed.

(** Pattern 1 at "in ", a word of lowercase letters, and closing
    punctuation or blanks: the group is the word. *)
Lemma match_in_word (w tail : str) :
  w <> [] ->
  Forall (fun c => is_az c = true) w ->
  Forall (fun c => cls_trailing c = true) tail ->
  match_here city_pattern_in (u"in " ++ w ++ tail)
  = Some {| group1 := Some w |}.
Proof.
  intros Hne Hw Htail. unfold match_here.
  rewrite city_pattern_in_parts, rmatch_cat, rmatch_word_app; [|discriminate].
  rewrite rmatch_cat, rmatch_grp_lazy.
  destruct w as [|c t]; [contradiction|].
  assert (Hcls : Forall (fun x => cls_letter_or_space x = true) (c :: t)).
  { eapply Forall_impl; [|exact Hw]. intros x Hx. chars. lia. }
  inversion Hcls as [|? ? Hc Ht]; subst.
  cbn [app rep_lazy]. rewrite Hc.
  change (c :: t ++ tail) with ((c :: t) ++ tail).
  apply rep_lazy_reach.
  - exact Ht.
  - intros w1 w2 E Hw2. destruct w2 as [|c2 t2]; [contradiction|].
    cbn [app]. apply after_city_none.
    rewrite E in Hw. inversion Hw as [|? ? _ Hw']; subst.
    apply Forall_suffix in Hw'. inversion Hw'; assumption.
  - rewrite firstn_consumed. apply after_city_end. exact Htail.
Qed.

Lemma match_here_needs_in s :
  startswith (u"in ") s = false -> match_here city_pattern_in s = None.
Proof.
  intros Hs. destruct (match_here city_pattern_in s) as [m|] eqn:E;
    [|reflexivity].
  apply match_city_pattern_in in E. destruct E as (city & rest & -> & _).
  rewrite startswith_app in Hs. discriminate.
Qed.

Lemma contains_false_suffix (x a b : str) :
  contains x (a ++ b) = false -> contains x b = false.
Proof.
  intros H. destruct (contains x b) eqn:E; [|reflexivity].
  rewrite (@contains_app_r x a b E) in H. discriminate.
Qed.

(** Before the first "in" nothing can start a match of pattern 1. *)
Lemma search_skips_prefix (pre more : str) :
  contains (u"in") pre = false ->
  search city_pattern_in (pre ++ u"in " ++ more)
  = search city_pattern_in (u"in " ++ more).
Proof.
  induction pre as [|c pre IH]; intros Hno; [reflexivity|].
  cbn [app search]. rewrite match_here_needs_in.
  - apply IH. apply (@contains_false_suffix _ [c] pre). exact Hno.
  - rewrite contains_unfold in Hno. apply Bool.orb_false_iff in Hno.
    destruct Hno as [Hstart _].
    change (u"in") with [105; 110] in Hstart.
    change (u"in ") with [105; 110; 32].
    cbn [startswith] in *.
    destruct (105 =? c) eqn:Ec; [|reflexivity]. cbn [andb] in *.
    destruct pre as [|c2 pre']; cbn [app startswith] in *.
    + reflexivity.
    + destruct (110 =? c2); [discriminate | reflexivity].
Qed.

Lemma search_found r s m : match_here r s = Some m -> search r s = Some m.
Proof. intros H. destruct s; simpl; rewrite H; reflexivity. Qed.

Lemma strip_word (w : str) :
  Forall (fun c => is_az c = true) w -> strip w = w.
Proof.
  intros Hw.
  assert (Hl : forall s, Forall (fun c => is_az c = true) s -> lstrip s = s).
  { intros s Hs. destruct Hs as [|c t Hc _]; [reflexivity|].
    apply lstrip_fixed. chars. lia. }
  unfold strip, rstrip. rewrite (Hl w Hw), (Hl (rev w)), rev_involutive.
  - reflexivity.
  - apply Forall_rev. exact Hw.
Qed.

Lemma title_word (c : N) (t : str) :
  Forall (fun x => is_az x = true) (c :: t) -> title (c :: t) = (c - 32) :: t.
Proof.
  intros Hw.
  assert (Hrest : forall s, Forall (fun x => is_az x = true) s ->
                            title_from true s = s).
  { intros s Hs. induction Hs as [|x s Hx _ IH]; [reflexivity|].
    cbn [title_from]. unfold lower_cp.
    assert (Hu : is_upper_latin x = false) by (chars; lia).
    assert (Hcased : is_cased x = true) by (clear Hu; chars; lia).
    rewrite Hu, Hcased, IH. reflexivity. }
  inversion Hw as [|? ? Hc Ht]; subst.
  unfold title. cbn [title_from]. unfold title_cp, upper_cp.
  assert (H223 : (c =? 223) = false) by (apply N.eqb_neq; chars; lia).
  assert (Hl : is_lower_latin c = true) by (clear H223; chars; lia).
  assert (Hcased : is_cased c = true) by (clear H223 Hl; chars; lia).
  rewrite H223, Hl, Hcased, (Hrest t Ht). reflexivity.
Qed.

End OneWordCity.

(** X4.  When the lowercased question reads: some text without "in", then
    "in ", a word of lowercase letters, and nothing more than punctuation
    marks [?,.] or whitespace, the city is that word with its first letter
    uppercased. *)
Theorem extract_city_name_in_word (q d pre : str) (c : N) (t tail : str) :
  lower q = pre ++ u"in " ++ (c :: t) ++ tail ->
  contains (u"in") pre = false ->
  Forall (fun x => is_az x = true) (c :: t) ->
  Forall (fun x => cls_trailing x = true) tail ->
  extract_city_name q d = (c - 32)%N :: t.
Proof.
  intros Hq Hpre Hw Htail. unfold extract_city_name.
  rewrite Hq, search_skips_prefix; [|exact Hpre].
  rewrite search_found with (m := {| group1 := Some (c :: t) |});
    [|apply match_in_word; [discriminate | exact Hw | exact Htail]].
  unfold city_of_match. cbn [group1 or_empty].
  rewrite (strip_word Hw). apply title_word. exact Hw.
Qed.

Lemma extract_city_name_in_word_witness :
  extract_city_name (u"What is the weather in Paris?") (u"Hyderabad")
  = u"Paris".
Proof.
  apply (@extract_city_name_in_word (u"What is the weather in Paris?")
           (u"Hyderabad") (u"what is the weather ") 112%N (u"aris") (u"?")).
  - vm_compute. reflexivity.
  - vm_compute. reflexivity.
  - repeat constructor.
  - repeat constructor.
Defined.

(* ================================================================== *)
(** ** The calls of the weather path *)

Lemma result_error_inj (A : Type) (a b : exn) : @inl exn A a = inl b -> a = b.
Proof. intros H. injection H as H. exact H. Qed.

(** Every run of the weather path, spelled out. *)
Lemma fetch_weather_for_city_cases (W : World) q d h log :
  let city := extract_city_name q d in
  let geo := EvHttpGet (geocode_url W city h) in
  match http_get_json W (geocode_url W city h) with
  | inl e => fetch_weather_for_city W q d h log = (inl e, log ++ [geo])
  | inr data =>
      match geocode_coordinates W city h data with
      | inl e => fetch_weather_for_city W q d h log = (inl e, log ++ [geo])
      | inr coords =>
          fetch_weather_for_city W q d h log
          = (match http_get_json W (onecall_url W (fst coords) (snd coords)) with
             | inl e => inl e
             | inr weather => summarise_onecall W weather city
             end,
             log ++ [geo; EvHttpGet (onecall_url W (fst coords) (snd coords))])
      end
  end.
Proof.
  cbv zeta.
  unfold fetch_weather_for_city, geocode_city, fetch_weather_onecall,
    bind, emit, lift.
  generalize (extract_city_name q d) as city. intros city.
  destruct (http_get_json W (geocode_url W city h)) as [e|data];
    [reflexivity|].
  destruct (geocode_coordinates W city h data) as [e|coords]; [reflexivity|].
  destruct (http_get_json W (onecall_url W (fst coords) (snd coords)))
    as [e|weather]; rewrite <- app_assoc; reflexivity.
Qed.

(** X5.  [fetch_weather_for_city] talks to the provider only: it makes one
    GET to the geocoder and then at most one GET to the conditions
    endpoint, which happens exactly when the geocoder answered with usable
    coordinates; it calls neither the language model nor the vector store
    and writes nothing to the state. *)
Theorem fetch_weather_for_city_calls (W : World) (q d h : str)
    (log : list event) :
  exists evs,
    snd (fetch_weather_for_city W q d h log) = log ++ evs
    /\ filter is_http_call evs = evs
    /\ (evs = [EvHttpGet (geocode_url W (extract_city_name q d) h)]
        \/ exists coords,
             evs = [EvHttpGet (geocode_url W (extract_city_name q d) h);
                    EvHttpGet (onecall_url W (fst coords) (snd coords))])
    /\ (List.length evs = 2%nat <->
        exists data coords,
          http_get_json W (geocode_url W (extract_city_name q d) h) = inr data
          /\ geocode_coordinates W (extract_city_name q d) h data = inr coords).
Proof.
  pose proof (fetch_weather_for_city_cases W q d h log) as H. cbv zeta in H.
  destruct (http_get_json W (geocode_url W (extract_city_name q d) h))
    as [e|data].
  { rewrite H. eexists. split; [reflexivity|]. split; [reflexivity|].
    split; [left; reflexivity|]. split; [discriminate|].
    intros (data & coords & Hd & _). discriminate. }
  destruct (geocode_coordinates W (extract_city_name q d) h data)
    as [e|coords] eqn:Ec.
  { rewrite H. eexists. split; [reflexivity|]. split; [reflexivity|].
    split; [left; reflexivity|]. split; [discriminate|].
    intros (data' & coords & Hd & Hc). injection Hd as <-.
    rewrite Ec in Hc. discriminate. }
  rewrite H. eexists. split; [reflexivity|]. split; [reflexivity|].
  split; [right; exists coords; reflexivity|].
  split; [intros _; exists data, coords; auto | reflexivity].
Qed.

(** X6.  [fetch_weather_for_city] raises only what the geocoding request,
    the check of its response or the conditions request raise; a report
    that cannot be read never makes it raise. *)
Theorem fetch_weather_for_city_failures (W : World) (q d h : str)
    (log log' : list event) (e : exn) :
  fetch_weather_for_city W q d h log = (inl e, log') ->
  http_get_json W (geocode_url W (extract_city_name q d) h) = inl e
  \/ (exists data,
        http_get_json W (geocode_url W (extract_city_name q d) h) = inr data
        /\ geocode_coordinates W (extract_city_name q d) h data = inl e)
  \/ (exists data coords,
        http_get_json W (geocode_url W (extract_city_name q d) h) = inr data
        /\ geocode_coordinates W (extract_city_name q d) h data = inr coords
        /\ http_get_json W (onecall_url W (fst coords) (snd coords)) = inl e).
Proof.
  pose proof (fetch_weather_for_city_cases W q d h log) as H. cbv zeta in H.
  intros Hfail.
  destruct (http_get_json W (geocode_url W (extract_city_name q d) h))
    as [e0|data].
  { rewrite H in Hfail. left. f_equal. apply (f_equal fst) in Hfail.
    apply result_error_inj in Hfail. exact Hfail. }
  destruct (geocode_coordinates W (extract_city_name q d) h data)
    as [e0|coords] eqn:Ec.
  { rewrite H in Hfail. right. left. exists data. split; [reflexivity|].
    rewrite Ec. f_equal. apply (f_equal fst) in Hfail.
    apply result_error_inj in Hfail. exact Hfail. }
  rewrite H in Hfail.
  destruct (http_get_json W (onecall_url W (fst coords) (snd coords)))
    as [e0|weather] eqn:Eo.
  - right. right. exists data, coords.
    split; [reflexivity|]. split; [exact Ec|].
    rewrite Eo. f_equal. apply (f_equal fst) in Hfail.
    apply result_error_inj in Hfail. exact Hfail.
  - rewrite summarise_onecall_run in Hfail. discriminate.
Qed.

Lemma fetch_weather_for_city_failures_witness :
  fetch_weather_for_city offline_world (u"What is the weather in Paris?")
    (u"Hyderabad") (u"IN") []
  = (inl (Exn (OtherError (u"ConnectionError")) (u"Max retries exceeded")),
     [EvHttpGet (geocode_url offline_world (u"Paris") (u"IN"))])
  /\ http_get_json offline_world
       (geocode_url offline_world
          (extract_city_name (u"What is the weather in Paris?") (u"Hyderabad"))
          (u"IN"))
     = inl (Exn (OtherError (u"ConnectionError")) (u"Max retries exceeded")).
Proof.
  assert (H : fetch_weather_for_city offline_world
                (u"What is the weather in Paris?") (u"Hyderabad") (u"IN") []
              = (inl (Exn (OtherError (u"ConnectionError"))
                        (u"Max retries exceeded")),
                 [EvHttpGet (geocode_url offline_world (u"Paris") (u"IN"))]))
    by (vm_compute; reflexivity).
  split; [exact H|].
  destruct (fetch_weather_for_city_failures _ _ _ _ _ H)
    as [H1 | [(data & H1 & _) | (data & coords & H1 & _)]].
  - exact H1.
  - exfalso. vm_compute in H1. discriminate.
  - exfalso. vm_compute in H1. discriminate.
Defined.

(** X7.  A geocoder entry without "lat" and "lon" is not rejected: the
    coordinates are [None], and the conditions endpoint is asked with
    them. *)
Theorem geocode_entry_without_coordinates (W : World) (q d h : str)
    (log : list event) (entry : list (str * pyval)) (others : list pyval) :
  http_get_json W (geocode_url W (extract_city_name q d) h)
  = inr (PList (PDict entry :: others)) ->
  lookup (u"lat") entry = None ->
  lookup (u"lon") entry = None ->
  geocode_coordinates W (extract_city_name q d) h (PList (PDict entry :: others))
  = inr (PNone, PNone)
  /\ snd (fetch_weather_for_city W q d h log)
     = log ++ [EvHttpGet (geocode_url W (extract_city_name q d) h);
               EvHttpGet (onecall_url W PNone PNone)]
  /\ contains (u"lat=" ++ py_str W PNone ++ u"&lon=" ++ py_str W PNone)
       (onecall_url W PNone PNone) = true.
Proof.
  intros Hgeo Hlat Hlon.
  assert (Hc : geocode_coordinates W (extract_city_name q d) h
                 (PList (PDict entry :: others)) = inr (PNone, PNone)).
  { rewrite (proj1 (proj2 (proj2 (geocode_coordinates_shapes W
                 (extract_city_name q d) h (PList (PDict entry :: others)))))
               entry others eq_refl).
    unfold dict_get. rewrite Hlat, Hlon. reflexivity. }
  split; [exact Hc|]. split.
  - pose proof (fetch_weather_for_city_cases W q d h log) as H. cbv zeta in H.
    rewrite Hgeo, Hc in H. rewrite H. reflexivity.
  - unfold onecall_url. apply contains_app_r.
    rewrite !app_assoc. do 2 apply contains_app_l.
    apply (contains_suffix []).
Qed.

Lemma geocode_entry_without_coordinates_witness :
  snd (fetch_weather_for_city nameless_world (u"What is the weather in Paris?")
         (u"Hyderabad") (u"IN") [])
  = [] ++ [EvHttpGet (geocode_url nameless_world
                        (extract_city_name (u"What is the weather in Paris?")
                           (u"Hyderabad")) (u"IN"));
           EvHttpGet (onecall_url nameless_world PNone PNone)].
Proof.
  apply (@geocode_entry_without_coordinates nameless_world
           (u"What is the weather in Paris?") (u"Hyderabad") (u"IN") []
           [(u"name", PStr (u"Paris"))] []).
  - vm_compute. reflexivity.
  - vm_compute. reflexivity.
  - vm_compute. reflexivity.
Defined.

(* ================================================================== *)
(** ** Reading a report *)

(** X8.  What [summarise_onecall] says about a report it cannot read: a
    report without "current" (the provider's error body, say) gives the
    apology naming that key; a report that is no container at all gives the
    apology for a value that cannot be subscripted; an empty "weather" list
    gives the apology for an index out of range. *)
Theorem summarise_onecall_unreadable (W : World) (city_name : str) :
  (forall entries,
     lookup (u"current") entries = None ->
     summarise_onecall W (PDict entries) city_name
     = inr (parse_apology (Exn KeyError (py_repr W (PStr (u"current"))))))
  /\ (forall v,
        (v = PNone \/ (exists b, v = PBool b) \/ (exists z, v = PInt z)
         \/ (exists f, v = PFloat f)) ->
        summarise_onecall W v city_name
        = inr (parse_apology (not_subscriptable v)))
  /\ (forall entries current,
        lookup (u"current") entries = Some (PDict current) ->
        lookup (u"weather") current = Some (PList []) ->
        summarise_onecall W (PDict entries) city_name
        = inr (parse_apology (Exn IndexError (u"list index out of range")))).
Proof.
  split.
  { intros entries H. unfold summarise_onecall, summarise_body.
    cbv beta iota delta [subscript_key rbind]. rewrite H. reflexivity. }
  split.
  { intros v [-> | [(b & ->) | [(z & ->) | (f & ->)]]]; reflexivity. }
  intros entries current H1 H2. unfold summarise_onecall, summarise_body.
  cbv beta iota delta [subscript_key rbind]. rewrite H1.
  cbv beta iota delta [subscript_key rbind]. rewrite H2. reflexivity.
Qed.

Lemma summarise_onecall_unreadable_witness :
  lookup (u"current")
    [(u"cod", PInt 401); (u"message", PStr (u"Invalid API key"))] = None
  /\ summarise_onecall test_world
       (PDict [(u"cod", PInt 401); (u"message", PStr (u"Invalid API key"))])
       (u"Hyderabad")
     = inr (parse_apology
              (Exn KeyError (py_repr test_world (PStr (u"current"))))).
Proof.
  assert (H : lookup (u"current")
                [(u"cod", PInt 401); (u"message", PStr (u"Invalid API key"))]
              = None) by (vm_compute; reflexivity).
  split; [exact H|].
  exact (proj1 (summarise_onecall_unreadable test_world (u"Hyderabad")) _ H).
Defined.

(** X9.  A report with a "current" object that holds the five readings and
    a "weather" list that starts with an object with a textual
    "description" is summarised in one sentence: the city, the two
    temperatures with one decimal, the humidity, the description with its
    first letter capitalised, and the wind speed. *)
Theorem summarise_onecall_sentence (W : World) (city_name : str)
    (entries current first : list (str * pyval)) (others : list pyval)
    (description : str) (temp feels hum wind : pyval)
    (temp_text feels_text : str) :
  lookup (u"current") entries = Some (PDict current) ->
  lookup (u"weather") current = Some (PList (PDict first :: others)) ->
  lookup (u"description") first = Some (PStr description) ->
  lookup (u"temp") current = Some temp ->
  lookup (u"feels_like") current = Some feels ->
  lookup (u"humidity") current = Some hum ->
  lookup (u"wind_speed") current = Some wind ->
  format_1f W temp = inr temp_text ->
  format_1f W feels = inr feels_text ->
  summarise_onecall W (PDict entries) city_name
  = inr (u"Current weather in " ++ city_name ++ u": " ++ temp_text ++ degrees_c
           ++ u" (feels like " ++ feels_text ++ degrees_c ++ u"), "
           ++ u"humidity " ++ py_str W hum ++ u"%, " ++ capitalize description
           ++ u", wind " ++ py_str W wind ++ u" m/s.").
Proof.
  intros Hcur Hweather Hdesc Htemp Hfeels Hhum Hwind Hft Hff.
  unfold summarise_onecall, summarise_body.
  cbv beta iota delta [subscript_key rbind]. rewrite Hcur.
  cbv beta iota delta [subscript_key rbind]. rewrite Hweather.
  cbv beta iota delta [subscript_key subscript_zero rbind]. rewrite Hdesc.
  cbv beta iota delta [call_capitalize rbind].
  rewrite Htemp, Hfeels, Hhum, Hwind.
  cbv beta iota. rewrite Hft. cbv beta iota. rewrite Hff. reflexivity.
Qed.

Lemma summarise_onecall_sentence_witness :
  summarise_onecall test_world stub_report (u"Hyderabad")
  = inr (u"Current weather in " ++ u"Hyderabad" ++ u": " ++ u"25.0" ++ degrees_c
           ++ u" (feels like " ++ u"26.0" ++ degrees_c ++ u"), "
           ++ u"humidity " ++ py_str test_world (PInt 70) ++ u"%, "
           ++ capitalize (u"clear sky")
           ++ u", wind " ++ py_str test_world (PInt 4) ++ u" m/s.").
Proof.
  apply (@summarise_onecall_sentence test_world (u"Hyderabad")
           [(u"current",
             PDict [ (u"temp", PInt 25); (u"feels_like", PInt 26);
                     (u"humidity", PInt 70); (u"wind_speed", PInt 4);
                     (u"weather",
                      PList [PDict [(u"description", PStr (u"clear sky"))]]) ])]
           [ (u"temp", PInt 25); (u"feels_like", PInt 26);
             (u"humidity", PInt 70); (u"wind_speed", PInt 4);
             (u"weather",
              PList [PDict [(u"description", PStr (u"clear sky"))]]) ]
           [(u"description", PStr (u"clear sky"))] []
           (u"clear sky") (PInt 25) (PInt 26) (PInt 70) (PInt 4)
           (u"25.0") (u"26.0"));
    vm_compute; reflexivity.
Defined.

(* ================================================================== *)
(** ** Whole runs *)

Section WholeRuns.

Variable W : World.

Lemma fetch_weather_for_city_events q d h log :
  exists evs,
    snd (fetch_weather_for_city W q d h log) = log ++ evs
    /\ filter is_http_call evs = evs
    /\ filter is_llm_call evs = []
    /\ filter is_search_call evs = []
    /\ filter is_write evs = []
    /\ (1 <= List.length evs <= 2)%nat.
Proof.
  pose proof (fetch_weather_for_city_cases W q d h log) as H. cbv zeta in H.
  destruct (http_get_json W (geocode_url W (extract_city_name q d) h))
    as [e|data].
  { rewrite H. eexists. split; [reflexivity|]. simpl. repeat split; lia. }
  destruct (geocode_coordinates W (extract_city_name q d) h data)
    as [e|coords].
  { rewrite H. eexists. split; [reflexivity|]. simpl. repeat split; lia. }
  rewrite H. eexists. split; [reflexivity|]. simpl. repeat split; lia.
Qed.

(** A run that completes, step by step: the decision reply, the branch
    taken with what it did ([mid]) and the context it produced, and the
    answer reply. *)
Lemma invoke_completed q log st' log' :
  invoke W q log = (inr st', log') ->
  exists reply1 r b mid c reply2,
    llm_invoke W (decision_messages (initial_state q)) = inr reply1
    /\ ((contains (u"weather") (lower (strip (or_empty reply1))) = true
         /\ r = u"weather" /\ b = Weather
         /\ snd (fetch_weather_for_city W q (u"Hyderabad") (u"IN")
                   (log ++ [EvLlm (decision_messages (initial_state q));
                            EvWrite Decision FRoute r]))
            = (log ++ [EvLlm (decision_messages (initial_state q));
                       EvWrite Decision FRoute r]) ++ mid
         /\ c = match fst (fetch_weather_for_city W q (u"Hyderabad") (u"IN")
                             (log ++ [EvLlm (decision_messages (initial_state q));
                                      EvWrite Decision FRoute r])) with
                | inr summary => summary
                | inl ex => fetch_apology ex
                end
         /\ filter is_http_call mid = mid
         /\ (1 <= List.length mid <= 2)%nat)
        \/ (contains (u"weather") (lower (strip (or_empty reply1))) = false
            /\ r = u"pdf" /\ b = Rag
            /\ exists docs,
                 similarity_search W q 5 = inr docs
                 /\ mid = [EvSearch q 5]
                 /\ c = join blank_line (map page_content docs)))
    /\ llm_invoke W [SystemMessage (system_prompt c); HumanMessage q]
       = inr reply2
    /\ st' = {| question := q; route := Some r; context := Some c;
                answer := Some (strip (or_empty reply2)) |}
    /\ log' = log ++ [EvLlm (decision_messages (initial_state q));
                      EvWrite Decision FRoute r]
                  ++ mid
                  ++ [EvWrite b FContext c; EvWrite b FRoute r;
                      EvLlm [SystemMessage (system_prompt c); HumanMessage q];
                      EvWrite Answer FAnswer (strip (or_empty reply2))].
Proof.
  intros H. unfold invoke, recursion_limit in H.
  rewrite run_decision in H.
  destruct (llm_invoke W (decision_messages (initial_state q)))
    as [e|reply1]; [discriminate|].
  exists reply1.
  destruct (contains (u"weather") (lower (strip (or_empty reply1)))) eqn:Ew.
  - rewrite run_weather in H. cbv zeta in H.
    destruct (fetch_weather_for_city_events
                (question (merge (initial_state q) [(FRoute, u"weather")]))
                (u"Hyderabad") (u"IN")
                (log ++ [EvLlm (decision_messages (initial_state q));
                         EvWrite Decision FRoute (u"weather")]))
      as (mid & Hlog & Hhttp & _ & _ & _ & Hlen).
    rewrite run_answer in H.
    match type of H with
    | context [llm_invoke W ?m] =>
        destruct (llm_invoke W m) as [e|reply2] eqn:E2
    end; [discriminate|].
    injection H as <- <-.
    eexists (u"weather"), Weather, mid, _, reply2.
    split; [reflexivity|].
    split.
    { left. split; [reflexivity|]. split; [reflexivity|].
      split; [reflexivity|]. split; [exact Hlog|].
      split; [reflexivity|]. split; [exact Hhttp | exact Hlen]. }
    split; [exact E2|]. split; [reflexivity|].
    change (question (merge (initial_state q) [(FRoute, u"weather")]))
      with q in Hlog.
    change (question (merge (initial_state q) [(FRoute, u"weather")])) with q.
    rewrite Hlog, <- !app_assoc. reflexivity.
  - rewrite run_rag in H.
    change (question (merge (initial_state q) [(FRoute, u"pdf")])) with q in H.
    destruct (similarity_search W q 5) as [e|docs] eqn:Es; [discriminate|].
    cbv zeta in H. rewrite run_answer in H.
    match type of H with
    | context [llm_invoke W ?m] =>
        destruct (llm_invoke W m) as [e|reply2] eqn:E2
    end; [discriminate|].
    injection H as <- <-.
    eexists (u"pdf"), Rag, [EvSearch q 5], _, reply2.
    split; [reflexivity|].
    split.
    { right. split; [reflexivity|]. split; [reflexivity|].
      split; [reflexivity|]. exists docs. repeat split; reflexivity. }
    split; [exact E2|]. split; [reflexivity|].
    rewrite <- !app_assoc. reflexivity.
Qed.

(** A run that fails, step by step. *)
Lemma invoke_failed q log e log' :
  invoke W q log = (inl e, log') ->
  (llm_invoke W (decision_messages (initial_state q)) = inl e
   /\ log' = log ++ [EvLlm (decision_messages (initial_state q))])
  \/ (exists reply1,
        llm_invoke W (decision_messages (initial_state q)) = inr reply1
        /\ contains (u"weather") (lower (strip (or_empty reply1))) = false
        /\ similarity_search W q 5 = inl e
        /\ log' = log ++ [EvLlm (decision_messages (initial_state q));
                          EvWrite Decision FRoute (u"pdf"); EvSearch q 5])
  \/ (exists c rest,
        llm_invoke W [SystemMessage (system_prompt c); HumanMessage q] = inl e
        /\ log' = rest ++ [EvLlm [SystemMessage (system_prompt c);
                                  HumanMessage q]]).
Proof.
  intros H. unfold invoke, recursion_limit in H.
  rewrite run_decision in H.
  destruct (llm_invoke W (decision_messages (initial_state q)))
    as [e1|reply1] eqn:E1.
  { left. apply pair_equal_spec in H. destruct H as [H1 H2].
    apply result_error_inj in H1. subst. auto. }
  right.
  destruct (contains (u"weather") (lower (strip (or_empty reply1)))) eqn:Ew.
  - right. rewrite run_weather in H. cbv zeta in H.
    rewrite run_answer in H.
    match type of H with
    | context [llm_invoke W ?m] =>
        destruct (llm_invoke W m) as [e2|reply2] eqn:E2
    end; [|discriminate].
    apply pair_equal_spec in H. destruct H as [H1 H2].
    apply result_error_inj in H1. subst.
    do 2 eexists. split; [exact E2 | reflexivity].
  - rewrite run_rag in H.
    change (question (merge (initial_state q) [(FRoute, u"pdf")])) with q in H.
    destruct (similarity_search W q 5) as [e2|docs] eqn:Es.
    + left. exists reply1. apply pair_equal_spec in H. destruct H as [H1 H2].
      apply result_error_inj in H1. subst.
      rewrite <- app_assoc. auto.
    + right. cbv zeta in H. rewrite run_answer in H.
      match type of H with
      | context [llm_invoke W ?m] =>
          destruct (llm_invoke W m) as [e2|reply2] eqn:E2
      end; [|discriminate].
      apply pair_equal_spec in H. destruct H as [H1 H2].
      apply result_error_inj in H1. subst.
      do 2 eexists. split; [exact E2 | reflexivity].
Qed.

End WholeRuns.

(** X10.  A run of the pipeline can fail in three ways only: the decision
    call to the language model raises, the vector store raises on the
    retrieval route, or the answer call to the language model raises.  The
    error is passed on unchanged; the weather provider and the conditional
    edge never make a run fail. *)
Theorem invoke_failure_sources (W : World) (q : str) (log log' : list event)
    (e : exn) :
  invoke W q log = (inl e, log') ->
  llm_invoke W (decision_messages (initial_state q)) = inl e
  \/ similarity_search W q 5 = inl e
  \/ exists c,
       llm_invoke W [SystemMessage (system_prompt c); HumanMessage q] = inl e.
Proof.
  intros H. apply invoke_failed in H.
  destruct H as [[H _] | [(r & _ & _ & H & _) | (c & rest & H & _)]]; eauto.
Qed.

Lemma invoke_failure_sources_witness :
  invoke storeless_world (u"What is the capital of France?") []
  = (inl (Exn (OtherError (u"ResponseHandlingException"))
            (u"Connection refused")),
     [EvLlm (decision_messages (initial_state (u"What is the capital of France?")));
      EvWrite Decision FRoute (u"pdf");
      EvSearch (u"What is the capital of France?") 5])
  /\ similarity_search storeless_world (u"What is the capital of France?") 5
     = inl (Exn (OtherError (u"ResponseHandlingException"))
              (u"Connection refused")).
Proof.
  assert (H : invoke storeless_world (u"What is the capital of France?") []
              = (inl (Exn (OtherError (u"ResponseHandlingException"))
                        (u"Connection refused")),
                 [EvLlm (decision_messages
                           (initial_state (u"What is the capital of France?")));
                  EvWrite Decision FRoute (u"pdf");
                  EvSearch (u"What is the capital of France?") 5]))
    by (vm_compute; reflexivity).
  split; [exact H|].
  destruct (invoke_failure_sources _ _ _ H) as [H1 | [H1 | (c & H1)]].
  - exfalso. vm_compute in H1. discriminate.
  - exact H1.
  - exfalso. unfold storeless_world, llm_invoke, FakeModel_invoke in H1.
    cbn [rev app message_content] in H1.
    destruct (contains (u"weather")
                (lower (u"What is the capital of France?"))); discriminate.
Defined.

(** X11.  If the language model answers every pair of a system and a human
    message and the vector store answers every query, the pipeline
    completes for every question, whatever the weather provider does, and
    the final state has its four fields set. *)
Theorem invoke_completes (W : World) (q : str) (log : list event) :
  (forall system human,
     exists reply,
       llm_invoke W [SystemMessage system; HumanMessage human] = inr reply) ->
  (forall query, exists docs, similarity_search W query 5 = inr docs) ->
  exists st log' r c a,
    invoke W q log = (inr st, log')
    /\ st = {| question := q; route := Some r; context := Some c;
               answer := Some a |}
    /\ (r = u"weather" \/ r = u"pdf").
Proof.
  intros Hllm Hsearch.
  destruct (invoke W q log) as [[e|st] log'] eqn:H.
  - exfalso. apply invoke_failed in H.
    destruct H as [[H _] | [(r & _ & _ & H & _) | (c & rest & H & _)]].
    + destruct (Hllm classifier_prompt q) as (reply & Hr).
      unfold decision_messages in H. cbn [question initial_state] in H.
      rewrite Hr in H. discriminate.
    + destruct (Hsearch q) as (docs & Hd). rewrite Hd in H. discriminate.
    + destruct (Hllm (system_prompt c) q) as (reply & Hr).
      rewrite Hr in H. discriminate.
  - apply invoke_completed in H.
    destruct H as (reply1 & r & b & mid & c & reply2 & _ & Hb & _ & Hst & _).
    exists st, log', r, c, (strip (or_empty reply2)).
    split; [reflexivity|]. split; [exact Hst|].
    destruct Hb as [(_ & -> & _) | (_ & -> & _)]; auto.
Qed.

Lemma invoke_completes_witness :
  exists st log' r c a,
    invoke offline_world (u"What is the weather in Paris?") [] = (inr st, log')
    /\ st = {| question := u"What is the weather in Paris?";
               route := Some r; context := Some c; answer := Some a |}
    /\ (r = u"weather" \/ r = u"pdf").
Proof.
  apply (@invoke_completes offline_world (u"What is the weather in Paris?") []).
  - intros system human. unfold offline_world, with_http, llm_invoke.
    unfold test_world, FakeModel_invoke. cbn [rev app message_content].
    destruct (contains (u"weather") (lower human)); eexists; reflexivity.
  - intros query. eexists. reflexivity.
Defined.

(** X12.  In a run that completes the language model is called exactly
    twice.  On the retrieval route the vector store is asked once, with the
    question and [k = 5], and the weather provider is never contacted; on
    the weather route the provider gets one or two requests and the vector
    store is never asked. *)
Theorem pipeline_calls (W : World) (q : str) (log : list event)
    (st' : GraphState) (log' : list event) :
  invoke W q log = (inr st', log') ->
  exists evs,
    log' = log ++ evs
    /\ List.length (filter is_llm_call evs) = 2%nat
    /\ (route st' = Some (u"pdf") ->
        filter is_search_call evs = [EvSearch q 5]
        /\ filter is_http_call evs = [])
    /\ (route st' = Some (u"weather") ->
        filter is_search_call evs = []
        /\ (1 <= List.length (filter is_http_call evs) <= 2)%nat).
Proof.
  intros H. apply invoke_completed in H.
  destruct H as (reply1 & r & b & mid & c & reply2 & _ & Hb & _ & Hst & Hlog).
  eexists. split; [exact Hlog|].
  destruct Hb as [(_ & -> & -> & Hmid & _ & Hhttp & Hlen)
                 | (_ & -> & -> & docs & _ & -> & _)].
  - assert (Hl : filter is_llm_call mid = []).
    { rewrite <- Hhttp. clear. induction mid as [|ev m IH]; [reflexivity|].
      destruct ev; simpl; auto. }
    assert (Hs : filter is_search_call mid = []).
    { rewrite <- Hhttp. clear. induction mid as [|ev m IH]; [reflexivity|].
      destruct ev; simpl; auto. }
    rewrite !filter_app, Hl, Hs, Hhttp. cbn [filter is_llm_call is_search_call
      is_http_call app List.length].
    split; [reflexivity|]. subst st'. cbn [route].
    split.
    + intros Hr. exfalso. vm_compute in Hr. discriminate.
    + intros _. split; [reflexivity|]. rewrite app_nil_r. exact Hlen.
  - cbn. split; [reflexivity|]. subst st'. cbn [route].
    split.
    + intros _. split; reflexivity.
    + intros Hr. exfalso. vm_compute in Hr. discriminate.
Qed.

Lemma pipeline_calls_witness :
  exists st log',
    invoke test_world (u"What is the capital of France?") [] = (inr st, log')
    /\ exists evs,
         log' = [] ++ evs
         /\ List.length (filter is_llm_call evs) = 2%nat.
Proof.
  destruct (invoke test_world (u"What is the capital of France?") [])
    as [[e|st] log'] eqn:H.
  - exfalso. vm_compute in H. discriminate.
  - exists st, log'. split; [reflexivity|].
    destruct (pipeline_calls _ _ _ H) as (evs & Hlog & Hllm & _).
    exists evs. split; [exact Hlog | exact Hllm].
Defined.

(** X13.  When the vector store raises on the retrieval route, the run stops
    there with that error: Route has been written, no context and no answer
    are, and the language model is not called a second time. *)
Theorem invoke_retrieval_failure (W : World) (q : str) (log : list event)
    (reply : option str) (e : exn) :
  llm_invoke W (decision_messages (initial_state q)) = inr reply ->
  contains (u"weather") (lower (strip (or_empty reply))) = false ->
  similarity_search W q 5 = inl e ->
  invoke W q log
  = (inl e, log ++ [EvLlm (decision_messages (initial_state q));
                    EvWrite Decision FRoute (u"pdf"); EvSearch q 5]).
Proof.
  intros Hreply Hroute Hsearch. unfold invoke, recursion_limit.
  rewrite run_decision, Hreply, Hroute, run_rag.
  change (question (merge (initial_state q) [(FRoute, u"pdf")])) with q.
  rewrite Hsearch, <- app_assoc. reflexivity.
Qed.

Lemma invoke_retrieval_failure_witness :
  invoke storeless_world (u"What is the capital of France?") []
  = (inl (Exn (OtherError (u"ResponseHandlingException"))
            (u"Connection refused")),
     [] ++ [EvLlm (decision_messages
                     (initial_state (u"What is the capital of France?")));
            EvWrite Decision FRoute (u"pdf");
            EvSearch (u"What is the capital of France?") 5]).
Proof.
  apply (@invoke_retrieval_failure storeless_world
           (u"What is the capital of France?") []
           (Some (u"Paris is the capital of France."))).
  - vm_compute. reflexivity.
  - vm_compute. reflexivity.
  - reflexivity.
Defined.

(** X14.  In a run that completes, the answer call carries the system
    instruction built from the context the branch stored, and the stored
    answer is the stripped reply to that call; a context that is not blank
    is quoted in the instruction word for word. *)
Theorem pipeline_answer_uses_context (W : World) (q : str) (log : list event)
    (st' : GraphState) (log' : list event) :
  invoke W q log = (inr st', log') ->
  exists c reply,
    context st' = Some c
    /\ In (EvLlm [SystemMessage (system_prompt c); HumanMessage q]) log'
    /\ llm_invoke W [SystemMessage (system_prompt c); HumanMessage q]
       = inr reply
    /\ answer st' = Some (strip (or_empty reply))
    /\ (strip c <> [] -> contains c (system_prompt c) = true)
    /\ (strip c = [] -> system_prompt c = plain_prompt).
Proof.
  intros H. apply invoke_completed in H.
  destruct H as (reply1 & r & b & mid & c & reply2 & _ & _ & Hllm & Hst & Hlog).
  exists c, reply2. subst st'. cbn [context answer].
  split; [reflexivity|]. split.
  { rewrite Hlog. apply in_or_app. right. apply in_or_app. right.
    apply in_or_app. right. simpl. auto. }
  split; [exact Hllm|]. split; [reflexivity|]. split.
  - intros Hc. unfold system_prompt.
    destruct (strip c); [contradiction|]. apply context_prompt_quotes.
  - intros Hc. unfold system_prompt. rewrite Hc. reflexivity.
Qed.

Lemma pipeline_answer_uses_context_witness :
  exists st log',
    invoke offline_world (u"What is the weather in Paris?") [] = (inr st, log')
    /\ exists c reply,
         context st = Some c
         /\ In (EvLlm [SystemMessage (system_prompt c);
                       HumanMessage (u"What is the weather in Paris?")]) log'
         /\ llm_invoke offline_world
              [SystemMessage (system_prompt c);
               HumanMessage (u"What is the weather in Paris?")] = inr reply.
Proof.
  destruct (invoke offline_world (u"What is the weather in Paris?") [])
    as [[e|st] log'] eqn:H.
  - exfalso. vm_compute in H. discriminate.
  - exists st, log'. split; [reflexivity|].
    destruct (pipeline_answer_uses_context _ _ _ H)
      as (c & reply & H1 & H2 & H3 & _).
    exists c, reply. auto.
Defined.

(** X15.  On the retrieval route, when the vector store finds nothing, or
    only blank passages, the language model is asked without any context:
    the system instruction is the plain one. *)
Theorem invoke_blank_retrieval (W : World) (q : str) (log : list event)
    (reply : option str) (docs : list Document) :
  llm_invoke W (decision_messages (initial_state q)) = inr reply ->
  contains (u"weather") (lower (strip (or_empty reply))) = false ->
  similarity_search W q 5 = inr docs ->
  strip (join blank_line (map page_content docs)) = [] ->
  exists rest,
    snd (invoke W q log)
    = log ++ [EvLlm (decision_messages (initial_state q));
              EvWrite Decision FRoute (u"pdf"); EvSearch q 5;
              EvWrite Rag FContext (join blank_line (map page_content docs));
              EvWrite Rag FRoute (u"pdf");
              EvLlm [SystemMessage plain_prompt; HumanMessage q]] ++ rest.
Proof.
  intros Hreply Hroute Hsearch Hblank. unfold invoke, recursion_limit.
  rewrite run_decision, Hreply, Hroute, run_rag.
  change (question (merge (initial_state q) [(FRoute, u"pdf")])) with q.
  rewrite Hsearch. cbv zeta. rewrite run_answer.
  match goal with
  | |- context [answer_messages ?st] =>
      assert (Hm : answer_messages st
                   = [SystemMessage plain_prompt; HumanMessage q])
  end.
  { unfold answer_messages. cbn [merge fold_left set_field fst snd context
      question initial_state or_empty].
    unfold system_prompt. rewrite Hblank. reflexivity. }
  rewrite Hm.
  destruct (llm_invoke W [SystemMessage plain_prompt; HumanMessage q]);
    cbn [snd]; rewrite <- !app_assoc; eexists; cbn [app]; reflexivity.
Qed.

Lemma invoke_blank_retrieval_witness :
  exists rest,
    snd (invoke empty_store_world (u"What is the capital of France?") [])
    = [] ++ [EvLlm (decision_messages
                      (initial_state (u"What is the capital of France?")));
             EvWrite Decision FRoute (u"pdf");
             EvSearch (u"What is the capital of France?") 5;
             EvWrite Rag FContext (join blank_line (map page_content []));
             EvWrite Rag FRoute (u"pdf");
             EvLlm [SystemMessage plain_prompt;
                    HumanMessage (u"What is the capital of France?")]] ++ rest.
Proof.
  apply (@invoke_blank_retrieval empty_store_world
           (u"What is the capital of France?") []
           (Some (u"Paris is the capital of France.")) []).
  - vm_compute. reflexivity.
  - vm_compute. reflexivity.
  - reflexivity.
  - reflexivity.
Defined.

(* ================================================================== *)
(** ** What the retrieved context holds *)

Lemma join_contains (sep p : str) (parts : list str) :
  In p parts -> contains p (join sep parts) = true.
Proof.
  induction parts as [|p0 rest IH]; intros Hin; [contradiction|].
  destruct rest as [|p1 rest'].
  - destruct Hin as [->|[]]. apply (contains_suffix []).
  - change (join sep (p0 :: p1 :: rest'))
      with (p0 ++ sep ++ join sep (p1 :: rest')).
    destruct Hin as [->|Hin].
    + apply contains_app_l. apply (contains_suffix []).
    + do 2 apply contains_app_r. apply IH. exact Hin.
Qed.

Lemma join_length (sep : str) (parts : list str) :
  (List.length (join sep parts) + List.length sep
   = list_sum (map (@List.length N) parts)
     + List.length sep * List.length parts
     + (match parts with [] => List.length sep | _ => 0 end))%nat.
Proof.
  induction parts as [|p0 rest IH]; [simpl; lia|].
  destruct rest as [|p1 rest'].
  - simpl. lia.
  - change (join sep (p0 :: p1 :: rest'))
      with (p0 ++ sep ++ join sep (p1 :: rest')).
    rewrite !length_app. cbn [map list_sum fold_right List.length] in *. lia.
Qed.

(** X16.  Nothing the vector store returns is dropped or cut: the text of
    every returned document occurs in the context, and the context is as
    long as all the texts together plus two characters between each two
    neighbours. *)
Theorem retrieve_context_keeps_all (W : World) (query : str) (k : Z)
    (docs : list Document) (log : list event) :
  similarity_search W query k = inr docs ->
  exists text,
    fst (retrieve_context W query k log) = inr text
    /\ (forall d, In d docs -> contains (page_content d) text = true)
    /\ (docs <> [] ->
        List.length text
        = (list_sum (map (fun d => List.length (page_content d)) docs)
           + 2 * (List.length docs - 1))%nat).
Proof.
  intros Hdocs. rewrite retrieve_context_run, Hdocs. cbn [fst].
  eexists. split; [reflexivity|]. split.
  - intros d Hd. apply join_contains. apply in_map. exact Hd.
  - intros Hne.
    pose proof (join_length blank_line (map page_content docs)) as H.
    rewrite map_map, length_map in H.
    destruct docs as [|d0 rest]; [contradiction|].
    cbn [map List.length blank_line] in *. lia.
Qed.

Lemma retrieve_context_keeps_all_witness :
  exists text,
    fst (retrieve_context test_world (u"What is the capital of France?") 5 [])
    = inr text
    /\ contains (u"Paris is the capital of France.") text = true.
Proof.
  destruct (@retrieve_context_keeps_all test_world
              (u"What is the capital of France?") 5
              [ {| page_content := u"Paris is the capital of France." |} ] [])
    as (text & Hrun & Hall & _).
  - vm_compute. reflexivity.
  - exists text. split; [exact Hrun|].
    apply (Hall {| page_content := u"Paris is the capital of France." |}).
    left. reflexivity.
Defined.

(* ================================================================== *)
(** ** The chat page *)

(** X17.  What the page shows for a completed run: the answer, unless the
    model's reply was blank, in which case the context (the weather summary
    or the retrieved passages) is shown instead. *)
Theorem display_text_of_run (W : World) (q : str) (log : list event)
    (st' : GraphState) (log' : list event) :
  invoke W q log = (inr st', log') ->
  exists c a,
    context st' = Some c /\ answer st' = Some a
    /\ (a <> [] -> display_text st' = a)
    /\ (a = [] -> display_text st' = c).
Proof.
  intros H. apply invoke_completed in H.
  destruct H as (reply1 & r & b & mid & c & reply2 & _ & _ & _ & -> & _).
  exists c, (strip (or_empty reply2)).
  unfold display_text. cbn [context answer or_empty].
  split; [reflexivity|]. split; [reflexivity|]. split.
  - intros Ha. destruct (strip (or_empty reply2)); [contradiction|reflexivity].
  - intros ->. cbn [truthy]. apply or_empty_string.
Qed.

Lemma display_text_of_run_witness :
  exists st log',
    invoke test_world (u"What is the capital of France?") [] = (inr st, log')
    /\ exists c a, context st = Some c /\ answer st = Some a.
Proof.
  destruct (invoke test_world (u"What is the capital of France?") [])
    as [[e|st] log'] eqn:H.
  - exfalso. vm_compute in H. discriminate.
  - exists st, log'. split; [reflexivity|].
    destruct (@display_text_of_run _ _ _ _ _ H) as (c & a & Hc & Ha & _).
    exists c, a. auto.
Defined.

(** X18.  One run of the chat script.  The page always shows exactly the
    stored history.  Without a prompt nothing is stored and the pipeline is
    not run.  With a prompt the history grows by the question and, when the
    pipeline completes, by the text shown for its result; when the pipeline
    raises, the question stays in the history without a reply. *)
Theorem main_history (W : World) (stored : option (list chat_entry))
    (prompt : option str) :
  drawn (main W stored prompt) = stored_history (main W stored prompt)
  /\ (truthy (or_empty prompt) = false ->
      stored_history (main W stored prompt)
      = match stored with Some h => h | None => [] end
      /\ calls (main W stored prompt) = []
      /\ outcome (main W stored prompt) = inr tt)
  /\ (truthy (or_empty prompt) = true ->
      calls (main W stored prompt) = snd (invoke W (or_empty prompt) [])
      /\ (forall st, fst (invoke W (or_empty prompt) []) = inr st ->
            stored_history (main W stored prompt)
            = match stored with Some h => h | None => [] end
                ++ [(u"human", or_empty prompt); (u"ai", display_text st)]
            /\ outcome (main W stored prompt) = inr tt)
      /\ (forall e, fst (invoke W (or_empty prompt) []) = inl e ->
            stored_history (main W stored prompt)
            = match stored with Some h => h | None => [] end
                ++ [(u"human", or_empty prompt)]
            /\ outcome (main W stored prompt) = inl e)).
Proof.
  unfold main.
  destruct (truthy (or_empty prompt)) eqn:Ep.
  - destruct (invoke W (or_empty prompt) []) as [[e|st] log] eqn:Hrun;
      cbn [drawn stored_history calls outcome fst snd].
    + split; [reflexivity|]. split; [discriminate|]. intros _.
      split; [reflexivity|]. split.
      * intros st H. discriminate.
      * intros e' H. apply result_error_inj in H. subst. auto.
    + split; [reflexivity|]. split; [discriminate|]. intros _.
      split; [reflexivity|]. split.
      * intros st0 H. apply result_ok_inj in H. subst.
        rewrite <- app_assoc. auto.
      * intros e' H. discriminate.
  - cbn [drawn stored_history calls outcome].
    split; [reflexivity|]. split; [auto | discriminate].
Qed.

Lemma main_history_witness :
  truthy (or_empty (Some (u"What is the capital of France?"))) = true
  /\ exists st,
       fst (invoke test_world
              (or_empty (Some (u"What is the capital of France?"))) [])
       = inr st
       /\ stored_history
            (main test_world None (Some (u"What is the capital of France?")))
          = [] ++ [(u"human", or_empty (Some (u"What is the capital of France?")));
                   (u"ai", display_text st)].
Proof.
  split; [reflexivity|].
  destruct (invoke test_world
              (or_empty (Some (u"What is the capital of France?"))) [])
    as [[e|st] log'] eqn:H.
  - exfalso. vm_compute in H. discriminate.
  - exists st. split; [reflexivity|].
    destruct (proj2 (proj2 (main_history test_world None
                              (Some (u"What is the capital of France?"))))
                eq_refl) as (_ & Hok & _).
    apply Hok. rewrite H. reflexivity.
Defined.

(* ================================================================== *)
(** ** Loading the PDF and building the store *)

Section IngestFacts.

Lemma load_pages_app i pages acc :
  load_pages i pages acc = acc ++ load_pages i pages [].
Proof.
  revert i acc. induction pages as [|page rest IH]; intros i acc.
  - simpl. rewrite app_nil_r. reflexivity.
  - cbn [load_pages]. rewrite IH. rewrite (IH (S i) ([] ++ _)).
    rewrite <- app_assoc. reflexivity.
Qed.

Lemma load_pages_length i pages acc :
  List.length (load_pages i pages acc)
  = (List.length acc + List.length pages)%nat.
Proof.
  revert i acc. induction pages as [|page rest IH]; intros i acc; simpl.
  - lia.
  - rewrite IH, length_app. simpl. lia.
Qed.

Lemma load_pages_nth pages :
  forall i j page,
    nth_error pages j = Some page ->
    nth_error (load_pages i pages []) j
    = Some ({| page_content :=
                 match page with
                 | inr extracted => or_empty extracted
                 | inl _ => []
                 end |}, (i + j)%nat).
Proof.
  induction pages as [|p rest IH]; intros i j page Hj.
  - destruct j; discriminate.
  - cbn [load_pages]. rewrite load_pages_app. cbn [app].
    destruct j as [|j'].
    + injection Hj as ->. cbn [nth_error]. rewrite Nat.add_0_r. reflexivity.
    + cbn [nth_error] in *. rewrite (IH (S i) j' page Hj).
      do 2 f_equal. lia.
Qed.

End IngestFacts.

(** X19.  [load_pdf_documents] gives one document per page, in page order,
    each carrying its page number; a page whose text extraction raises, or
    yields nothing, gives a document with empty text rather than an error or
    a missing entry.  Only opening the file can make it fail. *)
Theorem load_pdf_documents_pages (pdf_reader : str -> result (list pdf_page))
    (pdf_path : str) (pages : list pdf_page) :
  pdf_reader pdf_path = inr pages ->
  exists docs,
    load_pdf_documents pdf_reader pdf_path = inr docs
    /\ List.length docs = List.length pages
    /\ (forall i page,
          nth_error pages i = Some page ->
          exists text,
            nth_error docs i = Some ({| page_content := text |}, i)
            /\ (forall e, page = inl e -> text = [])
            /\ (page = inr None -> text = [])
            /\ (forall t, page = inr (Some t) -> text = t)).
Proof.
  intros Hopen. unfold load_pdf_documents. rewrite Hopen.
  eexists. split; [reflexivity|]. split; [apply load_pages_length|].
  intros i page Hi. eexists. split.
  - rewrite (load_pages_nth pages 0 i Hi). reflexivity.
  - split; [intros e ->; reflexivity|].
    split; [intros ->; reflexivity | intros t ->; reflexivity].
Qed.

Lemma load_pdf_documents_pages_witness :
  load_pdf_documents three_pages (u"data/sample.pdf")
  = inr [ ({| page_content := u"The Eiffel Tower is in Paris." |}, 0%nat);
          ({| page_content := [] |}, 1%nat);
          ({| page_content := [] |}, 2%nat) ]
  /\ exists docs,
       load_pdf_documents three_pages (u"data/sample.pdf") = inr docs
       /\ List.length docs = 3%nat.
Proof.
  split; [vm_compute; reflexivity|].
  destruct (@load_pdf_documents_pages three_pages (u"data/sample.pdf") _
              eq_refl) as (docs & Hrun & Hlen & _).
  exists docs. split; [exact Hrun | exact Hlen].
Defined.

(** X20.  [create_qdrant_vector_store]: with a server URL the collection is
    built on the server, no directory is created and [persist_path] is
    ignored, an empty API key counting as none; with neither URL nor path
    it raises [ValueError] before doing anything; with a path only, the
    directory is created first, and nothing is built if that fails. *)
Theorem create_qdrant_vector_store_modes (vector_store : Type)
    (makedirs : str -> result unit)
    (from_documents : list Document -> store_target -> str -> result vector_store)
    (splits : list Document) (collection_name : str)
    (persist_path qdrant_url qdrant_api_key : option str) :
  (truthy (or_empty qdrant_url) = true ->
   create_qdrant_vector_store makedirs from_documents splits collection_name
     persist_path qdrant_url qdrant_api_key
   = (from_documents splits
        (RemoteStore (or_empty qdrant_url) (or_none qdrant_api_key))
        collection_name,
      [EvFromDocuments
         (RemoteStore (or_empty qdrant_url) (or_none qdrant_api_key))
         collection_name splits])
   /\ (qdrant_api_key = Some [] -> or_none qdrant_api_key = None))
  /\ (truthy (or_empty qdrant_url) = false ->
      truthy (or_empty persist_path) = false ->
      create_qdrant_vector_store makedirs from_documents splits collection_name
        persist_path qdrant_url qdrant_api_key
      = (inl (Exn ValueError
                (u"persist_path is required for local Qdrant mode")), []))
  /\ (truthy (or_empty qdrant_url) = false ->
      truthy (or_empty persist_path) = true ->
      (forall e, makedirs (or_empty persist_path) = inl e ->
         create_qdrant_vector_store makedirs from_documents splits
           collection_name persist_path qdrant_url qdrant_api_key
         = (inl e, [EvMakedirs (or_empty persist_path)]))
      /\ (makedirs (or_empty persist_path) = inr tt ->
          create_qdrant_vector_store makedirs from_documents splits
            collection_name persist_path qdrant_url qdrant_api_key
          = (from_documents splits (LocalStore (or_empty persist_path))
               collection_name,
             [EvMakedirs (or_empty persist_path);
              EvFromDocuments (LocalStore (or_empty persist_path))
                collection_name splits]))).
Proof.
  unfold create_qdrant_vector_store.
  split.
  { intros Hurl. rewrite Hurl. split; [reflexivity | intros ->; reflexivity]. }
  split.
  { intros Hurl Hpath. rewrite Hurl, Hpath. reflexivity. }
  intros Hurl Hpath. rewrite Hurl, Hpath. cbn [negb]. split.
  - intros e He. rewrite He. reflexivity.
  - intros Hok. rewrite Hok. reflexivity.
Qed.

Lemma create_qdrant_vector_store_modes_witness :
  create_qdrant_vector_store (fun _ => inr tt)
    (fun docs _ _ => inr (List.length docs)) [] (u"pdf_collection")
    None (Some []) None
  = (inl (Exn ValueError (u"persist_path is required for local Qdrant mode")),
     [])
  /\ create_qdrant_vector_store (fun _ => inr tt)
       (fun docs _ _ => inr (List.length docs)) [] (u"pdf_collection")
       (Some (u"data/qdrant")) (Some (u"http://localhost:6333")) (Some [])
     = (inr 0%nat,
        [EvFromDocuments
           (RemoteStore (or_empty (Some (u"http://localhost:6333")))
              (or_none (Some [])))
           (u"pdf_collection") []]).
Proof.
  split.
  - apply (@create_qdrant_vector_store_modes nat (fun _ => inr tt)
             (fun docs _ _ => inr (List.length docs)) [] (u"pdf_collection")
             None (Some []) None); reflexivity.
  - apply (@create_qdrant_vector_store_modes nat (fun _ => inr tt)
             (fun docs _ _ => inr (List.length docs)) [] (u"pdf_collection")
             (Some (u"data/qdrant")) (Some (u"http://localhost:6333"))
             (Some [])).
    vm_compute. reflexivity.
Defined.

(* ================================================================== *)
(** ** The conditional edge *)

Lemma str_eqb_eq (a b : str) : str_eqb a b = true <-> a = b.
Proof.
  revert b. induction a as [|x a IH]; intros [|y b]; simpl;
    try (split; [discriminate | discriminate]); [tauto|].
  rewrite Bool.andb_true_iff, N.eqb_eq, IH.
  split; [intros [-> ->]; reflexivity | intros H; injection H; auto].
Qed.

Lemma str_eqb_neq (a b : str) : a <> b -> str_eqb a b = false.
Proof.
  intros H. destruct (str_eqb a b) eqn:E; [|reflexivity].
  apply str_eqb_eq in E. contradiction.
Qed.

(** X21.  After the decision step the graph goes to the weather node for
    Route "weather", to the retrieval node for Route "pdf", and raises a
    [KeyError] when Route is absent or is any other label; the two branch
    nodes lead to the answer node, and the answer node to the end. *)
Theorem conditional_edge (W : World) (st : GraphState) :
  (route st = None ->
   successor W Decision st
   = inl (Exn KeyError (py_repr W (PStr (u"route")))))
  /\ (route st = Some (u"weather") ->
      successor W Decision st = inr (Some Weather))
  /\ (route st = Some (u"pdf") -> successor W Decision st = inr (Some Rag))
  /\ (forall r, route st = Some r -> r <> u"weather" -> r <> u"pdf" ->
        successor W Decision st = inl (Exn KeyError (py_repr W (PStr r))))
  /\ successor W Weather st = inr (Some Answer)
  /\ successor W Rag st = inr (Some Answer)
  /\ successor W Answer st = inr None.
Proof.
  unfold successor, route_edge, edge_target, rbind.
  split; [intros ->; reflexivity|].
  split; [intros ->; reflexivity|].
  split; [intros ->; reflexivity|].
  split; [|repeat split].
  intros r -> H1 H2. rewrite (str_eqb_neq H1), (str_eqb_neq H2). reflexivity.
Qed.

Lemma conditional_edge_witness :
  successor test_world Decision (initial_state (u"What's up?"))
  = inl (Exn KeyError (py_repr test_world (PStr (u"route"))))
  /\ successor test_world Decision
       {| question := u"What's up?"; route := Some (u"maybe");
          context := None; answer := None |}
     = inl (Exn KeyError (py_repr test_world (PStr (u"maybe")))).
Proof.
  split.
  - apply (proj1 (conditional_edge test_world (initial_state (u"What's up?")))).
    reflexivity.
  - apply (proj1 (proj2 (proj2 (proj2
             (conditional_edge test_world
                {| question := u"What's up?"; route := Some (u"maybe");
                   context := None; answer := None |}))))).
    + reflexivity.
    + vm_compute. discriminate.
    + vm_compute. discriminate.
Defined.

(* ================================================================== *)
(** ** Whitespace around the classifier's reply *)

Section ReplyWhitespace.

Lemma contains_nil_hay (x : str) : x <> [] -> contains x [] = false.
Proof. destruct x; [contradiction | reflexivity]. Qed.

Lemma contains_lstrip (x0 : N) (x' s : str) :
  isspace x0 = false ->
  contains (x0 :: x') (lstrip s) = contains (x0 :: x') s.
Proof.
  intros Hx. induction s as [|c t IH]; [reflexivity|].
  cbn [lstrip]. destruct (isspace c) eqn:Ec; [|reflexivity].
  rewrite IH, (contains_unfold (x0 :: x') (c :: t)).
  cbn [startswith].
  destruct (N.eqb_spec x0 c) as [->|_]; [congruence | reflexivity].
Qed.

(** A word that does not end with [c] starts a text exactly when it starts
    the text followed by [c]. *)
Lemma startswith_snoc (c : N) (l : str) :
  forall x, x <> [] -> (forall x', x <> x' ++ [c]) ->
            startswith x (l ++ [c]) = startswith x l.
Proof.
  induction l as [|a l IH]; intros x Hne Hend.
  - destruct x as [|y x2]; [contradiction|]. cbn [app startswith].
    destruct x2 as [|y2 x3].
    + destruct (N.eqb_spec y c) as [->|_]; [|reflexivity].
      exfalso. apply (Hend []). reflexivity.
    + cbn [startswith]. apply Bool.andb_false_r.
  - destruct x as [|y x2]; [contradiction|]. cbn [app startswith].
    destruct x2 as [|y2 x3]; [reflexivity|].
    rewrite IH; [reflexivity | discriminate |].
    intros x' E. apply (Hend (y :: x')). rewrite E. reflexivity.
Qed.

Lemma contains_snoc (c : N) (x r : str) :
  x <> [] -> (forall x', x <> x' ++ [c]) ->
  contains x (r ++ [c]) = contains x r.
Proof.
  intros Hne Hend. induction r as [|a r IH].
  - cbn [app]. rewrite (contains_unfold x [c]). cbv iota.
    rewrite (@contains_nil_hay x Hne), Bool.orb_false_r.
    transitivity (startswith x []).
    + exact (@startswith_snoc c [] x Hne Hend).
    + destruct x; [contradiction | reflexivity].
  - rewrite (contains_unfold x (a :: r)). cbv iota.
    change ((a :: r) ++ [c]) with (a :: (r ++ [c])).
    rewrite (contains_unfold x (a :: (r ++ [c]))). cbv iota. rewrite IH.
    change (a :: (r ++ [c])) with ((a :: r) ++ [c]).
    rewrite (@startswith_snoc c (a :: r) x Hne Hend). reflexivity.
Qed.

Lemma lstrip_split (s : str) :
  exists blanks, s = blanks ++ lstrip s
                 /\ Forall (fun c => isspace c = true) blanks.
Proof.
  induction s as [|c t (blanks & E & Hb)]; [exists []; auto|].
  cbn [lstrip]. destruct (isspace c) eqn:Ec.
  - exists (c :: blanks). split; [cbn [app]; congruence | auto].
  - exists []. auto.
Qed.

Lemma rstrip_split (s : str) :
  exists blanks, s = rstrip s ++ blanks
                 /\ Forall (fun c => isspace c = true) blanks.
Proof.
  destruct (lstrip_split (rev s)) as (blanks & E & Hb).
  exists (rev blanks). split; [|apply Forall_rev; exact Hb].
  unfold rstrip. rewrite <- rev_app_distr, <- E, rev_involutive. reflexivity.
Qed.

Lemma contains_rstrip (x s : str) :
  x <> [] ->
  (forall x' c, isspace c = true -> x <> x' ++ [c]) ->
  contains x (rstrip s) = contains x s.
Proof.
  intros Hne Hend. destruct (rstrip_split s) as (blanks & E & Hb).
  rewrite E at 2. generalize (rstrip s) as r. clear E.
  induction Hb as [|c blanks Hc _ IH]; intros r.
  - rewrite app_nil_r. reflexivity.
  - change (r ++ c :: blanks) with (r ++ [c] ++ blanks).
    rewrite app_assoc, <- IH. symmetry.
    apply contains_snoc; [exact Hne|]. intros x'. apply Hend. exact Hc.
Qed.

(** Stripping cannot hide or reveal the word "weather". *)
Lemma contains_weather_strip (s : str) :
  contains (u"weather") (strip s) = contains (u"weather") s.
Proof.
  unfold strip. rewrite contains_rstrip.
  - change (u"weather") with (119%N :: u"eather"). apply contains_lstrip.
    reflexivity.
  - discriminate.
  - intros x' c Hc E.
    apply (f_equal (fun l => last l 0%N)) in E.
    rewrite last_last in E. vm_compute in E. subst c.
    vm_compute in Hc. discriminate.
Qed.

End ReplyWhitespace.

(** X22.  The route depends on the reply only through its lowercase form:
    whitespace around the reply plays no part, and any reply whose
    lowercase form contains "weather" gives the weather route. *)
Theorem decision_node_ignores_whitespace (W : World) (st : GraphState)
    (log : list event) (reply : option str) :
  llm_invoke W (decision_messages st) = inr reply ->
  decision_node W st log
  = (inr [(FRoute,
           if contains (u"weather") (lower (or_empty reply))
           then u"weather" else u"pdf")],
     log ++ [EvLlm (decision_messages st)]).
Proof.
  intros H. rewrite decision_node_run, H, lower_strip, contains_weather_strip.
  reflexivity.
Qed.

Lemma decision_node_ignores_whitespace_witness :
  decision_node test_world (initial_state (u"What is the weather in Paris?")) []
  = (inr [(FRoute,
           if contains (u"weather") (lower (or_empty (Some (u"weather"))))
           then u"weather" else u"pdf")],
     [] ++ [EvLlm (decision_messages
                     (initial_state (u"What is the weather in Paris?")))]).
Proof.
  apply (@decision_node_ignores_whitespace test_world
           (initial_state (u"What is the weather in Paris?")) []
           (Some (u"weather"))).
  vm_compute. reflexivity.
Defined.

(* ================================================================== *)
(** ** The context of the weather route *)

Lemma startswith_prefix (a b s : str) :
  startswith (a ++ b) s = true -> startswith a s = true.
Proof.
  revert s. induction a as [|x a IH]; intros s H; [reflexivity|].
  destruct s as [|y s]; [discriminate|]. cbn [app startswith] in *.
  apply Bool.andb_true_iff in H. destruct H as [-> H]. apply IH. exact H.
Qed.

Lemma startswith_head (x0 : N) (x' s : str) :
  startswith (x0 :: x') s = true -> exists t, s = x0 :: t.
Proof.
  destruct s as [|y s]; [discriminate|]. cbn [startswith]. intros H.
  apply Bool.andb_true_iff in H. destruct H as [H _].
  apply N.eqb_eq in H. subst. eauto.
Qed.

Lemma strip_not_blank (x0 : N) (t : str) :
  isspace x0 = false -> strip (x0 :: t) <> [].
Proof.
  intros Hx. unfold strip. rewrite (@lstrip_fixed x0 t Hx).
  destruct (@rstrip_keeps_head x0 t Hx) as (t' & ->). discriminate.
Qed.

(** X23.  The context written by the weather node is never blank: it opens
    with "Current weather in " or with "Sorry, I ", so the answer step
    always gets the instruction that quotes the context. *)
Theorem weather_node_context_not_blank (W : World) (st : GraphState)
    (log : list event) :
  exists c log',
    weather_node W st log
    = (inr [(FContext, c); (FRoute, u"weather")], log')
    /\ (startswith (u"Current weather in ") c = true
        \/ startswith (u"Sorry, I ") c = true)
    /\ strip c <> []
    /\ system_prompt c = context_prompt c.
Proof.
  do 2 eexists. split; [apply weather_node_run|].
  match goal with
  | |- (startswith _ ?c = true \/ _) /\ _ =>
      assert (Hc : startswith (u"Current weather in ") c = true
                   \/ startswith (u"Sorry, I ") c = true)
  end.
  { pose proof (fetch_weather_for_city_cases W (question st) (u"Hyderabad")
                  (u"IN") log) as H. cbv zeta in H.
    destruct (http_get_json W _) as [e|data].
    { rewrite H. right. apply startswith_app. }
    destruct (geocode_coordinates W _ _ data) as [e|coords].
    { rewrite H. right. apply startswith_app. }
    rewrite H. cbn [fst].
    destruct (http_get_json W _) as [e|weather].
    { right. apply startswith_app. }
    rewrite summarise_onecall_run.
    destruct (summarise_body W weather _) as [e|text] eqn:Eb.
    - right. apply startswith_app.
    - left. apply summarise_body_names_city in Eb.
      eapply startswith_prefix. exact Eb. }
  split; [exact Hc|].
  match goal with
  | |- strip ?c <> [] /\ _ =>
      assert (Hs : strip c <> []);
      [| split; [exact Hs|]; unfold system_prompt;
         destruct (strip c); [contradiction | reflexivity] ]
  end.
  destruct Hc as [Hc|Hc].
  - change (u"Current weather in ") with (67%N :: u"urrent weather in ") in Hc.
    apply startswith_head in Hc. destruct Hc as (t & ->).
    apply strip_not_blank. reflexivity.
  - change (u"Sorry, I ") with (83%N :: u"orry, I ") in Hc.
    apply startswith_head in Hc. destruct Hc as (t & ->).
    apply strip_not_blank. reflexivity.
Qed.

(* ================================================================== *)
(** ** Geocoding responses that have a length *)

(** X24.  For a geocoding response that is empty or has a length (a string,
    a list, a tuple or an object), the check raises [ValueError] exactly
    when the response is empty or is neither a pair nor a list that starts
    with an object. *)
Theorem geocode_coordinates_value_error (W : World) (city hint : str)
    (data : pyval) :
  (truth data = false \/ exists n, len data = inr n) ->
  ((exists msg,
      geocode_coordinates W city hint data = inl (Exn ValueError msg))
   <-> (truth data = false
        \/ ((forall lat lon, data <> PTuple [lat; lon])
            /\ (forall d rest, data <> PList (PDict d :: rest))))).
Proof.
  intros Hsized.
  destruct (geocode_coordinates_shapes W city hint data)
    as (Hempty & Hpair & Hlist & Hother).
  split.
  - intros (msg & Hraise).
    destruct (truth data) eqn:Et; [right | left; reflexivity].
    split.
    + intros lat lon E. rewrite (Hpair lat lon E) in Hraise. discriminate.
    + intros d rest E. rewrite (Hlist d rest E) in Hraise. discriminate.
  - intros [Hfalse | [Hp Hl]].
    + eexists. apply Hempty. exact Hfalse.
    + destruct (truth data) eqn:Et.
      * destruct Hsized as [Hf | Hlen]; [discriminate|].
        eexists. apply Hother; auto.
      * eexists. apply Hempty. reflexivity.
Qed.

Lemma geocode_coordinates_value_error_witness :
  exists msg,
    geocode_coordinates test_world (u"Paris") (u"IN")
      (PDict [(u"cod", PInt 401); (u"message", PStr (u"Invalid API key"))])
    = inl (Exn ValueError msg).
Proof.
  apply (@geocode_coordinates_value_error test_world (u"Paris") (u"IN")
           (PDict [(u"cod", PInt 401);
                   (u"message", PStr (u"Invalid API key"))])).
  - right. eexists. reflexivity.
  - right. split; intros; discriminate.
Defined.

(* ================================================================== *)
(** ** Questions that open with a one-word city before "weather" *)

Section CityBeforeWeather.

Local Open Scope N_scope.

Ltac chars :=
  unfold is_cased, cls_letter_or_space, cls_space, cls_trailing, is_az in *;
  unfold is_upper_latin, is_lower_latin, isspace, between in *;
  repeat (rewrite ?Bool.orb_true_iff, ?Bool.andb_true_iff,
            ?Bool.negb_true_iff, ?Bool.orb_false_iff, ?Bool.andb_false_iff,
            ?Bool.negb_false_iff, ?N.leb_le, ?N.leb_gt, ?N.eqb_eq,
            ?N.eqb_neq in *).

Lemma city_pattern_before_weather_parts :
  city_pattern_before_weather
  = Cat (Grp (Rep false 1 cls_letter_or_space))
        (Cat (Rep true 1 cls_space) (word (u"weather"))).
Proof. reflexivity. Qed.

(** Pattern 2 at a word of lowercase letters, one space and "weather": the
    group is the word. *)
Lemma match_word_weather (w rest : str) :
  w <> [] ->
  Forall (fun c => is_az c = true) w ->
  match_here city_pattern_before_weather (w ++ u" weather" ++ rest)
  = Some {| group1 := Some w |}.
Proof.
  intros Hne Hw. unfold match_here.
  rewrite city_pattern_before_weather_parts, rmatch_cat, rmatch_grp_lazy.
  destruct w as [|c t]; [contradiction|].
  assert (Hcls : Forall (fun x => cls_letter_or_space x = true) (c :: t)).
  { eapply Forall_impl; [|exact Hw]. intros x Hx. chars. lia. }
  inversion Hcls as [|? ? Hc Ht]; subst.
  cbn [app rep_lazy]. rewrite Hc.
  change (c :: t ++ u" weather" ++ rest)
    with ((c :: t) ++ u" weather" ++ rest).
  apply rep_lazy_reach.
  - exact Ht.
  - intros w1 w2 E Hw2. destruct w2 as [|c2 t2]; [contradiction|].
    rewrite rmatch_cat, rmatch_rep_greedy. cbn [app rep_greedy].
    assert (Hc2 : is_az c2 = true).
    { rewrite E in Hw. inversion Hw as [|? ? _ Hw']; subst.
      apply Forall_suffix in Hw'. inversion Hw'; assumption. }
    assert (Hs : cls_space c2 = false) by (chars; lia).
    rewrite Hs. reflexivity.
  - rewrite firstn_consumed, rmatch_cat, rmatch_rep_greedy.
    change (u" weather" ++ rest) with (32 :: (u"weather" ++ rest)).
    cbn [rep_greedy]. change (cls_space 32) with true. cbv iota.
    change (u"weather" ++ rest) with (119 :: (u"eather" ++ rest)) at 1.
    cbn [rep_greedy pred]. change (cls_space 119) with false. cbv iota.
    change (119 :: (u"eather" ++ rest)) with (u"weather" ++ rest).
    rewrite rmatch_word_app; [reflexivity | discriminate].
Qed.

End CityBeforeWeather.

(** X25.  When the lowercased question opens with a word of lowercase
    letters followed by " weather", and contains no "in " anywhere, the
    city is that word with its first letter uppercased, whatever follows
    "weather". *)
Theorem extract_city_name_word_weather (q d : str) (c : N) (t rest : str) :
  lower q = (c :: t) ++ u" weather" ++ rest ->
  contains (u"in ") (lower q) = false ->
  Forall (fun x => is_az x = true) (c :: t) ->
  extract_city_name q d = (c - 32)%N :: t.
Proof.
  intros Hq Hin Hw. unfold extract_city_name.
  assert (H1 : search city_pattern_in (lower q) = None).
  { destruct (search city_pattern_in (lower q)) as [m|] eqn:E; [|reflexivity].
    apply search_suffix in E. destruct E as (pre & s' & Hs & Hm).
    apply match_city_pattern_in in Hm. destruct Hm as (city & r & -> & _).
    rewrite Hs, contains_infix in Hin. discriminate. }
  rewrite H1, Hq.
  rewrite search_found with (m := {| group1 := Some (c :: t) |});
    [|apply match_word_weather; [discriminate | exact Hw]].
  unfold city_of_match. cbn [group1 or_empty].
  rewrite (strip_word Hw). apply title_word. exact Hw.
Qed.

Lemma extract_city_name_word_weather_witness :
  extract_city_name (u"Hyderabad weather now") (u"Delhi") = u"Hyderabad".
Proof.
  apply (@extract_city_name_word_weather (u"Hyderabad weather now") (u"Delhi")
           104%N (u"yderabad") (u" now")).
  - vm_compute. reflexivity.
  - vm_compute. reflexivity.
  - repeat constructor.
Defined.

(* ================================================================== *)
(** ** The general statements at work *)

Lemma extract_city_name_shape_witness :
  extract_city_name (u"What is the weather in Paris?") (u"Hyderabad")
  = 80%N :: u"aris"
  /\ isspace 80 = false.
Proof.
  assert (E : extract_city_name (u"What is the weather in Paris?")
                (u"Hyderabad") = 80%N :: u"aris") by (vm_compute; reflexivity).
  split; [exact E|].
  destruct (extract_city_name_shape (u"What is the weather in Paris?")
              (u"Hyderabad")) as [(H1 & _) | (_ & Hfirst & _)].
  - exfalso. vm_compute in H1. discriminate.
  - exact (Hfirst _ _ E).
Defined.

Lemma fetch_weather_for_city_calls_witness :
  exists evs,
    snd (fetch_weather_for_city test_world (u"What is the weather in Paris?")
           (u"Hyderabad") (u"IN") []) = [] ++ evs
    /\ List.length evs = 2%nat.
Proof.
  destruct (fetch_weather_for_city_calls test_world
              (u"What is the weather in Paris?") (u"Hyderabad") (u"IN") [])
    as (evs & Hlog & _ & _ & Htwo).
  exists evs. split; [exact Hlog|]. apply Htwo.
  exists (PList [PDict [(u"lat", PInt 17); (u"lon", PInt 78)]]),
         (PInt 17, PInt 78).
  split; vm_compute; reflexivity.
Defined.

Lemma weather_node_context_not_blank_witness :
  exists c log',
    weather_node offline_world
      (initial_state (u"What is the weather in Paris?")) []
    = (inr [(FContext, c); (FRoute, u"weather")], log')
    /\ strip c <> [].
Proof.
  destruct (weather_node_context_not_blank offline_world
              (initial_state (u"What is the weather in Paris?")) [])
    as (c & log' & Hrun & _ & Hstrip & _).
  exists c, log'. split; [exact Hrun | exact Hstrip].
Defined.

(* ================================================================== *)
(** ** A question that ends with "in" and blanks *)

Section EmptyCity.

Local Open Scope N_scope.

Ltac chars :=
  unfold is_cased, cls_letter_or_space, cls_space, cls_trailing, is_az in *;
  unfold is_upper_latin, is_lower_latin, isspace, between in *;
  repeat (rewrite ?Bool.orb_true_iff, ?Bool.andb_true_iff,
            ?Bool.negb_true_iff, ?Bool.orb_false_iff, ?Bool.andb_false_iff,
            ?Bool.negb_false_iff, ?N.leb_le, ?N.leb_gt, ?N.eqb_eq,
            ?N.eqb_neq in *).

Lemma space_is_trailing (c : N) : isspace c = true -> cls_trailing c = true.
Proof. intros H. unfold cls_trailing. rewrite H. reflexivity. Qed.

Lemma space_is_letter_or_space (c : N) :
  isspace c = true -> cls_letter_or_space c = true.
Proof.
  intros H. unfold cls_letter_or_space. rewrite H. apply Bool.orb_true_r.
Qed.

(** Pattern 1 at "in " and blanks only: the group is the first blank. *)
Lemma match_in_blanks (b : N) (blanks : str) :
  isspace b = true ->
  Forall (fun c => isspace c = true) blanks ->
  match_here city_pattern_in (u"in " ++ b :: blanks)
  = Some {| group1 := Some [b] |}.
Proof.
  intros Hb Hblanks. unfold match_here.
  rewrite city_pattern_in_parts, rmatch_cat, rmatch_word_app; [|discriminate].
  rewrite rmatch_cat, rmatch_grp_lazy.
  cbn [rep_lazy]. rewrite (@space_is_letter_or_space b Hb), rep_lazy_0.
  change (b :: blanks) with ([b] ++ blanks) at 1.
  rewrite firstn_consumed, after_city_end; [reflexivity|].
  eapply Forall_impl; [|exact Hblanks]. intros c. apply space_is_trailing.
Qed.

End EmptyCity.

(** X26.  When the lowercased question reads: some text without "in", then
    "in ", and then one or more whitespace characters and nothing else, the
    extracted city is the empty string, not the default. *)
Theorem extract_city_name_in_blanks (q d pre : str) (b : N) (blanks : str) :
  lower q = pre ++ u"in " ++ b :: blanks ->
  contains (u"in") pre = false ->
  isspace b = true ->
  Forall (fun c => isspace c = true) blanks ->
  extract_city_name q d = [].
Proof.
  intros Hq Hpre Hb Hblanks. unfold extract_city_name.
  rewrite Hq, search_skips_prefix; [|exact Hpre].
  rewrite search_found with (m := {| group1 := Some [b] |});
    [|apply match_in_blanks; assumption].
  unfold city_of_match. cbn [group1 or_empty].
  unfold strip. cbn [lstrip]. rewrite Hb. reflexivity.
Qed.

Lemma extract_city_name_in_blanks_witness :
  extract_city_name (u"Which city am I in  ") (u"Hyderabad") = [].
Proof.
  apply (@extract_city_name_in_blanks (u"Which city am I in  ") (u"Hyderabad")
           (u"which city am i ") 32%N []).
  - vm_compute. reflexivity.
  - vm_compute. reflexivity.
  - reflexivity.
  - constructor.
Defined.

(* ================================================================== *)
(** ** The pipeline on the test's model *)

Lemma FakeModel_reply (system human : str) :
  FakeModel_invoke [SystemMessage system; HumanMessage human]
  = inr (Some (if contains (u"weather") (lower human)
               then u"weather" else u"Paris is the capital of France.")).
Proof.
  unfold FakeModel_invoke. cbn [rev app message_content].
  destruct (contains (u"weather") (lower human)); reflexivity.
Qed.

(** X27.  With [FakeModel] of the tests as language model, every question
    whose lowercase form contains "weather" completes on the weather route
    with the answer "weather", whatever the provider does; every other
    question goes to the retrieval route and, when the store answers, ends
    with the answer "Paris is the capital of France.". *)
Theorem FakeModel_pipeline (W : World) (q : str) (log : list event) :
  llm_invoke W = FakeModel_invoke ->
  (contains (u"weather") (lower q) = true ->
   exists st log',
     invoke W q log = (inr st, log')
     /\ route st = Some (u"weather")
     /\ answer st = Some (u"weather"))
  /\ (contains (u"weather") (lower q) = false ->
      forall docs,
        similarity_search W q 5 = inr docs ->
        exists st log',
          invoke W q log = (inr st, log')
          /\ route st = Some (u"pdf")
          /\ context st = Some (join blank_line (map page_content docs))
          /\ answer st = Some (u"Paris is the capital of France.")).
Proof.
  intros Hllm.
  assert (Hstrip1 : strip (u"weather") = u"weather")
    by (vm_compute; reflexivity).
  assert (Hstrip2 : strip (u"Paris is the capital of France.")
                    = u"Paris is the capital of France.")
    by (vm_compute; reflexivity).
  assert (Hr1 : contains (u"weather") (lower (strip (u"weather"))) = true)
    by (vm_compute; reflexivity).
  assert (Hr2 : contains (u"weather")
                  (lower (strip (u"Paris is the capital of France.")))
                = false) by (vm_compute; reflexivity).
  split.
  - intros Hq. unfold invoke, recursion_limit.
    rewrite run_decision, Hllm. unfold decision_messages.
    rewrite FakeModel_reply. cbn [question initial_state]. rewrite Hq.
    cbn [or_empty]. rewrite Hr1, run_weather. cbv zeta.
    rewrite run_answer, Hllm. unfold answer_messages.
    rewrite FakeModel_reply.
    change (question (merge (merge (initial_state q) [(FRoute, u"weather")])
                        ?upd)) with q.
    cbn [merge fold_left set_field fst snd question initial_state].
    rewrite Hq. cbn [or_empty]. rewrite Hstrip1.
    do 2 eexists. split; [reflexivity|]. split; reflexivity.
  - intros Hq docs Hdocs. unfold invoke, recursion_limit.
    rewrite run_decision, Hllm. unfold decision_messages.
    rewrite FakeModel_reply. cbn [question initial_state]. rewrite Hq.
    cbn [or_empty]. rewrite Hr2, run_rag.
    change (question (merge (initial_state q) [(FRoute, u"pdf")])) with q.
    rewrite Hdocs. cbv zeta. rewrite run_answer, Hllm. unfold answer_messages.
    rewrite FakeModel_reply.
    cbn [merge fold_left set_field fst snd question initial_state].
    rewrite Hq. cbn [or_empty]. rewrite Hstrip2.
    do 2 eexists. split; [reflexivity|]. repeat split; reflexivity.
Qed.

Lemma FakeModel_pipeline_witness :
  exists st log',
    invoke offline_world (u"What is the weather in Paris?") [] = (inr st, log')
    /\ route st = Some (u"weather")
    /\ answer st = Some (u"weather").
Proof.
  apply (proj1 (@FakeModel_pipeline offline_world
                  (u"What is the weather in Paris?") [] eq_refl)).
  vm_compute. reflexivity.
Defined.

(* ================================================================== *)
(** ** Questions that name a city of one or more words *)

Section Phrases.

Local Open Scope N_scope.

Ltac chars :=
  unfold is_cased, cls_letter_or_space, cls_space, cls_trailing, is_az in *;
  unfold is_upper_latin, is_lower_latin, isspace, between in *;
  repeat (rewrite ?Bool.orb_true_iff, ?Bool.andb_true_iff,
            ?Bool.negb_true_iff, ?Bool.orb_false_iff, ?Bool.andb_false_iff,
            ?Bool.negb_false_iff, ?N.leb_le, ?N.leb_gt, ?N.eqb_eq,
            ?N.eqb_neq in *).

Lemma snoc_cases (s : str) : s = [] \/ exists s' c, s = s' ++ [c].
Proof.
  induction s as [|c s _] using rev_ind; [left; reflexivity|].
  right. exists s, c. reflexivity.
Qed.

(** The last character of a text that ends with a non-empty [w]. *)
Lemma last_of_app (Q : N -> Prop) (pre w a : str) (c : N) :
  w <> [] -> Forall Q w -> pre ++ w = a ++ [c] -> Q c.
Proof.
  intros Hne Hw E.
  destruct (snoc_cases w) as [-> | (w' & d & ->)]; [contradiction|].
  rewrite app_assoc in E. apply app_inj_tail in E. destruct E as [_ <-].
  apply Forall_app in Hw. destruct Hw as [_ Hd]. inversion Hd; assumption.
Qed.

(** A text splits in one way only into a body that does not end in a
    character of a class and a tail of characters of that class. *)
Lemma tail_unique (P : N -> bool) (a b x y : str) :
  a ++ x = b ++ y ->
  Forall (fun c => P c = true) x ->
  Forall (fun c => P c = true) y ->
  (forall a' c, a = a' ++ [c] -> P c = false) ->
  (forall b' c, b = b' ++ [c] -> P c = false) ->
  a = b /\ x = y.
Proof.
  revert y. induction x as [|c x IH] using rev_ind; intros y E Hx Hy Ha Hb.
  - rewrite app_nil_r in E.
    destruct (snoc_cases y) as [-> | (y' & d & ->)].
    + rewrite app_nil_r in E. auto.
    + exfalso. rewrite app_assoc in E.
      apply Forall_app in Hy. destruct Hy as [_ Hd].
      inversion Hd as [|? ? Hd' _]; subst.
      rewrite (Ha _ _ eq_refl) in Hd'. discriminate.
  - apply Forall_app in Hx. destruct Hx as [Hx Hc].
    inversion Hc as [|? ? Hc' _]; subst.
    destruct (snoc_cases y) as [-> | (y' & d & ->)].
    + exfalso. rewrite app_nil_r, app_assoc in E. symmetry in E.
      rewrite (Hb _ _ E) in Hc'. discriminate.
    + apply Forall_app in Hy. destruct Hy as [Hy _].
      rewrite !app_assoc in E. apply app_inj_tail in E.
      destruct E as [E ->].
      destruct (IH y' E Hx Hy Ha Hb) as [-> ->]. auto.
Qed.

Lemma letter_not_trailing (c : N) : is_az c = true -> cls_trailing c = false.
Proof. intros H. chars. lia. Qed.

Lemma letter_not_space (c : N) : is_az c = true -> isspace c = false.
Proof. intros H. chars. lia. Qed.

Lemma space_not_letter (c : N) : isspace c = true -> is_az c = false.
Proof.
  intros H. destruct (is_az c) eqn:E; [|reflexivity].
  rewrite (@letter_not_space c E) in H. discriminate.
Qed.

Lemma trailing_class (c : N) :
  isspace c = true \/ In c (u"?,.") -> cls_trailing c = true.
Proof.
  intros [H|H]; unfold cls_trailing; [rewrite H; reflexivity|].
  change (u"?,.") with [63; 44; 46] in H. cbn [In] in H.
  destruct H as [<- | [<- | [<- | []]]]; reflexivity.
Qed.

Lemma phrase_class (c : N) :
  is_az c = true \/ isspace c = true -> cls_letter_or_space c = true.
Proof.
  intros [H|H]; unfold cls_letter_or_space.
  - unfold is_az in H. rewrite H. reflexivity.
  - rewrite H. apply Bool.orb_true_r.
Qed.

Lemma keyword_letters (kw : str) :
  In kw [u"today"; u"now"; u"tomorrow"; u"weather"; u"forecast"] ->
  kw <> [] /\ Forall (fun c => is_az c = true) kw.
Proof.
  cbn [In]. intros [<- | [<- | [<- | [<- | [<- | []]]]]];
    (split; [discriminate | repeat constructor]).
Qed.

(** The last character of every piece that reaches the end of a phrase is a
    letter. *)
Lemma phrase_suffix_last (city w1 w2 a : str) (c : N) :
  Forall (fun x => is_az x = true \/ isspace x = true) city ->
  strip city = city ->
  city = w1 ++ w2 -> w2 = a ++ [c] -> is_az c = true.
Proof.
  intros Hcls Hstrip E ->. rewrite app_assoc in E.
  destruct (@stripped_ends city Hstrip) as [_ Hlast].
  specialize (Hlast c (w1 ++ a) E).
  rewrite E in Hcls. apply Forall_app in Hcls. destruct Hcls as [_ Hc].
  inversion Hc as [|? ? [H|H] _]; subst; [exact H | congruence].
Qed.

Lemma rep_greedy_split_cls (A : Type) cls least s (k : str -> option A) x :
  rep_greedy cls least s k = Some x ->
  exists pre s',
    s = pre ++ s' /\ Forall (fun c => cls c = true) pre
    /\ (least <= List.length pre)%nat /\ k s' = Some x.
Proof.
  revert least. induction s as [|c t IH]; intros least H; simpl in H.
  - destruct least; [|discriminate]. exists [], []. repeat split; auto.
  - destruct (cls c) eqn:Ec.
    + destruct (rep_greedy cls (pred least) t k) eqn:E.
      * injection H as ->. apply IH in E.
        destruct E as (pre & s' & -> & Hpre & Hlen & Hk).
        exists (c :: pre), s'. repeat split; auto. simpl. lia.
      * destruct least; [|discriminate].
        exists [], (c :: t). repeat split; auto.
    + destruct least; [|discriminate].
      exists [], (c :: t). repeat split; auto.
Qed.

Lemma eos_shape (A : Type) s g (k : str -> option str -> option A) x :
  rmatch Eos s g k = Some x -> s = [] \/ s = [10].
Proof.
  intros H. destruct s as [|c t]; [left; reflexivity | right].
  destruct (N.eq_dec c 10) as [-> | Hc].
  - destruct t; [reflexivity | simpl in H; discriminate].
  - rewrite eos_none in H; [discriminate | exact Hc].
Qed.

(** [[\s\?\,\.]*$] reads punctuation marks and blanks only. *)
Lemma closing_shape (A : Type) s g (k : str -> option str -> option A) x :
  rmatch (Cat (Rep true 0 cls_trailing) Eos) s g k = Some x ->
  Forall (fun c => cls_trailing c = true) s.
Proof.
  rewrite rmatch_cat, rmatch_rep_greedy. intros H.
  apply rep_greedy_split_cls in H.
  destruct H as (pre & s' & -> & Hpre & _ & H).
  apply Forall_app. split; [exact Hpre|].
  apply eos_shape in H. destruct H as [-> | ->]; repeat constructor.
Qed.

Lemma closing_end (tail : str) (g : option str) :
  Forall (fun c => cls_trailing c = true) tail ->
  rmatch (Cat (Rep true 0 cls_trailing) Eos) tail g
    (fun _ g' => Some {| group1 := g' |})
  = Some {| group1 := g |}.
Proof.
  intros Htail. rewrite rmatch_cat, rmatch_rep_greedy.
  apply rep_greedy_all; [exact Htail | reflexivity].
Qed.

(** The alternation of the five words reads one of them. *)
Lemma keywords_shape (A : Type) s g (k : str -> option str -> option A) x :
  rmatch (alt [ word (u"today"); word (u"now"); word (u"tomorrow");
                word (u"weather") ]
              (word (u"forecast"))) s g k = Some x ->
  exists kw s',
    In kw [u"today"; u"now"; u"tomorrow"; u"weather"; u"forecast"]
    /\ s = kw ++ s' /\ k s' g = Some x.
Proof.
  cbn [alt]. rewrite !rmatch_alt. intros H.
  destruct (rmatch (word (u"today")) s g k) eqn:E1.
  { injection H as ->. apply rmatch_word in E1; [|discriminate].
    destruct E1 as (s' & -> & E1). exists (u"today"), s'.
    split; [cbn [In]; auto 10 | auto]. }
  destruct (rmatch (word (u"now")) s g k) eqn:E2.
  { injection H as ->. apply rmatch_word in E2; [|discriminate].
    destruct E2 as (s' & -> & E2). exists (u"now"), s'.
    split; [cbn [In]; auto 10 | auto]. }
  destruct (rmatch (word (u"tomorrow")) s g k) eqn:E3.
  { injection H as ->. apply rmatch_word in E3; [|discriminate].
    destruct E3 as (s' & -> & E3). exists (u"tomorrow"), s'.
    split; [cbn [In]; auto 10 | auto]. }
  destruct (rmatch (word (u"weather")) s g k) eqn:E4.
  { injection H as ->. apply rmatch_word in E4; [|discriminate].
    destruct E4 as (s' & -> & E4). exists (u"weather"), s'.
    split; [cbn [In]; auto 10 | auto]. }
  apply rmatch_word in H; [|discriminate].
  destruct H as (s' & -> & H). exists (u"forecast"), s'.
  split; [cbn [In]; auto 10 | auto].
Qed.

Lemma keywords_match (A : Type) kw tail g
    (k : str -> option str -> option A) x :
  In kw [u"today"; u"now"; u"tomorrow"; u"weather"; u"forecast"] ->
  k tail g = Some x ->
  rmatch (alt [ word (u"today"); word (u"now"); word (u"tomorrow");
                word (u"weather") ]
              (word (u"forecast"))) (kw ++ tail) g k = Some x.
Proof.
  cbn [alt In]. rewrite !rmatch_alt.
  intros [<- | [<- | [<- | [<- | [<- | []]]]]] Hk;
    repeat (rewrite rmatch_word_none; [ | discriminate | reflexivity ]);
    (rewrite rmatch_word_app; [ | discriminate ]); rewrite Hk; reflexivity.
Qed.

(** What can follow the city in pattern 1: closing marks only, or blanks,
    one of the five words and closing marks. *)
Lemma after_city_shape (A : Type) s g (k : str -> option str -> option A) x :
  rmatch after_city s g k = Some x ->
  Forall (fun c => cls_trailing c = true) s
  \/ exists sp kw trail,
       s = sp ++ kw ++ trail
       /\ sp <> []
       /\ Forall (fun c => isspace c = true) sp
       /\ In kw [u"today"; u"now"; u"tomorrow"; u"weather"; u"forecast"]
       /\ Forall (fun c => cls_trailing c = true) trail.
Proof.
  unfold after_city. rewrite rmatch_cat, rmatch_opt. intros H.
  match type of H with
  | match ?m with _ => _ end = _ => destruct m eqn:E
  end.
  - injection H as ->. rewrite rmatch_cat, rmatch_rep_greedy in E.
    apply rep_greedy_split_cls in E.
    destruct E as (sp & s1 & -> & Hsp & Hlen & E).
    apply keywords_shape in E. destruct E as (kw & s2 & Hkw & -> & E).
    apply closing_shape in E. right. exists sp, kw, s2.
    split; [reflexivity|]. split.
    { destruct sp; [simpl in Hlen; lia | discriminate]. }
    split; [exact Hsp|]. split; [exact Hkw | exact E].
  - left. apply closing_shape in H. exact H.
Qed.

Lemma after_city_value s g m :
  rmatch after_city s g (fun _ g' => Some {| group1 := g' |}) = Some m ->
  m = {| group1 := g |}.
Proof.
  intros H. apply rmatch_no_group in H; [|reflexivity].
  destruct H as (pre & s' & _ & H). injection H as <-. reflexivity.
Qed.

Lemma rep_greedy_0_some (A : Type) cls s (k : str -> option A) x :
  k s = Some x -> exists y, rep_greedy cls 0 s k = Some y.
Proof.
  intros Hk. destruct s as [|c t]; simpl; [eauto|].
  destruct (cls c); [|eauto].
  destruct (rep_greedy cls 0 t k); eauto.
Qed.

(** A greedy repetition matches when what follows it matches after a run
    of the class. *)
Lemma rep_greedy_reach (A : Type) cls pre rest (k : str -> option A) x :
  Forall (fun c => cls c = true) pre ->
  k rest = Some x ->
  forall least, (least <= List.length pre)%nat ->
    exists y, rep_greedy cls least (pre ++ rest) k = Some y.
Proof.
  intros Hpre Hk. induction Hpre as [|c t Hc _ IH]; intros least Hlen.
  - simpl in Hlen. assert (least = 0%nat) as -> by lia.
    apply rep_greedy_0_some with (x := x). exact Hk.
  - cbn [app rep_greedy]. rewrite Hc.
    destruct (IH (pred least)) as (y & Hy); [simpl in Hlen; lia|].
    rewrite Hy. eauto.
Qed.

(** Blanks, one of the five words and closing marks end pattern 1. *)
Lemma after_city_keyword (blanks kw tail : str) (g : option str) :
  blanks <> [] ->
  Forall (fun c => isspace c = true) blanks ->
  In kw [u"today"; u"now"; u"tomorrow"; u"weather"; u"forecast"] ->
  Forall (fun c => cls_trailing c = true) tail ->
  rmatch after_city (blanks ++ kw ++ tail) g
    (fun _ g' => Some {| group1 := g' |})
  = Some {| group1 := g |}.
Proof.
  intros Hne Hblanks Hkw Htail.
  assert (H : exists y,
             rmatch after_city (blanks ++ kw ++ tail) g
               (fun _ g' => Some {| group1 := g' |}) = Some y).
  { unfold after_city. rewrite rmatch_cat, rmatch_opt, rmatch_cat,
      rmatch_rep_greedy.
    match goal with
    | |- exists y, match rep_greedy ?cls ?least ?s ?k with _ => _ end = _ =>
        assert (HK : k (kw ++ tail) = Some {| group1 := g |});
        [ | destruct (@rep_greedy_reach _ cls blanks (kw ++ tail) k _
                        Hblanks HK least) as (y & Hy);
            [ destruct blanks; [contradiction | simpl; lia]
            | rewrite Hy; eauto ] ]
    end.
    cbv beta. apply keywords_match; [exact Hkw|]. apply closing_end.
    exact Htail. }
  destruct H as (y & H). rewrite H. f_equal.
  apply after_city_value in H. exact H.
Qed.

(** Inside a phrase that is followed by blanks and one of the five words,
    pattern 1 cannot end. *)
Lemma after_city_inside_keyword (A : Type) (w2 blanks kw tail : str) g
    (k : str -> option str -> option A) :
  w2 <> [] ->
  (forall a c, w2 = a ++ [c] -> is_az c = true) ->
  blanks <> [] ->
  Forall (fun c => isspace c = true) blanks ->
  In kw [u"today"; u"now"; u"tomorrow"; u"weather"; u"forecast"] ->
  Forall (fun c => cls_trailing c = true) tail ->
  rmatch after_city (w2 ++ blanks ++ kw ++ tail) g k = None.
Proof.
  intros Hne Hlast Hbne Hblanks Hkw Htail.
  destruct (rmatch after_city (w2 ++ blanks ++ kw ++ tail) g k) as [x|] eqn:E;
    [exfalso | reflexivity].
  destruct (snoc_cases w2) as [-> | (a & c & Ew)]; [contradiction|].
  pose proof (Hlast _ _ Ew) as Hc.
  destruct (@keyword_letters kw Hkw) as [Hkne Hkl].
  apply after_city_shape in E.
  destruct E as [Hall | (sp & kw' & trail & E & Hsne & Hsp & Hkw' & Htrail)].
  - rewrite Ew in Hall. apply Forall_app in Hall. destruct Hall as [Hall _].
    apply Forall_app in Hall. destruct Hall as [_ Hall].
    inversion Hall as [|? ? Hc' _]; subst.
    rewrite (@letter_not_trailing c Hc) in Hc'. discriminate.
  - destruct (@keyword_letters kw' Hkw') as [Hkne' Hkl'].
    rewrite !app_assoc in E.
    apply tail_unique with (P := cls_trailing) in E;
      [ | exact Htail | exact Htrail | | ].
    + destruct E as [E _].
      apply tail_unique with (P := is_az) in E;
        [ | exact Hkl | exact Hkl' | | ].
      * destruct E as [E _]. rewrite <- E, Ew in Hsp.
        apply Forall_app in Hsp. destruct Hsp as [Hsp _].
        apply Forall_app in Hsp. destruct Hsp as [_ Hsp].
        inversion Hsp as [|? ? Hc' _]; subst.
        rewrite (@letter_not_space c Hc) in Hc'. discriminate.
      * intros a' d Ea. apply space_not_letter.
        exact (@last_of_app (fun x => isspace x = true) w2 blanks a' d
                 Hbne Hblanks Ea).
      * intros a' d Ea. apply space_not_letter.
        exact (@last_of_app (fun x => isspace x = true) [] sp a' d
                 Hsne Hsp Ea).
    + intros a' d Ea. apply letter_not_trailing.
      exact (@last_of_app (fun x => is_az x = true) (w2 ++ blanks) kw a' d
               Hkne Hkl Ea).
    + intros a' d Ea. apply letter_not_trailing.
      exact (@last_of_app (fun x => is_az x = true) sp kw' a' d
               Hkne' Hkl' Ea).
Qed.

(** Inside a phrase that is followed by closing marks only, pattern 1 can
    end only before blanks and one of the five words. *)
Lemma after_city_inside_end (A : Type) (w2 tail : str) g
    (k : str -> option str -> option A) :
  w2 <> [] ->
  (forall a c, w2 = a ++ [c] -> is_az c = true) ->
  (forall sp kw,
     sp <> [] -> Forall (fun c => isspace c = true) sp ->
     In kw [u"today"; u"now"; u"tomorrow"; u"weather"; u"forecast"] ->
     w2 <> sp ++ kw) ->
  Forall (fun c => cls_trailing c = true) tail ->
  rmatch after_city (w2 ++ tail) g k = None.
Proof.
  intros Hne Hlast Hnokw Htail.
  destruct (rmatch after_city (w2 ++ tail) g k) as [x|] eqn:E;
    [exfalso | reflexivity].
  destruct (snoc_cases w2) as [-> | (a & c & Ew)]; [contradiction|].
  pose proof (Hlast _ _ Ew) as Hc.
  apply after_city_shape in E.
  destruct E as [Hall | (sp & kw' & trail & E & Hsne & Hsp & Hkw' & Htrail)].
  - rewrite Ew in Hall. apply Forall_app in Hall. destruct Hall as [Hall _].
    apply Forall_app in Hall. destruct Hall as [_ Hall].
    inversion Hall as [|? ? Hc' _]; subst.
    rewrite (@letter_not_trailing c Hc) in Hc'. discriminate.
  - destruct (@keyword_letters kw' Hkw') as [Hkne' Hkl'].
    rewrite app_assoc in E.
    apply tail_unique with (P := cls_trailing) in E;
      [ | exact Htail | exact Htrail | | ].
    + destruct E as [E _]. exact (Hnokw sp kw' Hsne Hsp Hkw' E).
    + intros a' d Ea. apply letter_not_trailing. exact (Hlast _ _ Ea).
    + intros a' d Ea. apply letter_not_trailing.
      exact (@last_of_app (fun x => is_az x = true) sp kw' a' d
               Hkne' Hkl' Ea).
Qed.

(** Pattern 1 at "in " and a phrase: the lazy group is the whole phrase when
    the pattern cannot end inside the phrase and does end after it. *)
Lemma match_in_phrase (city rest : str) :
  city <> [] ->
  Forall (fun c => cls_letter_or_space c = true) city ->
  (forall w1 w2 g,
     city = w1 ++ w2 -> w1 <> [] -> w2 <> [] ->
     rmatch after_city (w2 ++ rest) g (fun _ g' => Some {| group1 := g' |})
     = None) ->
  (forall g,
     rmatch after_city rest g (fun _ g' => Some {| group1 := g' |})
     = Some {| group1 := g |}) ->
  match_here city_pattern_in (u"in " ++ city ++ rest)
  = Some {| group1 := Some city |}.
Proof.
  intros Hne Hcls Hnone Hend. unfold match_here.
  rewrite city_pattern_in_parts, rmatch_cat, rmatch_word_app; [|discriminate].
  rewrite rmatch_cat, rmatch_grp_lazy.
  destruct city as [|c t]; [contradiction|].
  inversion Hcls as [|? ? Hc Ht]; subst.
  cbn [app rep_lazy]. rewrite Hc.
  change (c :: t ++ rest) with ((c :: t) ++ rest).
  apply rep_lazy_reach.
  - exact Ht.
  - intros w1 w2 E Hw2. apply (Hnone (c :: w1) w2).
    + rewrite E. reflexivity.
    + discriminate.
    + exact Hw2.
  - rewrite firstn_consumed. apply Hend.
Qed.

(** Pattern 2 cannot end inside a phrase without "weather" that is followed
    by blanks and "weather". *)
Lemma weather_inside (A : Type) (w2 blanks rest : str) g
    (k : str -> option str -> option A) :
  w2 <> [] ->
  (forall a c, w2 = a ++ [c] -> is_az c = true) ->
  (forall a b, w2 <> a ++ u"weather" ++ b) ->
  blanks <> [] ->
  Forall (fun c => isspace c = true) blanks ->
  rmatch (Cat (Rep true 1 cls_space) (word (u"weather")))
    (w2 ++ blanks ++ u"weather" ++ rest) g k = None.
Proof.
  intros Hne Hlast Hnow Hbne Hblanks.
  destruct (rmatch (Cat (Rep true 1 cls_space) (word (u"weather")))
              (w2 ++ blanks ++ u"weather" ++ rest) g k) as [x|] eqn:E;
    [exfalso | reflexivity].
  destruct (snoc_cases w2) as [-> | (a & c & Ew)]; [contradiction|].
  pose proof (Hlast _ _ Ew) as Hc.
  rewrite rmatch_cat, rmatch_rep_greedy in E.
  apply rep_greedy_split_cls in E.
  destruct E as (sp & s1 & E & Hsp & _ & Hw).
  apply rmatch_word in Hw; [|discriminate]. destruct Hw as (s2 & -> & _).
  assert (Hspace : forall l, sp = w2 ++ l -> False).
  { intros l El. rewrite El, Ew in Hsp.
    apply Forall_app in Hsp. destruct Hsp as [Hsp _].
    apply Forall_app in Hsp. destruct Hsp as [_ Hsp].
    inversion Hsp as [|? ? Hc' _]; subst.
    change (cls_space c = true) with (isspace c = true) in Hc'.
    rewrite (@letter_not_space c Hc) in Hc'. discriminate. }
  apply app_eq_app in E. destruct E as (l & [[E1 E2] | [E1 E2]]).
  - symmetry in E2. apply app_eq_app in E2.
    destruct E2 as (m & [[E3 E4] | [E3 E4]]).
    + apply (Hnow sp m). rewrite E1, E3. reflexivity.
    + destruct m as [|d m].
      * rewrite app_nil_r in E3. apply (Hnow sp []).
        rewrite E1, <- E3, app_nil_r. reflexivity.
      * destruct blanks as [|b blanks']; [contradiction|].
        injection E4 as -> _.
        inversion Hblanks as [|? ? Hd _]; subst.
        assert (Hl : Forall (fun x => is_az x = true) (l ++ d :: m)).
        { rewrite <- E3. repeat constructor. }
        apply Forall_app in Hl. destruct Hl as [_ Hl].
        inversion Hl as [|? ? Hd' _]; subst.
        rewrite (@letter_not_space _ Hd') in Hd. discriminate.
  - exact (Hspace l E1).
Qed.

Lemma weather_follows (blanks rest : str) (g : option str) :
  blanks <> [] ->
  Forall (fun c => isspace c = true) blanks ->
  rmatch (Cat (Rep true 1 cls_space) (word (u"weather")))
    (blanks ++ u"weather" ++ rest) g (fun _ g' => Some {| group1 := g' |})
  = Some {| group1 := g |}.
Proof.
  intros Hne Hblanks.
  assert (H : exists y,
             rmatch (Cat (Rep true 1 cls_space) (word (u"weather")))
               (blanks ++ u"weather" ++ rest) g
               (fun _ g' => Some {| group1 := g' |}) = Some y).
  { rewrite rmatch_cat, rmatch_rep_greedy.
    match goal with
    | |- exists y, rep_greedy ?cls ?least ?s ?k = _ =>
        apply (@rep_greedy_reach _ cls blanks (u"weather" ++ rest) k
                 {| group1 := g |} Hblanks)
    end.
    - rewrite rmatch_word_app; [reflexivity | discriminate].
    - destruct blanks; [contradiction | simpl; lia]. }
  destruct H as (y & H). rewrite H. f_equal.
  apply rmatch_no_group in H; [|reflexivity].
  destruct H as (pre & s' & _ & H). injection H as <-. reflexivity.
Qed.

(** Pattern 2 at a phrase, blanks and "weather": the group is the phrase. *)
Lemma match_phrase_weather (city blanks rest : str) :
  city <> [] ->
  Forall (fun c => is_az c = true \/ isspace c = true) city ->
  strip city = city ->
  contains (u"weather") city = false ->
  blanks <> [] ->
  Forall (fun c => isspace c = true) blanks ->
  match_here city_pattern_before_weather (city ++ blanks ++ u"weather" ++ rest)
  = Some {| group1 := Some city |}.
Proof.
  intros Hne Hcity Hstrip Hnow Hbne Hblanks. unfold match_here.
  rewrite city_pattern_before_weather_parts, rmatch_cat, rmatch_grp_lazy.
  assert (Hcls : Forall (fun c => cls_letter_or_space c = true) city).
  { eapply Forall_impl; [|exact Hcity]. intros c. apply phrase_class. }
  destruct city as [|c t]; [contradiction|].
  inversion Hcls as [|? ? Hc Ht]; subst.
  cbn [app rep_lazy]. rewrite Hc.
  change (c :: t ++ blanks ++ u"weather" ++ rest)
    with ((c :: t) ++ blanks ++ u"weather" ++ rest).
  apply rep_lazy_reach.
  - exact Ht.
  - intros w1 w2 E Hw2. apply weather_inside.
    + exact Hw2.
    + intros a d Ea.
      apply (@phrase_suffix_last (c :: t) (c :: w1) w2 a d Hcity Hstrip);
        [rewrite E; reflexivity | exact Ea].
    + intros a b Ea.
      assert (Hin : contains (u"weather") (c :: t) = true).
      { rewrite E, Ea.
        change (c :: w1 ++ a ++ u"weather" ++ b)
          with ((c :: w1) ++ a ++ u"weather" ++ b).
        rewrite app_assoc. apply contains_infix. }
      rewrite Hin in Hnow. discriminate.
    + exact Hbne.
    + exact Hblanks.
  - rewrite firstn_consumed. apply weather_follows; assumption.
Qed.

End Phrases.

(** C4.  Pattern 1 (the phrase after "in") is tried first on the lowercased
    question, then pattern 2 (the phrase before "weather"); the first match
    gives the city, stripped and title-cased; without a match the default is
    returned unchanged.  What the patterns take as the city: after the first
    "in " of the lowercased question, a phrase of lowercase words that is
    followed by blanks, one of the words today, now, tomorrow, weather,
    forecast, and then only the marks [?,.] or whitespace, is returned
    title-cased without that word; so is a phrase followed by those marks or
    whitespace only, unless it ends with one of the five words itself; a
    question without "in " that opens with a phrase, blanks and "weather"
    gives that phrase title-cased.  A title-cased lowercase word is the
    word with its first letter uppercased.  The four documented questions
    give "Paris", "New York", "Hyderabad" and the default; where both
    patterns match, pattern 1 decides. *)
Theorem extract_city_name_policy (q d : str) :
  (forall m, search city_pattern_in (lower q) = Some m ->
     exists g, group1 m = Some g /\ extract_city_name q d = title (strip g))
  /\ (forall m, search city_pattern_in (lower q) = None ->
        search city_pattern_before_weather (lower q) = Some m ->
        exists g, group1 m = Some g /\ extract_city_name q d = title (strip g))
  /\ (search city_pattern_in (lower q) = None ->
      search city_pattern_before_weather (lower q) = None ->
      extract_city_name q d = d)
  /\ (forall pre city blanks kw tail,
        lower q = pre ++ u"in " ++ city ++ blanks ++ kw ++ tail ->
        contains (u"in") pre = false ->
        city <> [] ->
        Forall (fun c => is_az c = true \/ isspace c = true) city ->
        strip city = city ->
        blanks <> [] ->
        Forall (fun c => isspace c = true) blanks ->
        In kw [u"today"; u"now"; u"tomorrow"; u"weather"; u"forecast"] ->
        Forall (fun c => isspace c = true \/ In c (u"?,.")) tail ->
        extract_city_name q d = title city)
  /\ (forall pre city tail,
        lower q = pre ++ u"in " ++ city ++ tail ->
        contains (u"in") pre = false ->
        city <> [] ->
        Forall (fun c => is_az c = true \/ isspace c = true) city ->
        strip city = city ->
        (forall a c kw,
           isspace c = true ->
           In kw [u"today"; u"now"; u"tomorrow"; u"weather"; u"forecast"] ->
           city <> a ++ [c] ++ kw) ->
        Forall (fun c => isspace c = true \/ In c (u"?,.")) tail ->
        extract_city_name q d = title city)
  /\ (forall city blanks rest,
        lower q = city ++ blanks ++ u"weather" ++ rest ->
        contains (u"in ") (lower q) = false ->
        city <> [] ->
        Forall (fun c => is_az c = true \/ isspace c = true) city ->
        strip city = city ->
        contains (u"weather") city = false ->
        blanks <> [] ->
        Forall (fun c => isspace c = true) blanks ->
        extract_city_name q d = title city)
  /\ (forall c t,
        Forall (fun x => is_az x = true) (c :: t) ->
        title (c :: t) = (c - 32)%N :: t)
  /\ extract_city_name (u"What is the weather in Paris today?") d = u"Paris"
  /\ extract_city_name (u"tell me the weather in New York now") d = u"New York"
  /\ extract_city_name (u"Hyderabad weather now") d = u"Hyderabad"
  /\ extract_city_name (u"What's up?") d = d
  /\ (option_map city_of_match
        (search city_pattern_before_weather (lower (u"Paris weather in London")))
      = Some (u"Paris")
      /\ extract_city_name (u"Paris weather in London") d = u"London").
Proof.
  split.
  { intros m Hm.
    destruct (search_sets_group1 city_pattern_in _ eq_refl Hm) as (g & Hg).
    exists g. split; [exact Hg|].
    unfold extract_city_name, city_of_match. rewrite Hm, Hg. reflexivity. }
  split.
  { intros m H1 Hm.
    destruct (search_sets_group1 city_pattern_before_weather _ eq_refl Hm)
      as (g & Hg).
    exists g. split; [exact Hg|].
    unfold extract_city_name, city_of_match. rewrite H1, Hm, Hg. reflexivity. }
  split.
  { intros H1 H2. unfold extract_city_name. rewrite H1, H2. reflexivity. }
  split.
  { intros pre city blanks kw tail Hq Hpre Hne Hcity Hstrip Hbne Hblanks Hkw
      Htail.
    assert (Htail' : Forall (fun c => cls_trailing c = true) tail).
    { eapply Forall_impl; [|exact Htail]. intros c. apply trailing_class. }
    unfold extract_city_name.
    rewrite Hq, search_skips_prefix; [|exact Hpre].
    rewrite search_found with (m := {| group1 := Some city |}).
    - unfold city_of_match. cbn [group1 or_empty]. rewrite Hstrip.
      reflexivity.
    - apply match_in_phrase.
      + exact Hne.
      + eapply Forall_impl; [|exact Hcity]. intros c. apply phrase_class.
      + intros w1 w2 g E Hw1 Hw2. apply after_city_inside_keyword; auto.
        intros a c Ea.
        exact (@phrase_suffix_last city w1 w2 a c Hcity Hstrip E Ea).
      + intros g. apply after_city_keyword; assumption. }
  split.
  { intros pre city tail Hq Hpre Hne Hcity Hstrip Hno Htail.
    assert (Htail' : Forall (fun c => cls_trailing c = true) tail).
    { eapply Forall_impl; [|exact Htail]. intros c. apply trailing_class. }
    unfold extract_city_name.
    rewrite Hq, search_skips_prefix; [|exact Hpre].
    rewrite search_found with (m := {| group1 := Some city |}).
    - unfold city_of_match. cbn [group1 or_empty]. rewrite Hstrip.
      reflexivity.
    - apply match_in_phrase.
      + exact Hne.
      + eapply Forall_impl; [|exact Hcity]. intros c. apply phrase_class.
      + intros w1 w2 g E Hw1 Hw2. apply after_city_inside_end; auto.
        * intros a c Ea.
          exact (@phrase_suffix_last city w1 w2 a c Hcity Hstrip E Ea).
        * intros sp kw Hsne Hsp Hkw Ew.
          destruct (snoc_cases sp) as [-> | (sp' & c & ->)]; [contradiction|].
          apply Forall_app in Hsp. destruct Hsp as [_ Hc].
          inversion Hc as [|? ? Hc' _]; subst.
          apply (Hno (w1 ++ sp') c kw Hc' Hkw).
          rewrite <- !app_assoc. reflexivity.
      + intros g. apply after_city_end. exact Htail'. }
  split.
  { intros city blanks rest Hq Hin Hne Hcity Hstrip Hnow Hbne Hblanks.
    unfold extract_city_name.
    assert (H1 : search city_pattern_in (lower q) = None).
    { destruct (search city_pattern_in (lower q)) as [m|] eqn:E;
        [|reflexivity].
      apply search_suffix in E. destruct E as (pre & s' & Hs & Hm).
      apply match_city_pattern_in in Hm. destruct Hm as (c0 & r & -> & _).
      rewrite Hs, contains_infix in Hin. discriminate. }
    rewrite H1, Hq.
    rewrite search_found with (m := {| group1 := Some city |});
      [|apply match_phrase_weather; assumption].
    unfold city_of_match. cbn [group1 or_empty]. rewrite Hstrip.
    reflexivity. }
  split.
  { intros c t Hw. apply title_word. exact Hw. }
  repeat split; vm_compute; reflexivity.
Qed.

Lemma extract_city_name_policy_witness :
  extract_city_name (u"What is the weather in New Delhi tomorrow?")
    (u"Hyderabad")
  = u"New Delhi".
Proof.
  change (u"New Delhi") with (title (u"new delhi")).
  apply (proj1 (proj2 (proj2 (proj2
           (extract_city_name_policy
              (u"What is the weather in New Delhi tomorrow?")
              (u"Hyderabad")))))
           (u"what is the weather ") (u"new delhi") (u" ") (u"tomorrow")
           (u"?")).
  - vm_compute. reflexivity.
  - vm_compute. reflexivity.
  - discriminate.
  - repeat (apply Forall_cons;
            [first [left; reflexivity | right; reflexivity]|]).
    apply Forall_nil.
  - vm_compute. reflexivity.
  - discriminate.
  - repeat constructor.
  - right. right. left. reflexivity.
  - apply Forall_cons; [right; left; reflexivity | apply Forall_nil].
Defined.
